(** * gofinance: rates, cash flows, net present value and IRR

    A shallow embedding of [rate.go] and [cash_flow.go].  Go's [float64] is
    the kernel's binary64 type, so every [+], [*], [/] and comparison below
    rounds exactly as the compiled program does on a target without fused
    multiply-add. *)

From Stdlib Require Import ZArith Lia Bool List String.
From Stdlib Require Import Floats.
From stdpp Require Import base option list gmap sorting.

Set Warnings "-inexact-float".
Local Open Scope Z_scope.

(** ** float64 *)

Module F64.

Definition t := float.

(** [math.IsNaN], [math.IsInf(x, 0)] and finiteness. *)
Definition IsNaN (x : float) : bool := PrimFloat.is_nan x.
Definition IsInf (x : float) : bool := PrimFloat.is_infinity x.
Definition IsFinite (x : float) : bool := PrimFloat.is_finite x.

(** Shape of a binary64 value that is neither NaN nor an infinity. *)
Definition SFfinite (x : spec_float) : Prop :=
  match x with
  | S754_zero _ | S754_finite _ _ _ => True
  | S754_infinity _ | S754_nan => False
  end.

(** Shape of a value that compares [>= 0]: a zero of either sign, a positive
    finite number or [+Inf]. *)
Definition SFnonneg (x : spec_float) : Prop :=
  match x with
  | S754_zero _ | S754_finite false _ _ | S754_infinity false => True
  | _ => False
  end.

Definition SFiszero (x : spec_float) : Prop :=
  match x with S754_zero _ => True | _ => False end.

Lemma IsFinite_spec x : IsFinite x = true <-> SFfinite (Prim2SF x).
Proof.
  unfold IsFinite, is_finite, is_nan, is_infinity.
  rewrite !FloatAxioms.eqb_spec, abs_spec.
  change (Prim2SF infinity) with (S754_infinity false).
  destruct (Prim2SF x) as [s|s| |s m e]; unfold SFeqb; simpl.
  - tauto.
  - destruct s; simpl; split; intros; try discriminate; tauto.
  - split; intros; try discriminate; tauto.
  - rewrite Z.compare_refl, Pos.compare_cont_refl. destruct s; simpl; tauto.
Qed.

Lemma eqb_zero_spec x : (x =? 0)%float = true <-> SFiszero (Prim2SF x).
Proof.
  rewrite FloatAxioms.eqb_spec. change (Prim2SF 0) with (S754_zero false).
  destruct (Prim2SF x) as [s|s| |s m e]; unfold SFeqb; simpl; try tauto.
  - destruct s; simpl; split; intros; try discriminate; tauto.
  - split; intros; try discriminate; tauto.
  - destruct s; simpl; split; intros; try discriminate; tauto.
Qed.

(** A finite number times a zero is a zero (of some sign). *)
Lemma mul_finite_zero x y :
  IsFinite x = true -> (y =? 0)%float = true -> (x * y =? 0)%float = true.
Proof.
  rewrite IsFinite_spec, !eqb_zero_spec, mul_spec.
  destruct (Prim2SF x), (Prim2SF y); simpl; tauto.
Qed.

Lemma mul_zero_finite x y :
  (x =? 0)%float = true -> IsFinite y = true -> (x * y =? 0)%float = true.
Proof.
  rewrite IsFinite_spec, !eqb_zero_spec, mul_spec.
  destruct (Prim2SF x), (Prim2SF y); simpl; tauto.
Qed.

Lemma IsFinite_opp x : IsFinite (- x) = IsFinite x.
Proof.
  apply eq_true_iff_eq. rewrite !IsFinite_spec, opp_spec.
  destruct (Prim2SF x); simpl; tauto.
Qed.

Lemma eqb_zero_opp x : (- x =? 0)%float = (x =? 0)%float.
Proof.
  apply eq_true_iff_eq. rewrite !eqb_zero_spec, opp_spec.
  destruct (Prim2SF x); simpl; tauto.
Qed.

(** [x == 0] holds of the two zeros only. *)
Lemma eqb_zero_cases x : (x =? 0)%float = true -> x = 0%float \/ x = (-0)%float.
Proof.
  rewrite eqb_zero_spec. intros H.
  destruct (Prim2SF x) as [[|]| | |] eqn:E; try contradiction.
  - right. apply Prim2SF_inj. rewrite E. reflexivity.
  - left. apply Prim2SF_inj. rewrite E. reflexivity.
Qed.

(** IEEE equality with a positive finite number is identity. *)
Lemma SFeqb_finite_eq x m1 e1 :
  SFeqb x (S754_finite false m1 e1) = true -> x = S754_finite false m1 e1.
Proof.
  unfold SFeqb.
  destruct x as [s|s| |s m e]; cbn [SFcompare]; try discriminate;
    try (destruct s; discriminate).
  destruct s; try discriminate.
  destruct (Z.compare_spec e e1) as [->| |]; try discriminate.
  destruct (Pos.compare_cont Eq m m1) eqn:C; try discriminate.
  apply Pos.compare_eq in C. now subst.
Qed.

(** [x == 1] holds of the float [1] only. *)
Lemma eqb_one_eq x : (x =? 1)%float = true -> x = 1%float.
Proof.
  rewrite FloatAxioms.eqb_spec. intros H. apply Prim2SF_inj.
  change (Prim2SF 1) with (S754_finite false 4503599627370496 (-52)) in *.
  now apply SFeqb_finite_eq.
Qed.

(** The sign of a rounded value: [s] unless the result is a NaN. *)
Definition SFsigned (s : bool) (x : spec_float) : Prop :=
  match x with
  | S754_zero s' | S754_infinity s' | S754_finite s' _ _ => s' = s
  | S754_nan => False
  end.

Lemma shr_1_nonneg mrs : 0 <= shr_m mrs -> 0 <= shr_m (shr_1 mrs).
Proof.
  destruct mrs as [m r s]; cbn [shr_m]. intros H.
  destruct m as [|[p|p|]|p]; cbn; lia.
Qed.

Lemma iter_pos_shr_1_nonneg p : forall mrs,
  0 <= shr_m mrs -> 0 <= shr_m (SpecFloat.iter_pos shr_1 p mrs).
Proof.
  induction p as [p IH|p IH|]; intros mrs H; cbn [SpecFloat.iter_pos].
  - apply IH, IH, shr_1_nonneg, H.
  - apply IH, IH, H.
  - apply shr_1_nonneg, H.
Qed.

Lemma shr_fexp_nonneg m e l :
  0 <= m -> 0 <= shr_m (fst (shr_fexp prec emax m e l)).
Proof.
  intros H. unfold shr_fexp, shr.
  assert (H0 : 0 <= shr_m (shr_record_of_loc m l))
    by (destruct l as [|[]]; exact H).
  destruct (fexp prec emax (Zdigits2 m + e) - e); cbn [fst]; try exact H0.
  apply iter_pos_shr_1_nonneg, H0.
Qed.

Lemma round_nearest_even_nonneg m l : 0 <= m -> 0 <= round_nearest_even m l.
Proof.
  intros H. destruct l as [|[]]; cbn; try lia. destruct (Z.even m); lia.
Qed.

Lemma binary_round_aux_signed sx mx ex lx :
  0 <= mx -> SFsigned sx (binary_round_aux prec emax sx mx ex lx).
Proof.
  intros H. unfold binary_round_aux.
  pose proof (shr_fexp_nonneg mx ex lx H) as H1.
  destruct (shr_fexp prec emax mx ex lx) as [mrs' e']. cbn [fst] in H1.
  pose proof (shr_fexp_nonneg _ e' loc_Exact
                (round_nearest_even_nonneg _ (loc_of_shr_record mrs') H1)) as H2.
  destruct (shr_fexp prec emax _ e' loc_Exact) as [mrs'' e'']. cbn [fst] in H2.
  destruct (shr_m mrs'') as [|p|p]; [reflexivity| |lia].
  destruct (e'' <=? emax - prec); reflexivity.
Qed.

Lemma binary_normalize_nonneg m e :
  0 <= m -> SFnonneg (binary_normalize prec emax m e false).
Proof.
  intros H. destruct m as [|p|p]; [exact I| |lia].
  unfold binary_normalize, binary_round.
  destruct (shl_align p e _) as [mz ez].
  pose proof (binary_round_aux_signed false (Zpos mz) ez loc_Exact ltac:(lia)) as S.
  destruct (binary_round_aux _ _ _ _ _ _) as [s|s| |s m1 e1]; cbn in *; subst; auto.
Qed.

Lemma SFadd_nonneg x y :
  SFnonneg x -> SFnonneg y -> SFnonneg (SFadd prec emax x y).
Proof.
  destruct x as [sx|[]| |[] mx ex], y as [sy|[]| |[] my ey];
    cbn [SFnonneg SFadd]; try tauto.
  - destruct sx, sy; tauto.
  - intros _ _. apply binary_normalize_nonneg. cbn [cond_Zopp]. lia.
Qed.

Lemma SFdiv_nonneg x my ey :
  SFnonneg x ->
  SFnonneg (SFdiv prec emax x (S754_finite false my ey)).
Proof.
  destruct x as [sx|[]| |[] mx ex]; cbn [SFnonneg SFdiv xorb]; try tauto.
  intros _.
  destruct (SFdiv_core_binary prec emax (Z.pos mx) ex (Z.pos my) ey)
    as [[mz ez] lz] eqn:E.
  assert (0 <= mz).
  { unfold SFdiv_core_binary in E.
    set (m' := match _ - _ - _ with Z0 => _ | Zpos _ => _ | Zneg _ => _ end) in E.
    assert (0 <= m').
    { subst m'. destruct (_ - _ - _); try lia. apply Z.shiftl_nonneg. lia. }
    pose proof (Z.div_eucl_eq m' (Z.pos my) ltac:(lia)) as Q.
    pose proof (Z.mod_pos_bound m' (Z.pos my) ltac:(lia)) as R.
    unfold Z.modulo in R.
    destruct (Z.div_eucl m' (Z.pos my)) as [q r]. inversion E; subst. nia. }
  pose proof (binary_round_aux_signed false mz ez lz H) as S.
  destruct (binary_round_aux _ _ _ _ _ _) as [s|s| |s m1 e1]; cbn in *; subst; auto.
Qed.

(** *** Values that compare [>= 0] *)

Definition nonneg (x : float) : Prop := SFnonneg (Prim2SF x).

Lemma nonneg_add x y : nonneg x -> nonneg y -> nonneg (x + y)%float.
Proof. unfold nonneg. rewrite add_spec. apply SFadd_nonneg. Qed.

Lemma nonneg_div x c my ey :
  Prim2SF c = S754_finite false my ey -> nonneg x -> nonneg (x / c)%float.
Proof. unfold nonneg. rewrite div_spec. intros ->. apply SFdiv_nonneg. Qed.

Lemma nonneg_of_uint63 n : nonneg (of_uint63 n).
Proof.
  unfold nonneg. rewrite of_uint63_spec. apply binary_normalize_nonneg.
  apply Uint63.to_Z_bounded.
Qed.

(** A value that compares [>= 0] is not a NaN: it equals itself. *)
Lemma nonneg_eqb_refl x : nonneg x -> (x =? x)%float = true.
Proof.
  unfold nonneg. rewrite FloatAxioms.eqb_spec. unfold SFeqb.
  destruct (Prim2SF x) as [s|[]| |[] m e]; cbn [SFnonneg SFcompare]; try tauto.
  intros _. now rewrite Z.compare_refl, Pos.compare_cont_refl.
Qed.

Lemma binary_round_aux_opp sx mx ex lx :
  SFopp (binary_round_aux prec emax sx mx ex lx)
  = binary_round_aux prec emax (negb sx) mx ex lx.
Proof.
  unfold binary_round_aux.
  destruct (shr_fexp prec emax mx ex lx) as [mrs' e'].
  destruct (shr_fexp prec emax _ e' loc_Exact) as [mrs'' e''].
  destruct (shr_m mrs''); try reflexivity.
  destruct (e'' <=? emax - prec); reflexivity.
Qed.

(** Multiplying by [-1] and negating is multiplying by [1]. *)
Lemma opp_mul_neg_one x : (- (-1 * x))%float = (1 * x)%float.
Proof.
  apply Prim2SF_inj. rewrite opp_spec, !mul_spec.
  change (Prim2SF (-1)) with (S754_finite true 4503599627370496 (-52)).
  change (Prim2SF 1) with (S754_finite false 4503599627370496 (-52)).
  destruct (Prim2SF x) as [s|s| |s m e]; cbn [SF64mul SFmul SFopp];
    try reflexivity; try (destruct s; reflexivity).
  rewrite binary_round_aux_opp. now destruct s.
Qed.

Lemma nonneg_one_mul x : nonneg x -> nonneg (1 * x)%float.
Proof.
  unfold nonneg. rewrite mul_spec.
  change (Prim2SF 1) with (S754_finite false 4503599627370496 (-52)).
  destruct (Prim2SF x) as [s|[]| |[] m e]; cbn [SF64mul SFmul SFnonneg xorb];
    try tauto.
  intros _.
  pose proof (binary_round_aux_signed false
    (Z.pos (4503599627370496 * m)) (-52 + e) loc_Exact ltac:(lia)) as S.
  destruct (binary_round_aux _ _ _ _ _ _) as [s|s| |s m1 e1];
    cbn in *; subst; auto.
Qed.


Lemma opp_involutive x : (- - x)%float = x.
Proof.
  apply Prim2SF_inj. rewrite !opp_spec.
  destruct (Prim2SF x) as [s|s| |s m e]; cbn [SFopp]; try reflexivity;
    now rewrite negb_involutive.
Qed.

Lemma eqb_refl_opp x : (x =? x)%float = true -> (- x =? - x)%float = true.
Proof.
  rewrite !FloatAxioms.eqb_spec, opp_spec. unfold SFeqb.
  destruct (Prim2SF x) as [s|s| |s m e]; cbn [SFopp SFcompare]; try tauto.
  - now destruct s.
  - intros _. rewrite Z.compare_refl, Pos.compare_cont_refl. now destruct s.
Qed.

(** *** Magnitudes

    A finite number with mantissa [m] and exponent [e] lies in
    [[2^(d-1), 2^d)] for [d = digits m + e]. *)

Lemma digits2_pos_size p : digits2_pos p = Pos.size p.
Proof. induction p as [p IH|p IH|]; cbn; now rewrite ?IH. Qed.

Lemma Zdigits2_log2 m : 0 < m -> Zdigits2 m = Z.log2 m + 1.
Proof.
  destruct m as [|p|p]; try lia. intros _. cbn [Zdigits2].
  rewrite digits2_pos_size. destruct p; cbn; lia.
Qed.

Lemma shr_1_div2 mrs : 0 <= shr_m mrs -> shr_m (shr_1 mrs) = shr_m mrs / 2.
Proof.
  destruct mrs as [m r s]; cbn [shr_m]. intros H.
  destruct m as [|[p|p|]|p]; cbn [shr_1 shr_m]; try lia; try reflexivity.
  - apply Z.div_unique with 1; lia.
  - apply Z.div_unique with 0; lia.
Qed.

Lemma pow2_xI p : 2 ^ Z.pos p~1 = 2 * (2 ^ Z.pos p * 2 ^ Z.pos p).
Proof.
  replace (Z.pos p~1) with (1 + (Z.pos p + Z.pos p)) by lia.
  now rewrite !Z.pow_add_r, Z.pow_1_r by lia.
Qed.

Lemma pow2_xO p : 2 ^ Z.pos p~0 = 2 ^ Z.pos p * 2 ^ Z.pos p.
Proof.
  replace (Z.pos p~0) with (Z.pos p + Z.pos p) by lia.
  now rewrite Z.pow_add_r by lia.
Qed.

Lemma iter_pos_shr_1_div p : forall mrs,
  0 <= shr_m mrs ->
  shr_m (SpecFloat.iter_pos shr_1 p mrs) = shr_m mrs / 2 ^ Z.pos p.
Proof.
  induction p as [p IH|p IH|]; intros mrs H; cbn [SpecFloat.iter_pos].
  - assert (0 < 2 ^ Z.pos p) by (apply Z.pow_pos_nonneg; lia).
    rewrite IH, IH, shr_1_div2 by
      (try apply iter_pos_shr_1_nonneg; try apply shr_1_nonneg; exact H).
    rewrite !Z.div_div by lia. now rewrite pow2_xI.
  - assert (0 < 2 ^ Z.pos p) by (apply Z.pow_pos_nonneg; lia).
    rewrite IH, IH by (try apply iter_pos_shr_1_nonneg; exact H).
    rewrite !Z.div_div by lia. now rewrite pow2_xO.
  - now rewrite shr_1_div2.
Qed.

Lemma log2_div_pow2 m n :
  0 < m -> 0 <= n <= Z.log2 m ->
  0 < m / 2 ^ n /\ Z.log2 (m / 2 ^ n) = Z.log2 m - n.
Proof.
  intros Hm Hn. rewrite <- Z.shiftr_div_pow2 by lia.
  pose proof (Z.log2_shiftr m n Hm) as L. rewrite Z.max_r in L by lia.
  split; [|exact L].
  rewrite Z.shiftr_div_pow2 by lia.
  apply Z.div_str_pos. split; [lia|].
  transitivity (2 ^ Z.log2 m).
  - apply Z.pow_le_mono_r; lia.
  - apply Z.log2_spec, Hm.
Qed.

Lemma shr_record_of_loc_m m l : shr_m (shr_record_of_loc m l) = m.
Proof. now destruct l as [|[]]. Qed.

(** Truncating to the format keeps a number above the least exponent
    non-zero, and keeps its magnitude. *)
Lemma shr_fexp_mag m e l :
  0 < m -> SpecFloat.emin prec emax < Zdigits2 m + e ->
  0 < shr_m (fst (shr_fexp prec emax m e l)) /\
  Zdigits2 (shr_m (fst (shr_fexp prec emax m e l)))
    + snd (shr_fexp prec emax m e l) = Zdigits2 m + e.
Proof.
  intros Hm HD. unfold shr_fexp, shr.
  pose proof (Zdigits2_log2 m Hm) as Dm.
  assert (Hn : fexp prec emax (Zdigits2 m + e) - e <= Z.log2 m)
    by (unfold fexp, SpecFloat.emin, prec, emax in *; lia).
  destruct (fexp prec emax (Zdigits2 m + e) - e) as [|p|p] eqn:En;
    cbn [fst snd]; rewrite ?shr_record_of_loc_m; try (split; [exact Hm | reflexivity]).
  rewrite iter_pos_shr_1_div by (rewrite shr_record_of_loc_m; lia).
  rewrite shr_record_of_loc_m.
  destruct (log2_div_pow2 m (Z.pos p) Hm ltac:(lia)) as [P L].
  split; [exact P|]. rewrite (Zdigits2_log2 _ P), L, Dm. lia.
Qed.

Lemma round_nearest_even_mag m l :
  0 < m ->
  0 < round_nearest_even m l /\ Zdigits2 m <= Zdigits2 (round_nearest_even m l).
Proof.
  intros Hm.
  assert (B : m <= round_nearest_even m l)
    by (destruct l as [|[]]; cbn; try lia; destruct (Z.even m); lia).
  split; [lia|]. rewrite !Zdigits2_log2 by lia.
  apply Z.add_le_mono_r, Z.log2_le_mono, B.
Qed.

(** Shape of a value of sign [s] and of magnitude [2^(k-1)] at least: an
    infinity, or a finite number with [k <= digits m + e]. *)
Definition SFatLeast (s : bool) (k : Z) (x : spec_float) : Prop :=
  match x with
  | S754_infinity s' => s' = s
  | S754_finite s' m e => s' = s /\ k <= Z.pos (digits2_pos m) + e
  | _ => False
  end.

Lemma SFatLeast_weaken s k k' x : k' <= k -> SFatLeast s k x -> SFatLeast s k' x.
Proof. intros L. destruct x; cbn; try tauto. intros [-> H]. split; [reflexivity|lia]. Qed.

(** Rounding does not underflow to zero above the least exponent, and does
    not lower the magnitude. *)
Lemma binary_round_aux_atLeast sx m e l :
  0 < m -> SpecFloat.emin prec emax < Zdigits2 m + e ->
  SFatLeast sx (Zdigits2 m + e) (binary_round_aux prec emax sx m e l).
Proof.
  intros Hm HD. unfold binary_round_aux.
  destruct (shr_fexp_mag m e l Hm HD) as [P1 D1].
  destruct (shr_fexp prec emax m e l) as [mrs' e']. cbn [fst snd] in P1, D1.
  destruct (round_nearest_even_mag (shr_m mrs') (loc_of_shr_record mrs') P1)
    as [P2 D2].
  set (m2 := round_nearest_even (shr_m mrs') (loc_of_shr_record mrs')) in *.
  destruct (shr_fexp_mag m2 e' loc_Exact P2 ltac:(lia)) as [P3 D3].
  destruct (shr_fexp prec emax m2 e' loc_Exact) as [mrs'' e''].
  cbn [fst snd] in P3, D3.
  destruct (shr_m mrs'') as [|p|p]; try lia.
  cbn [Zdigits2] in D3.
  destruct (e'' <=? emax - prec); cbn [SFatLeast]; [split; [reflexivity|lia] | reflexivity].
Qed.

Lemma digits2_pos_iter_xO d : forall m,
  Z.pos (digits2_pos (Pos.iter xO m d)) = Z.pos (digits2_pos m) + Z.pos d.
Proof.
  induction d as [|d IH] using Pos.peano_ind; intros m.
  - cbn. lia.
  - rewrite Pos.iter_succ. cbn [digits2_pos]. rewrite Pos2Z.inj_succ, IH. lia.
Qed.

Lemma shl_align_mag m e e' :
  Z.pos (digits2_pos (fst (shl_align m e e'))) + snd (shl_align m e e')
  = Z.pos (digits2_pos m) + e.
Proof.
  unfold shl_align. destruct (e' - e) as [|p|p] eqn:E; cbn [fst snd]; try reflexivity.
  rewrite digits2_pos_iter_xO. lia.
Qed.

Lemma binary_round_atLeast s m e :
  SpecFloat.emin prec emax < Z.pos (digits2_pos m) + e ->
  SFatLeast s (Z.pos (digits2_pos m) + e) (binary_round prec emax s m e).
Proof.
  intros HD. unfold binary_round.
  pose proof (shl_align_mag m e
                (fexp prec emax (Z.pos (digits2_pos m) + e))) as A.
  destruct (shl_align m e _) as [mz ez]. cbn [fst snd] in A.
  rewrite <- A. apply (binary_round_aux_atLeast s (Z.pos mz) ez loc_Exact); [lia|].
  cbn [Zdigits2]. lia.
Qed.

Lemma digits2_pos_le a b : (a <= b)%positive -> Z.pos (digits2_pos a) <= Z.pos (digits2_pos b).
Proof.
  intros L. change (Zdigits2 (Z.pos a) <= Zdigits2 (Z.pos b)).
  rewrite !Zdigits2_log2 by lia. apply Z.add_le_mono_r, Z.log2_le_mono. lia.
Qed.

(** The mantissa of a valid finite number sits at or above the least
    exponent. *)
Lemma valid_binary_emin s m e :
  SpecFloat.valid_binary prec emax (S754_finite s m e) = true ->
  SpecFloat.emin prec emax <= e.
Proof.
  cbn [SpecFloat.valid_binary]. unfold bounded, canonical_mantissa.
  intros H. apply andb_true_iff in H as [H _]. apply Z.eqb_eq in H.
  unfold fexp in H. lia.
Qed.


Lemma SFatLeast_nonneg k x : SFatLeast false k x -> SFnonneg x.
Proof.
  destruct x as [s|s| |s m e]; cbn; try tauto.
  - now intros ->.
  - now intros [-> _].
Qed.

(** A sum of two numbers that compare [>= 0] is at least as large as each. *)
Lemma SFadd_atLeast_r k x y :
  SpecFloat.emin prec emax < k ->
  SFnonneg x -> SFatLeast false k y -> SFatLeast false k (SFadd prec emax x y).
Proof.
  intros Hk.
  destruct x as [sx|[]| |[] mx ex], y as [sy|[]| |[] my ey];
    cbn [SFnonneg SFatLeast SFadd]; try tauto; try solve [intros; intuition discriminate].
  intros _ [_ Hy]. cbn [cond_Zopp binary_normalize Z.add].
  pose proof (shl_align_mag mx ex (Z.min ex ey)) as Ax.
  pose proof (shl_align_mag my ey (Z.min ex ey)) as Ay.
  assert (Sy : snd (shl_align my ey (Z.min ex ey)) = Z.min ex ey).
  { unfold shl_align. destruct (Z.min ex ey - ey) eqn:E; cbn [snd]; lia. }
  set (mx' := fst (shl_align mx ex (Z.min ex ey))) in *.
  set (my' := fst (shl_align my ey (Z.min ex ey))) in *.
  pose proof (digits2_pos_le my' (mx' + my') ltac:(lia)) as L.
  eapply SFatLeast_weaken; [|apply binary_round_atLeast]; lia.
Qed.

Lemma SFadd_atLeast_l k x y :
  SpecFloat.emin prec emax < k ->
  SFatLeast false k x -> SFnonneg y -> SFatLeast false k (SFadd prec emax x y).
Proof.
  intros Hk.
  destruct x as [sx|[]| |[] mx ex], y as [sy|[]| |[] my ey];
    cbn [SFnonneg SFatLeast SFadd]; try tauto; try solve [intros; intuition discriminate].
  intros [_ Hx] _. cbn [cond_Zopp binary_normalize Z.add].
  pose proof (shl_align_mag mx ex (Z.min ex ey)) as Ax.
  assert (Sx : snd (shl_align mx ex (Z.min ex ey)) = Z.min ex ey).
  { unfold shl_align. destruct (Z.min ex ey - ex) eqn:E; cbn [snd]; lia. }
  set (mx' := fst (shl_align mx ex (Z.min ex ey))) in *.
  set (my' := fst (shl_align my ey (Z.min ex ey))) in *.
  pose proof (digits2_pos_le mx' (mx' + my') ltac:(lia)) as L.
  eapply SFatLeast_weaken; [|apply binary_round_atLeast]; lia.
Qed.

Lemma log2_div_lower a b :
  0 < b -> Z.log2 b + 1 <= Z.log2 a ->
  0 < a / b /\ Z.log2 a - Z.log2 b - 1 <= Z.log2 (a / b).
Proof.
  intros Hb L.
  assert (Ha : 0 < a).
  { destruct (Z.lt_trichotomy a 0) as [N|[->|P]]; [|cbn in L|exact P].
    - rewrite (Z.log2_nonpos a) in L by lia. pose proof (Z.log2_nonneg b). lia.
    - pose proof (Z.log2_nonneg b). lia. }
  pose proof (Z.log2_nonneg b) as Lb.
  destruct (Z.log2_spec a Ha) as [A1 _].
  destruct (Z.log2_spec b Hb) as [_ B2].
  set (n := Z.log2 a - Z.log2 b - 1).
  assert (P : 0 < 2 ^ n) by (apply Z.pow_pos_nonneg; lia).
  assert (Q : 2 ^ n <= a / b).
  { apply Z.div_le_lower_bound; [exact Hb|].
    replace (Z.log2 a) with (n + Z.succ (Z.log2 b)) in A1 by lia.
    rewrite Z.pow_add_r in A1 by lia. nia. }
  split; [lia|].
  rewrite <- (Z.log2_pow2 n) by lia. apply Z.log2_le_mono, Q.
Qed.

(** A quotient by a positive finite number keeps at least the difference of
    the magnitudes, when that is in the normal range. *)
Lemma SFdiv_atLeast k x my ey :
  SpecFloat.emin prec emax + prec <= k - (Z.pos (digits2_pos my) + ey) ->
  SFatLeast false k x ->
  SFatLeast false (k - (Z.pos (digits2_pos my) + ey))
    (SFdiv prec emax x (S754_finite false my ey)).
Proof.
  intros Hk.
  destruct x as [sx|[]| |[] mx ex]; cbn [SFatLeast SFdiv xorb]; try tauto;
    try solve [intros; intuition discriminate].
  intros [_ Hx].
  destruct (SFdiv_core_binary prec emax (Z.pos mx) ex (Z.pos my) ey)
    as [[mz ez] lz] eqn:E.
  unfold SFdiv_core_binary in E. cbn [Zdigits2] in E.
  set (d1 := Z.pos (digits2_pos mx)) in *.
  set (d2 := Z.pos (digits2_pos my)) in *.
  set (e' := Z.min (fexp prec emax (d1 + ex - (d2 + ey))) (ex - ey)) in *.
  assert (He' : e' <= d1 + ex - (d2 + ey) - prec /\ e' <= ex - ey).
  { subst e'. unfold fexp, SpecFloat.emin, prec, emax in *. lia. }
  set (m' := match ex - ey - e' with
             | Z0 => Z.pos mx | Zpos _ => Z.shiftl (Z.pos mx) (ex - ey - e')
             | Zneg _ => 0 end) in *.
  assert (Hm' : m' = Z.shiftl (Z.pos mx) (ex - ey - e')).
  { subst m'. destruct (ex - ey - e') eqn:S; [reflexivity|reflexivity|lia]. }
  assert (L1 : Z.log2 m' = Z.log2 (Z.pos mx) + (ex - ey - e'))
    by (rewrite Hm'; apply Z.log2_shiftl; lia).
  pose proof (Zdigits2_log2 (Z.pos mx) ltac:(lia)) as D1.
  pose proof (Zdigits2_log2 (Z.pos my) ltac:(lia)) as D2.
  cbn [Zdigits2] in D1, D2. fold d1 in D1. fold d2 in D2.
  destruct (log2_div_lower m' (Z.pos my) ltac:(lia)) as [Q1 Q2];
    [unfold prec in *; lia|].
  unfold Z.div in Q1, Q2.
  destruct (Z.div_eucl m' (Z.pos my)) as [q r]. cbn [fst] in Q1, Q2.
  injection E as <- <- <-.
  pose proof (Zdigits2_log2 q Q1) as Dq.
  eapply SFatLeast_weaken; [|apply binary_round_aux_atLeast]; try exact Q1;
    unfold SpecFloat.emin, prec, emax in *; lia.
Qed.

(** A product with a finite number keeps at least the sum of the
    magnitudes less one. *)
Lemma SFmul_atLeast sx mx ex sy k y :
  SpecFloat.emin prec emax < Z.pos (digits2_pos mx) + ex + k - 1 ->
  SFatLeast sy k y ->
  SFatLeast (xorb sx sy) (Z.pos (digits2_pos mx) + ex + k - 1)
    (SFmul prec emax (S754_finite sx mx ex) y).
Proof.
  intros Hk.
  destruct y as [s|s| |s my ey]; cbn [SFatLeast SFmul]; try tauto.
  - now intros ->.
  - intros [-> Hy].
    pose proof (Zdigits2_log2 (Z.pos mx) ltac:(lia)) as D1.
    pose proof (Zdigits2_log2 (Z.pos my) ltac:(lia)) as D2.
    pose proof (Zdigits2_log2 (Z.pos (mx * my)) ltac:(lia)) as D3.
    pose proof (Z.log2_mul_below (Z.pos mx) (Z.pos my) ltac:(lia) ltac:(lia)) as L.
    rewrite <- Pos2Z.inj_mul in L. cbn [Zdigits2] in D1, D2, D3.
    eapply SFatLeast_weaken;
      [|apply (binary_round_aux_atLeast _ (Z.pos (mx * my)) (ex + ey) loc_Exact)];
      cbn [Zdigits2]; lia.
Qed.

(** *** Values of a given sign and least magnitude *)

Definition atLeast (s : bool) (k : Z) (x : float) : Prop :=
  SFatLeast s k (Prim2SF x).

Lemma atLeast_nonneg k x : atLeast false k x -> nonneg x.
Proof. apply SFatLeast_nonneg. Qed.

Lemma atLeast_add_r k x y :
  -1074 < k -> nonneg x -> atLeast false k y -> atLeast false k (x + y)%float.
Proof. unfold atLeast, nonneg. rewrite add_spec. apply SFadd_atLeast_r. Qed.

Lemma atLeast_add_l k x y :
  -1074 < k -> atLeast false k x -> nonneg y -> atLeast false k (x + y)%float.
Proof. unfold atLeast, nonneg. rewrite add_spec. apply SFadd_atLeast_l. Qed.

Lemma atLeast_div k k' x c my ey :
  Prim2SF c = S754_finite false my ey ->
  k' = k - (Z.pos (digits2_pos my) + ey) -> -1021 <= k' ->
  atLeast false k x -> atLeast false k' (x / c)%float.
Proof.
  unfold atLeast. rewrite div_spec. intros -> -> Hk. now apply SFdiv_atLeast.
Qed.

Lemma atLeast_mul s k k' sx x c mx ex :
  Prim2SF c = S754_finite sx mx ex ->
  k' = Z.pos (digits2_pos mx) + ex + k - 1 -> -1074 < k' ->
  atLeast s k x -> atLeast (xorb sx s) k' (c * x)%float.
Proof.
  unfold atLeast. rewrite mul_spec. intros -> -> Hk. now apply SFmul_atLeast.
Qed.

Lemma atLeast_of_uint63 n :
  (0 < Uint63.to_Z n)%Z -> atLeast false 1 (of_uint63 n).
Proof.
  unfold atLeast. rewrite of_uint63_spec. intros H.
  destruct (Uint63.to_Z n) as [|p|p]; try lia.
  cbn [binary_normalize].
  eapply SFatLeast_weaken; [|apply binary_round_atLeast];
    unfold SpecFloat.emin, prec, emax; lia.
Qed.

(** A positive value compares [> 0], a negative one [< 0]. *)
Lemma atLeast_pos k x : atLeast false k x -> (0 <? x)%float = true.
Proof.
  unfold atLeast. rewrite ltb_spec. change (Prim2SF 0) with (S754_zero false).
  destruct (Prim2SF x) as [s|s| |s m e]; cbn; try tauto.
  - now intros ->.
  - now intros [-> _].
Qed.

Lemma atLeast_neg k x : atLeast true k x -> (x <? 0)%float = true.
Proof.
  unfold atLeast. rewrite ltb_spec. change (Prim2SF 0) with (S754_zero false).
  destruct (Prim2SF x) as [s|s| |s m e]; cbn; try tauto.
  - now intros ->.
  - now intros [-> _].
Qed.

Lemma atLeast_weaken s k k' x : k' <= k -> atLeast s k x -> atLeast s k' x.
Proof. apply SFatLeast_weaken. Qed.

(** *** Exact results *)

Lemma shr_1_double m :
  0 <= m ->
  shr_1 {| shr_m := 2 * m; shr_r := false; shr_s := false |}
  = {| shr_m := m; shr_r := false; shr_s := false |}.
Proof. intros H. destruct m as [|p|p]; [reflexivity|reflexivity|lia]. Qed.

Lemma iter_pos_shr_1_exact p : forall m,
  0 <= m ->
  SpecFloat.iter_pos shr_1 p
    {| shr_m := m * 2 ^ Z.pos p; shr_r := false; shr_s := false |}
  = {| shr_m := m; shr_r := false; shr_s := false |}.
Proof.
  induction p as [p IH|p IH|]; intros m H; cbn [SpecFloat.iter_pos].
  - assert (0 < 2 ^ Z.pos p) by (apply Z.pow_pos_nonneg; lia).
    rewrite pow2_xI.
    replace (m * (2 * (2 ^ Z.pos p * 2 ^ Z.pos p)))
      with (2 * (m * 2 ^ Z.pos p * 2 ^ Z.pos p)) by ring.
    rewrite shr_1_double, IH, IH by nia. reflexivity.
  - assert (0 < 2 ^ Z.pos p) by (apply Z.pow_pos_nonneg; lia).
    rewrite pow2_xO, Z.mul_assoc, IH, IH by nia. reflexivity.
  - rewrite Z.pow_1_r, Z.mul_comm. now apply shr_1_double.
Qed.

(** Rounding a number that the format holds gives that number. *)
Lemma binary_round_aux_exact sx m e j :
  bounded prec emax m e = true -> 0 <= j ->
  binary_round_aux prec emax sx (Z.pos m * 2 ^ j) (e - j) loc_Exact
  = S754_finite sx m e.
Proof.
  intros Hb Hj. unfold bounded, canonical_mantissa in Hb.
  apply andb_true_iff in Hb as [Hc He]. apply Z.eqb_eq in Hc.
  assert (P : 0 < 2 ^ j) by (apply Z.pow_pos_nonneg; lia).
  assert (D : Zdigits2 (Z.pos m * 2 ^ j) = Z.pos (digits2_pos m) + j).
  { rewrite Zdigits2_log2 by nia. rewrite Z.log2_mul_pow2 by lia.
    pose proof (Zdigits2_log2 (Z.pos m) ltac:(lia)) as D. cbn [Zdigits2] in D.
    lia. }
  assert (S1 : shr_fexp prec emax (Z.pos m * 2 ^ j) (e - j) loc_Exact
               = ({| shr_m := Z.pos m; shr_r := false; shr_s := false |}, e)).
  { unfold shr_fexp. rewrite D.
    replace (Z.pos (digits2_pos m) + j + (e - j))
      with (Z.pos (digits2_pos m) + e) by lia.
    rewrite Hc. replace (e - (e - j)) with j by lia.
    cbn [shr_record_of_loc]. unfold shr. destruct j as [|p|p]; try lia.
    - rewrite Z.pow_0_r, Z.mul_1_r. f_equal. lia.
    - rewrite iter_pos_shr_1_exact by lia. f_equal. lia. }
  unfold binary_round_aux. rewrite S1. cbn [shr_m loc_of_shr_record round_nearest_even].
  assert (S2 : shr_fexp prec emax (Z.pos m) e loc_Exact
               = ({| shr_m := Z.pos m; shr_r := false; shr_s := false |}, e)).
  { unfold shr_fexp. cbn [Zdigits2]. rewrite Hc, Z.sub_diag. reflexivity. }
  rewrite S2. cbn [shr_m]. now rewrite He.
Qed.

(** Multiplying or dividing by [1] changes nothing, whatever the value. *)
Lemma SFmul_one_r x :
  SpecFloat.valid_binary prec emax x = true ->
  SFmul prec emax x (Prim2SF 1) = x.
Proof.
  intros V. change (Prim2SF 1) with (S754_finite false 4503599627370496 (-52)).
  destruct x as [s|s| |s m e]; cbn [SFmul]; rewrite ?xorb_false_r; try reflexivity.
  rewrite Pos2Z.inj_mul. change (Z.pos 4503599627370496) with (2 ^ 52).
  replace (e + -52) with (e - 52) by lia.
  now apply binary_round_aux_exact.
Qed.

Lemma SFmul_one_l x :
  SpecFloat.valid_binary prec emax x = true ->
  SFmul prec emax (Prim2SF 1) x = x.
Proof.
  intros V. change (Prim2SF 1) with (S754_finite false 4503599627370496 (-52)).
  destruct x as [s|s| |s m e]; cbn [SFmul xorb]; try reflexivity.
  rewrite Pos2Z.inj_mul, Z.mul_comm. change (Z.pos 4503599627370496) with (2 ^ 52).
  replace (-52 + e) with (e - 52) by lia.
  now apply binary_round_aux_exact.
Qed.

Lemma mul_one_r x : (x * 1)%float = x.
Proof.
  apply Prim2SF_inj. rewrite mul_spec. apply SFmul_one_r, Prim2SF_valid.
Qed.

Lemma mul_one_l x : (1 * x)%float = x.
Proof.
  apply Prim2SF_inj. rewrite mul_spec. apply SFmul_one_l, Prim2SF_valid.
Qed.

Lemma SFdiv_one x :
  SpecFloat.valid_binary prec emax x = true ->
  SFdiv prec emax x (Prim2SF 1) = x.
Proof.
  intros V. change (Prim2SF 1) with (S754_finite false 4503599627370496 (-52)).
  destruct x as [s|s| |s m e]; cbn [SFdiv]; rewrite ?xorb_false_r; try reflexivity.
  pose proof V as V'. cbn [SpecFloat.valid_binary] in V'.
  unfold bounded, canonical_mantissa in V'.
  apply andb_true_iff in V' as [Hc He]. apply Z.eqb_eq in Hc.
  unfold SFdiv_core_binary.
  change (Zdigits2 (Z.pos 4503599627370496)) with 53. cbn [Zdigits2].
  set (d1 := Z.pos (digits2_pos m)) in *.
  set (e' := Z.min (fexp prec emax (d1 + e - (53 + -52))) (e - -52)).
  assert (He' : 52 <= e - -52 - e').
  { subst e'. unfold fexp, SpecFloat.emin, prec, emax in *. lia. }
  assert (Hm : forall z, 52 <= z ->
               match z with
               | Z0 => Z.pos m
               | Zpos _ => Z.shiftl (Z.pos m) z
               | Zneg _ => 0
               end = Z.pos m * 2 ^ (z - 52) * 2 ^ 52).
  { intros z Hz. destruct z as [|p|p]; try lia.
    rewrite Z.shiftl_mul_pow2 by lia.
    rewrite <- Z.mul_assoc, <- Z.pow_add_r by lia.
    now replace (Z.pos p - 52 + 52) with (Z.pos p) by lia. }
  set (s' := e - -52 - e') in *.
  rewrite (Hm s' He'). change (Z.pos 4503599627370496) with (2 ^ 52).
  assert (Q : Z.div_eucl (Z.pos m * 2 ^ (s' - 52) * 2 ^ 52) (2 ^ 52)
              = (Z.pos m * 2 ^ (s' - 52), 0)).
  { rewrite (surjective_pairing (Z.div_eucl _ _)).
    change (fst (Z.div_eucl ?a ?b)) with (a / b).
    change (snd (Z.div_eucl ?a ?b)) with (a mod b).
    now rewrite Z.div_mul, Z.mod_mul by discriminate. }
  rewrite Q. change (new_location (2 ^ 52) 0) with loc_Exact.
  replace e' with (e - (s' - 52)) by (subst s'; lia).
  apply binary_round_aux_exact; [exact V | lia].
Qed.

Lemma div_one x : (x / 1)%float = x.
Proof.
  apply Prim2SF_inj. rewrite div_spec. apply SFdiv_one, Prim2SF_valid.
Qed.

Section FloatFacts.
Local Open Scope float_scope.

(** Adding a zero to [1] gives [1]. *)
Lemma one_add_zero y : (y =? 0) = true -> 1 + y = 1.
Proof.
  rewrite eqb_zero_spec. intros H. apply Prim2SF_inj. rewrite add_spec.
  change (Prim2SF 1) with (S754_finite false 4503599627370496 (-52)).
  destruct (Prim2SF y); cbn in H; try contradiction. reflexivity.
Qed.

(** A zero divided by a number that is neither a zero nor a NaN is a zero. *)
Lemma zero_div n :
  (n =? 0) = false -> IsNaN n = false -> (0 / n =? 0) = true.
Proof.
  intros Hz Hn. rewrite eqb_zero_spec, div_spec.
  assert (Z : ~ SFiszero (Prim2SF n))
    by (rewrite <- eqb_zero_spec; congruence).
  assert (N : Prim2SF n <> S754_nan).
  { intros E. unfold IsNaN, is_nan in Hn.
    rewrite FloatAxioms.eqb_spec, E in Hn. discriminate. }
  change (Prim2SF 0) with (S754_zero false).
  destruct (Prim2SF n); cbn in *; try tauto; try congruence.
Qed.

(** How a value of known sign compares with zero. *)
Lemma atLeast_false_compare k x :
  atLeast false k x -> (x <? 0) = false /\ (x =? 0) = false.
Proof.
  unfold atLeast. rewrite ltb_spec, FloatAxioms.eqb_spec.
  change (Prim2SF 0) with (S754_zero false).
  destruct (Prim2SF x) as [s|s| |s m e]; cbn; try tauto.
  - now intros ->.
  - now intros [-> _].
Qed.

Lemma atLeast_true_compare k x :
  atLeast true k x -> (0 <? x) = false /\ (x =? 0) = false.
Proof.
  unfold atLeast. rewrite ltb_spec, FloatAxioms.eqb_spec.
  change (Prim2SF 0) with (S754_zero false).
  destruct (Prim2SF x) as [s|s| |s m e]; cbn; try tauto.
  - now intros ->.
  - now intros [-> _].
Qed.

(** Adding a positive value to [0] gives that value. *)
Lemma zero_add_atLeast k x : atLeast false k x -> 0 + x = x.
Proof.
  unfold atLeast. intros H. apply Prim2SF_inj. rewrite add_spec.
  change (Prim2SF 0) with (S754_zero false).
  destruct (Prim2SF x) as [s|s| |s m e]; cbn in *; try tauto.
Qed.

(** The sign moves freely between the factors of a product. *)
Lemma mul_opp_comm x y : - x * y = x * - y.
Proof.
  apply Prim2SF_inj. rewrite !mul_spec, !opp_spec.
  destruct (Prim2SF x) as [sx|sx| |sx mx ex], (Prim2SF y) as [sy|sy| |sy my ey];
    cbn [SFopp SFmul]; try reflexivity;
    try (now destruct sx, sy).
Qed.

(** A finite number times zero, added to [1], is [1]. *)
Lemma one_add_mul_zero x y :
  IsFinite x = true -> (y =? 0) = true -> 1 + x * y = 1.
Proof. intros Hx Hy. apply one_add_zero. now apply mul_finite_zero. Qed.

End FloatFacts.

(** *** Small integers *)







End F64.

(** ** Package math

    [math.Exp], [math.Log] and [math.Pow] belong to Go's standard library, not
    to this repository; they have an assembly body on some targets and a
    portable one on others.  The development is parametric in them and relies
    only on the special cases the package documents, together with the two
    exact values [Exp(±0) = 1] and [Log(1) = 0] that every implementation
    returns. *)

Class MathLib := {
  Exp : float -> float;
  Log : float -> float;
  Pow : float -> float -> float;
  (** Pow(x, ±0) = 1 for any x *)
  Pow_y_zero : forall x y, (y =? 0)%float = true -> Pow x y = 1%float;
  (** Pow(1, y) = 1 for any y *)
  Pow_one_y : forall y, Pow 1 y = 1%float;
  (** Pow(x, 1) = x for any x *)
  Pow_x_one : forall x, Pow x 1 = x;
  (** Pow(NaN, y) = NaN *)
  Pow_nan_y : forall y, (y =? 0)%float = false -> Pow nan y = nan;
  (** Pow(x, NaN) = NaN *)
  Pow_x_nan : forall x, (x =? 1)%float = false -> Pow x nan = nan;
  (** Exp(±0) = 1 *)
  Exp_zero : forall x, (x =? 0)%float = true -> Exp x = 1%float;
  (** Exp(NaN) = NaN *)
  Exp_nan : Exp nan = nan;
  (** Log(1) = 0 *)
  Log_one : Log 1 = 0%float;
  (** Log(NaN) = NaN *)
  Log_nan : Log nan = nan
}.

Module GoMath.

Local Open Scope float_scope.

(** The portable bodies of package math that [rate.go] reaches: [exp], [log]
    and [pow] with their helpers, as the Go distribution ships them for
    targets without an assembly version. *)

Definition IsNaN (f : float) : bool := negb (f =? f).
Definition Inf (sign : Z) : float := if (0 <=? sign)%Z then infinity else neg_infinity.
Definition IsInf (f : float) (sign : Z) : bool :=
  ((0 <=? sign)%Z && (f =? infinity)) || ((sign <=? 0)%Z && (f =? neg_infinity)).
Definition Signbit (x : float) : bool := get_sign x.
Definition Abs (x : float) : float := abs x.

(** [int64(f)] for a finite [f]: truncation toward zero. *)
Definition truncZ (f : float) : Z :=
  match Prim2SF f with
  | S754_finite s m e =>
      let v := match e with
               | Zneg p => Z.shiftr (Zpos m) (Zpos p)
               | _ => Z.shiftl (Zpos m) e
               end in
      if s then (- v)%Z else v
  | _ => 0%Z
  end.

(** [float64(k)]: the nearest binary64 value, ties to even. *)
Definition ofZ (k : Z) : float := SF2Prim (binary_normalize prec emax k 0 false).

Definition Frexp (f : float) : float * Z :=
  if (f =? 0) || IsInf f 0 || IsNaN f then (f, 0%Z) else Z.frexp f.

Definition Ldexp (frac : float) (exp : Z) : float := Z.ldexp frac exp.

Definition Modf (f : float) : float * float :=
  let pos (f : float) :=
    if f <? 1 then (if f =? 0 then (f, f) else (0, f))
    else let i := ofZ (truncZ f) in (i, f - i) in
  if f <? 0 then let '(i, fr) := pos (- f) in (- i, - fr) else pos f.

Definition Ln2Hi := 6.93147180369123816490e-01.
Definition Ln2Lo := 1.90821492927058770002e-10.
Definition Log2e := 1.44269504088896338700e+00.

Definition expmulti (hi lo : float) (k : Z) : float :=
  let P1 := 1.66666666666666657415e-01 in
  let P2 := -2.77777777770155933842e-03 in
  let P3 := 6.61375632143793436117e-05 in
  let P4 := -1.65339022054652515390e-06 in
  let P5 := 4.13813679705723846039e-08 in
  let r := hi - lo in
  let t := r * r in
  let c := r - t * (P1 + t * (P2 + t * (P3 + t * (P4 + t * P5)))) in
  let y := 1 - ((lo - (r * c) / (2 - c)) - hi) in
  Ldexp y k.

Definition exp (x : float) : float :=
  let Overflow := 7.09782712893383973096e+02 in
  let Underflow := -7.45133219101941108420e+02 in
  let NearZero := 0x1p-28 in
  if IsNaN x || IsInf x 1 then x
  else if IsInf x (-1) then 0
  else if Overflow <? x then Inf 1
  else if x <? Underflow then 0
  else if (- NearZero <? x) && (x <? NearZero) then 1 + x
  else
    let k := if x <? 0 then truncZ (Log2e * x - 0.5)
             else if 0 <? x then truncZ (Log2e * x + 0.5)
             else 0%Z in
    let hi := x - ofZ k * Ln2Hi in
    let lo := ofZ k * Ln2Lo in
    expmulti hi lo k.

Definition log (x : float) : float :=
  let L1 := 6.666666666666735130e-01 in
  let L2 := 3.999999999940941908e-01 in
  let L3 := 2.857142874366239149e-01 in
  let L4 := 2.222219843214978396e-01 in
  let L5 := 1.818357216161805012e-01 in
  let L6 := 1.531383769920937332e-01 in
  let L7 := 1.479819860511658591e-01 in
  if IsNaN x || IsInf x 1 then x
  else if x <? 0 then nan
  else if x =? 0 then Inf (-1)
  else
    let '(f1, ki) := Frexp x in
    let '(f1, ki) := if f1 <? 0x1.6a09e667f3bcdp-1 then (f1 * 2, (ki - 1)%Z) else (f1, ki) in
    let f := f1 - 1 in
    let k := ofZ ki in
    let s := f / (2 + f) in
    let s2 := s * s in
    let s4 := s2 * s2 in
    let t1 := s2 * (L1 + s4 * (L3 + s4 * (L5 + s4 * L7))) in
    let t2 := s4 * (L2 + s4 * (L4 + s4 * L6)) in
    let R := t1 + t2 in
    let hfsq := 0.5 * f * f in
    k * Ln2Hi - ((hfsq - (s * (hfsq + R) + k * Ln2Lo)) - f).

Definition isOddInt (x : float) : bool :=
  if 0x1p53 <=? Abs x then false
  else let '(xi, xf) := Modf x in (xf =? 0) && Z.odd (truncZ xi).

Fixpoint pow_loop (i : positive) (a1 : float) (ae : Z) (x1 : float) (xe : Z) : float * Z :=
  if (xe <? -4096)%Z || (4096 <? xe)%Z then (a1, (ae + xe)%Z)
  else
    let '(a1, ae) := match i with xO _ => (a1, ae) | _ => (a1 * x1, (ae + xe)%Z) end in
    let x1 := x1 * x1 in
    let xe := (2 * xe)%Z in
    let '(x1, xe) := if x1 <? 0.5 then (x1 + x1, (xe - 1)%Z) else (x1, xe) in
    match i with
    | xH => (a1, ae)
    | xO p | xI p => pow_loop p a1 ae x1 xe
    end.

Definition pow_zero (x y : float) : float :=
  if y <? 0 then (if Signbit x && isOddInt y then (if Signbit x then neg_infinity else infinity) else Inf 1)
  else if 0 <? y then (if Signbit x && isOddInt y then x else 0)
  else nan.

Definition pow (x y : float) : float :=
  if (y =? 0) || (x =? 1) then 1
  else if y =? 1 then x
  else if IsNaN x || IsNaN y then nan
  else if x =? 0 then pow_zero x y
  else if IsInf y 0 then
    (if x =? -1 then 1
     else if Bool.eqb (Abs x <? 1) (IsInf y 1) then 0
     else Inf 1)
  else if IsInf x 0 then
    (if IsInf x (-1) then pow_zero (1 / x) (- y)
     else if y <? 0 then 0 else Inf 1)
  else if y =? 0.5 then sqrt x
  else if y =? -0.5 then 1 / sqrt x
  else
    let '(yi, yf) := Modf (Abs y) in
    if negb (yf =? 0) && (x <? 0) then nan
    else if 0x1p63 <=? yi then
      (if x =? -1 then 1
       else if Bool.eqb (Abs x <? 1) (0 <? y) then 0
       else Inf 1)
    else
      let '(a1, yi) :=
        if negb (yf =? 0) then
          let '(yf, yi) := if 0.5 <? yf then (yf - 1, yi + 1) else (yf, yi) in
          (exp (yf * log x), yi)
        else (1, yi) in
      let '(x1, xe) := Frexp x in
      let '(a1, ae) := match truncZ yi with
                       | Zpos i => pow_loop i a1 0%Z x1 xe
                       | _ => (a1, 0%Z)
                       end in
      let '(a1, ae) := if y <? 0 then (1 / a1, (- ae)%Z) else (a1, ae) in
      Ldexp a1 ae.

Lemma pow_y_zero x y : (y =? 0) = true -> pow x y = 1.
Proof. intros H. unfold pow. now rewrite H. Qed.

Lemma pow_one_y y : pow 1 y = 1.
Proof. unfold pow. change (1 =? 1) with true. now rewrite orb_true_r. Qed.

Lemma pow_x_one x : pow x 1 = x.
Proof.
  unfold pow. change (1 =? 0) with false. change (1 =? 1) with true.
  destruct (x =? 1) eqn:E; simpl; [symmetry; now apply F64.eqb_one_eq | reflexivity].
Qed.

Lemma pow_nan_y y : (y =? 0) = false -> pow nan y = nan.
Proof.
  intros H. unfold pow. rewrite H. change (nan =? 1) with false. simpl.
  destruct (y =? 1); reflexivity.
Qed.

Lemma pow_x_nan x : (x =? 1) = false -> pow x nan = nan.
Proof.
  intros H. unfold pow. rewrite H. change (nan =? 0) with false.
  change (nan =? 1) with false. change (IsNaN nan) with true.
  now rewrite orb_true_r.
Qed.

Lemma exp_zero x : (x =? 0) = true -> exp x = 1.
Proof. intros H. destruct (F64.eqb_zero_cases x H) as [-> | ->]; reflexivity. Qed.

Lemma exp_nan : exp nan = nan.
Proof. vm_compute. reflexivity. Qed.

Lemma log_one : log 1 = 0.
Proof. vm_compute. reflexivity. Qed.

Lemma log_nan : log nan = nan.
Proof. vm_compute. reflexivity. Qed.

End GoMath.

(** The portable bodies meet the documented special cases. *)
#[export] Instance GoMathLib : MathLib := {|
  Exp := GoMath.exp;
  Log := GoMath.log;
  Pow := GoMath.pow;
  Pow_y_zero := GoMath.pow_y_zero;
  Pow_one_y := GoMath.pow_one_y;
  Pow_x_one := GoMath.pow_x_one;
  Pow_nan_y := GoMath.pow_nan_y;
  Pow_x_nan := GoMath.pow_x_nan;
  Exp_zero := GoMath.exp_zero;
  Exp_nan := GoMath.exp_nan;
  Log_one := GoMath.log_one;
  Log_nan := GoMath.log_nan
|}.

(** ** rate.go *)

(** [type Rate interface]: the three methods every rate implements. *)
Class Rate (R : Type) := {
  DiscountFactor : R -> float -> float;
  RateAnnualEffective : R -> float;
  RateContinuous : R -> float
}.

(** [type RateAnnualPercentage struct]: an annual percentage rate compounded
    [PeriodsPerYear] times a year. *)
Module RateAnnualPercentage.
Section WithMath.
Context {M : MathLib}.
Local Open Scope float_scope.

Record t := mk { Value : float; PeriodsPerYear : float }.

(** DiscountFactor = (1 + APR / Periods)^{-Periods * Years} *)
Definition DiscountFactor (r : t) (years : float) : float :=
  Pow (1 + Value r / PeriodsPerYear r) (- PeriodsPerYear r * years).

(** EffectiveAnnualRate = (1 + APR / Periods)^Periods - 1 *)
Definition RateAnnualEffective (r : t) : float :=
  Pow (1 + Value r / PeriodsPerYear r) (PeriodsPerYear r) - 1.

(** ContinuousRate = ln(1 + EffectiveAnnualRate) *)
Definition RateContinuous (r : t) : float :=
  Log (1 + RateAnnualEffective r).

End WithMath.
End RateAnnualPercentage.

(** [type RateEffective struct]: an effective rate per period, with
    [PeriodsPerYear] periods a year. *)
Module RateEffective.
Section WithMath.
Context {M : MathLib}.
Local Open Scope float_scope.

Record t := mk { Value : float; PeriodsPerYear : float }.

(** DiscountFactor = (1 + EffectiveRate)^{-Periods * Years} *)
Definition DiscountFactor (r : t) (years : float) : float :=
  Pow (1 + Value r) (- PeriodsPerYear r * years).

(** EffectiveAnnualRate = (1 + EffectiveRate)^Periods - 1 *)
Definition RateAnnualEffective (r : t) : float :=
  Pow (1 + Value r) (PeriodsPerYear r) - 1.

(** ContinuousRate = ln(1 + EffectiveAnnualRate) *)
Definition RateContinuous (r : t) : float :=
  Log (1 + RateAnnualEffective r).

End WithMath.
End RateEffective.

(** [type RateContinuous struct]: a continuously compounded rate. *)
Module RateContinuous.
Section WithMath.
Context {M : MathLib}.
Local Open Scope float_scope.

Record t := mk { Value : float }.

(** DiscountFactor = e^{ContinuousRate * -Years} *)
Definition DiscountFactor (r : t) (years : float) : float :=
  Exp (Value r * - years).

(** EffectiveAnnualRate = e^ContinuousRate - 1 *)
Definition RateAnnualEffective (r : t) : float :=
  Exp (Value r) - 1.

(** ContinuousRate = ContinuousRate *)
Definition RateContinuous (r : t) : float := Value r.

End WithMath.
End RateContinuous.

#[export] Instance RateAnnualPercentage_Rate {M : MathLib} : Rate RateAnnualPercentage.t :=
  {| DiscountFactor := RateAnnualPercentage.DiscountFactor;
     RateAnnualEffective := RateAnnualPercentage.RateAnnualEffective;
     RateContinuous := RateAnnualPercentage.RateContinuous |}.

#[export] Instance RateEffective_Rate {M : MathLib} : Rate RateEffective.t :=
  {| DiscountFactor := RateEffective.DiscountFactor;
     RateAnnualEffective := RateEffective.RateAnnualEffective;
     RateContinuous := RateEffective.RateContinuous |}.

#[export] Instance RateContinuous_Rate {M : MathLib} : Rate RateContinuous.t :=
  {| DiscountFactor := RateContinuous.DiscountFactor;
     RateAnnualEffective := RateContinuous.RateAnnualEffective;
     RateContinuous := RateContinuous.RateContinuous |}.

(** ** rate.go, the earlier draft

    The package keeps an earlier draft of the rates in [rate.go]: its
    continuous rate has the field [R], and it has a simple rate that the
    later draft drops. *)

Module RateDraft.
Section WithMath.
Context {M : MathLib}.
Local Open Scope float_scope.

(** [type RateContinuous struct { R float64 }]. *)
Record RateContinuous := mkRateContinuous { RateContinuous_R : float }.

Definition RateContinuous_RateAnnualEffective (c : RateContinuous) : float :=
  Exp (RateContinuous_R c) - 1.

Definition RateContinuous_RateAnnualNominal (c : RateContinuous) : float :=
  RateContinuous_RateAnnualEffective c.

Definition RateContinuous_RateContinuous (c : RateContinuous) : float :=
  RateContinuous_R c.

Definition RateContinuous_DiscountFactor (c : RateContinuous) (t : float)
  : float :=
  Exp (- RateContinuous_R c * t).

(** [type RateSimple struct { R float64 }]. *)
Record RateSimple := mkRateSimple { RateSimple_R : float }.

Definition RateSimple_RateAnnualEffective (s : RateSimple) : float :=
  RateSimple_R s.

Definition RateSimple_RateAnnualNominal (s : RateSimple) : float :=
  RateSimple_R s.

Definition RateSimple_RateContinuous (s : RateSimple) : float :=
  Log (1 + RateSimple_R s).

Definition RateSimple_DiscountFactor (s : RateSimple) (t : float) : float :=
  1 / (1 + RateSimple_R s * t).

End WithMath.
End RateDraft.

(** ** Discount factors at zero years *)

Section ZeroYears.
Context {M : MathLib}.
Local Open Scope float_scope.

Lemma IsFinite_false_spec x : F64.IsFinite x = false <-> ~ F64.SFfinite (Prim2SF x).
Proof.
  rewrite <- F64.IsFinite_spec. destruct (F64.IsFinite x); split; intros; congruence.
Qed.

(** [(-n) * 0] is a zero whenever [n] is finite. *)
Lemma neg_periods_mul_zero n :
  F64.IsFinite n = true -> (- n * 0 =? 0) = true.
Proof.
  intros Hn. apply F64.mul_finite_zero; [now rewrite F64.IsFinite_opp | reflexivity].
Qed.

Lemma RateAnnualPercentage_DiscountFactor_zero (r : RateAnnualPercentage.t) :
  F64.IsFinite (RateAnnualPercentage.PeriodsPerYear r) = true ->
  DiscountFactor r 0 = 1.
Proof.
  intros Hn. cbn. unfold RateAnnualPercentage.DiscountFactor.
  apply Pow_y_zero, neg_periods_mul_zero, Hn.
Qed.

Lemma RateEffective_DiscountFactor_zero (r : RateEffective.t) :
  F64.IsFinite (RateEffective.PeriodsPerYear r) = true ->
  DiscountFactor r 0 = 1.
Proof.
  intros Hn. cbn. unfold RateEffective.DiscountFactor.
  apply Pow_y_zero, neg_periods_mul_zero, Hn.
Qed.

Lemma RateContinuous_DiscountFactor_zero (r : RateContinuous.t) :
  F64.IsFinite (RateContinuous.Value r) = true ->
  DiscountFactor r 0 = 1.
Proof.
  intros Hv. cbn. unfold RateContinuous.DiscountFactor.
  apply Exp_zero, F64.mul_finite_zero; [exact Hv | reflexivity].
Qed.

(** What the three variants return at zero years when the parameter is an
    infinity or a NaN: the exponent [-n * 0] is then NaN. *)
Lemma DiscountFactor_zero_special :
  DiscountFactor (RateAnnualPercentage.mk 0.05 nan) 0 = nan /\
  DiscountFactor (RateEffective.mk 0.02 infinity) 0 = nan /\
  DiscountFactor (RateContinuous.mk infinity) 0 = nan.
Proof.
  cbn. unfold RateAnnualPercentage.DiscountFactor, RateEffective.DiscountFactor,
    RateContinuous.DiscountFactor. cbn.
  repeat split.
  - change (1 + 0.05 / nan) with nan. change (- nan * 0) with nan.
    now apply Pow_nan_y.
  - change (- infinity * 0) with nan. now apply Pow_x_nan.
  - change (infinity * - 0) with nan. apply Exp_nan.
Qed.

End ZeroYears.

(** ** Zero compounding periods *)

Section ZeroPeriods.
Context {M : MathLib}.
Local Open Scope float_scope.

Lemma neg_zero_mul_finite years :
  F64.IsFinite years = true -> (- 0 * years =? 0) = true.
Proof. intros Hy. apply F64.mul_zero_finite; [reflexivity | exact Hy]. Qed.

Lemma RateEffective_zero_periods (v : float) :
  (forall years, F64.IsFinite years = true ->
     DiscountFactor (RateEffective.mk v 0) years = 1) /\
  RateAnnualEffective (RateEffective.mk v 0) = 0 /\
  RateContinuous (RateEffective.mk v 0) = 0.
Proof.
  cbn. unfold RateEffective.RateContinuous, RateEffective.RateAnnualEffective,
    RateEffective.DiscountFactor. cbn.
  assert (E : Pow (1 + v) 0 = 1) by now apply Pow_y_zero.
  rewrite E. repeat split.
  - intros years Hy. apply Pow_y_zero, neg_zero_mul_finite, Hy.
  - change (1 + (1 - 1)) with 1. apply Log_one.
Qed.

Lemma RateAnnualPercentage_zero_periods (v : float) :
  (forall years, F64.IsFinite years = true ->
     DiscountFactor (RateAnnualPercentage.mk v 0) years = 1) /\
  RateAnnualEffective (RateAnnualPercentage.mk v 0) = 0 /\
  RateContinuous (RateAnnualPercentage.mk v 0) = 0.
Proof.
  cbn. unfold RateAnnualPercentage.RateContinuous,
    RateAnnualPercentage.RateAnnualEffective,
    RateAnnualPercentage.DiscountFactor. cbn.
  assert (E : Pow (1 + v / 0) 0 = 1) by now apply Pow_y_zero.
  rewrite E. repeat split.
  - intros years Hy. apply Pow_y_zero, neg_zero_mul_finite, Hy.
  - change (1 + (1 - 1)) with 1. apply Log_one.
Qed.

Lemma div_zero_not_finite v : F64.IsFinite (v / 0) = false.
Proof.
  apply IsFinite_false_spec. rewrite div_spec.
  change (Prim2SF 0) with (S754_zero false).
  destruct (Prim2SF v) as [s|s| |s m e]; cbn; tauto.
Qed.

Lemma RateEffective_zero_periods_infinity :
  DiscountFactor (RateEffective.mk 0.02 0) infinity = nan.
Proof.
  cbn. unfold RateEffective.DiscountFactor. cbn.
  change (- 0 * infinity) with nan. now apply Pow_x_nan.
Qed.

End ZeroPeriods.

(** ** Package time

    [time.Time] and [time.Duration] belong to Go's standard library.  A
    cash-flow date is always in UTC, so an instant is modelled by its
    nanosecond count since 0001-01-01T00:00:00Z in the proleptic Gregorian
    calendar, as an unbounded integer; a [Duration] is a 64-bit nanosecond
    count, and [Sub] saturates as the package documents. *)

Module Time.

Definition Time := Z.
Definition Duration := Z.

Definition Nanosecond : Duration := 1.
Definition Second : Duration := 1000000000.
Definition Minute : Duration := 60 * Second.
Definition Hour : Duration := 60 * Minute.
Definition nsPerDay : Z := 24 * Hour.

Definition minDuration : Duration := - 2 ^ 63.
Definition maxDuration : Duration := 2 ^ 63 - 1.

Definition Equal (t u : Time) : bool := t =? u.
Definition Before (t u : Time) : bool := t <? u.
Definition After (t u : Time) : bool := u <? t.

(** [t.Sub(u)]: the duration [t - u], clamped to the range of [Duration]. *)
Definition Sub (t u : Time) : Duration :=
  let d := t - u in
  if d <? minDuration then minDuration
  else if maxDuration <? d then maxDuration
  else d.

(** [float64(n)] for a 64-bit integer [n]: the nearest binary64 value. *)
Definition float64 (n : Z) : float :=
  match n with
  | Z0 => 0%float
  | Zpos _ => of_uint63 (Uint63.of_Z n)
  | Zneg p => (- of_uint63 (Uint63.of_Z (Zpos p)))%float
  end.

(** [d.Hours()]. *)
Definition Hours (d : Duration) : float :=
  let hour := Z.quot d Hour in
  let nsec := Z.rem d Hour in
  (float64 hour + float64 nsec / (60 * 60 * 1e9))%float.

(** *** The civil calendar *)

Definition isLeap (year : Z) : bool :=
  (year mod 4 =? 0) && (negb (year mod 100 =? 0) || (year mod 400 =? 0)).

(** Days from 0001-01-01 to the first of January of [year]. *)
Definition daysBeforeYear (year : Z) : Z :=
  let y := year - 1 in
  365 * y + y / 4 - y / 100 + y / 400.

(** Days of a non-leap year before the first of month [m] (1 to 13). *)
Definition daysBefore (m : Z) : Z :=
  match m with
  | 1 => 0 | 2 => 31 | 3 => 59 | 4 => 90 | 5 => 120 | 6 => 151
  | 7 => 181 | 8 => 212 | 9 => 243 | 10 => 273 | 11 => 304 | 12 => 334
  | _ => 365
  end.

(** Day count of a civil date; a month out of range carries into the year
    and a day out of range into the following months, as [time.Date] does. *)
Definition daysFromCivil (year month day : Z) : Z :=
  let year := year + (month - 1) / 12 in
  let month := (month - 1) mod 12 + 1 in
  daysBeforeYear year + daysBefore month
  + (if isLeap year && (3 <=? month) then 1 else 0)
  + (day - 1).

(** [time.Date(year, month, day, hour, min, sec, nsec, time.UTC)]. *)
Definition Date (year month day hour min sec nsec : Z) : Time :=
  ((daysFromCivil year month day * 24 + hour) * 60 + min) * 60 * Second
  + sec * Second + nsec.

(** The year and the day within it (from 0) of a day count. *)
Definition yearOfDays (d : Z) : Z * Z :=
  let n400 := d / 146097 in
  let d := d - 146097 * n400 in
  let n100 := d / 36524 in
  let n100 := n100 - n100 / 4 in
  let d := d - 36524 * n100 in
  let n4 := d / 1461 in
  let d := d - 1461 * n4 in
  let n1 := d / 365 in
  let n1 := n1 - n1 / 4 in
  let d := d - 365 * n1 in
  (400 * n400 + 100 * n100 + 4 * n4 + n1 + 1, d).

(** Month and day of the month of day [yday] (from 0) of a year. *)
Definition monthDay (leap : bool) (yday : Z) : Z * Z :=
  if leap && (yday =? 31 + 29 - 1) then (2, 29)
  else
    let day := if leap && (31 + 29 - 1 <? yday) then yday - 1 else yday in
    let month := day / 31 in
    let e := daysBefore (month + 2) in
    if e <=? day then (month + 2, day - e + 1)
    else (month + 1, day - daysBefore (month + 1) + 1).

(** [t.Date()]. *)
Definition civil (t : Time) : Z * Z * Z :=
  let '(year, yday) := yearOfDays (t / nsPerDay) in
  let '(month, day) := monthDay (isLeap year) yday in
  (year, month, day).

Definition Year (t : Time) : Z := fst (fst (civil t)).

(** [t.AddDate(years, months, days)]: the same clock reading on the civil
    date moved by the three amounts, normalised as [Date] does. *)
Definition AddDate (t : Time) (years months days : Z) : Time :=
  let '(year, month, day) := civil t in
  let tod := t mod nsPerDay in
  Date (year + years) (month + months) (day + days)
       (tod / Hour) (tod mod Hour / Minute) (tod mod Minute / Second)
       (tod mod Second).

(** *** Calendar arithmetic *)

Local Ltac divlia := Z.div_mod_to_equations; lia.

Lemma isLeap_cases y :
  (isLeap y = true /\ y mod 4 = 0 /\ (y mod 100 <> 0 \/ y mod 400 = 0)) \/
  (isLeap y = false /\ (y mod 4 <> 0 \/ (y mod 100 = 0 /\ y mod 400 <> 0))).
Proof.
  unfold isLeap.
  destruct (Z.eqb_spec (y mod 4) 0), (Z.eqb_spec (y mod 100) 0),
    (Z.eqb_spec (y mod 400) 0); cbn; intuition lia.
Qed.

Lemma daysBeforeYear_succ y :
  daysBeforeYear (y + 1) = daysBeforeYear y + 365 + (if isLeap y then 1 else 0).
Proof.
  unfold daysBeforeYear.
  destruct (isLeap_cases y) as [(-> & H4 & H)|(-> & H)]; divlia.
Qed.

Lemma yearOfDays_spec d :
  let '(y, yd) := yearOfDays d in
  daysBeforeYear y + yd = d /\ 0 <= yd < 365 + (if isLeap y then 1 else 0).
Proof.
  unfold yearOfDays, daysBeforeYear.
  set (n400 := d / 146097). set (d1 := d - 146097 * n400).
  set (q100 := d1 / 36524). set (n100 := q100 - q100 / 4).
  set (d2 := d1 - 36524 * n100).
  set (n4 := d2 / 1461). set (d3 := d2 - 1461 * n4).
  set (q1 := d3 / 365). set (n1 := q1 - q1 / 4).
  set (d4 := d3 - 365 * n1).
  assert (H1 : 0 <= d1 < 146097) by (subst d1 n400; divlia).
  assert (Hq100 : 0 <= q100 <= 4) by (subst q100; divlia).
  assert (Hn100 : 0 <= n100 <= 3 /\ (q100 = 4 -> n100 = 3) /\ (q100 < 4 -> n100 = q100)) by (subst n100; divlia).
  assert (H2 : 0 <= d2 < 36524 \/ (n100 = 3 /\ d2 = 36524)) by (subst d2 q100; divlia).
  assert (Hn4 : 0 <= n4 <= 24) by (subst n4; divlia).
  assert (H3 : 0 <= d3 < 1461) by (subst d3 n4; divlia).
  assert (Hq1 : 0 <= q1 <= 4) by (subst q1; divlia).
  assert (Hn1 : 0 <= n1 <= 3 /\ (q1 = 4 -> n1 = 3) /\ (q1 < 4 -> n1 = q1)) by (subst n1; divlia).
  assert (H4 : 0 <= d4 < 365 \/ (n1 = 3 /\ d4 = 365)) by (subst d4 q1; divlia).
  set (y := 400 * n400 + 100 * n100 + 4 * n4 + n1 + 1).
  assert (Hy400 : (y - 1) / 400 = n400) by (subst y; divlia).
  assert (Hy100 : (y - 1) / 100 = 4 * n400 + n100) by (subst y; divlia).
  assert (Hy4 : (y - 1) / 4 = 100 * n400 + 25 * n100 + n4) by (subst y; divlia).
  rewrite Hy400, Hy100, Hy4.
  split; [subst y d4 d3 d2 d1; lia|].
  destruct (isLeap_cases y) as [(-> & L4 & L)|(-> & L)].
  - lia.
  - assert (n1 = 3 -> y mod 4 = 0) by (subst y; divlia).
    assert (n1 = 3 -> d4 = 365 -> y mod 100 = 0 -> n4 = 24) by (intros; subst y; divlia).
    assert (n1 = 3 -> n4 = 24 -> y mod 100 = 0 -> y mod 400 <> 0 -> n100 < 3) by (intros; subst y; divlia).
    assert (n1 = 3 -> d4 = 365 -> n4 = 24 -> n100 < 3 -> False).
    { intros. subst d4 d3. clearbody d2 n1 n4 n100 y. lia. }
    lia.
Qed.


(** The month table inverts on every day of a year, checked day by day. *)
Definition monthDay_ok (leap : bool) (yd : nat) : bool :=
  let '(m, dd) := monthDay leap (Z.of_nat yd) in
  (1 <=? m) && (m <=? 12) && (1 <=? dd) && (dd <=? 31) &&
  (daysBefore m + (if leap && (3 <=? m) then 1 else 0) + (dd - 1) =? Z.of_nat yd).

Lemma monthDay_ok_all (leap : bool) :
  forallb (monthDay_ok leap) (seq 0 (if leap then 366 else 365)) = true.
Proof. destruct leap; vm_compute; reflexivity. Qed.

Lemma monthDay_spec (leap : bool) (yd : Z) :
  0 <= yd < 365 + (if leap then 1 else 0) ->
  let '(m, dd) := monthDay leap yd in
  1 <= m <= 12 /\ 1 <= dd <= 31 /\
  daysBefore m + (if leap && (3 <=? m) then 1 else 0) + (dd - 1) = yd.
Proof.
  intros H.
  pose proof (monthDay_ok_all leap) as A.
  rewrite forallb_forall in A.
  specialize (A (Z.to_nat yd)).
  unfold monthDay_ok in A. rewrite Z2Nat.id in A by lia.
  destruct (monthDay leap yd) as [m dd].
  rewrite !andb_true_iff, !Z.leb_le, Z.eqb_eq in A.
  assert (I : In (Z.to_nat yd) (seq 0 (if leap then 366%nat else 365%nat)))
    by (apply in_seq; destruct leap; lia).
  specialize (A I). tauto.
Qed.

Lemma daysFromCivil_month (y m d : Z) :
  1 <= m <= 12 ->
  daysFromCivil y m d =
  daysBeforeYear y + daysBefore m
  + (if isLeap y && (3 <=? m) then 1 else 0) + (d - 1).
Proof.
  intros Hm. unfold daysFromCivil.
  replace ((m - 1) / 12) with 0 by (Z.div_mod_to_equations; lia).
  replace ((m - 1) mod 12 + 1) with m by (Z.div_mod_to_equations; lia).
  now rewrite Z.add_0_r.
Qed.

Lemma civil_spec t :
  let '(y, m, d) := civil t in
  1 <= m <= 12 /\ 1 <= d <= 31 /\ daysFromCivil y m d = t / nsPerDay.
Proof.
  unfold civil.
  pose proof (yearOfDays_spec (t / nsPerDay)) as Y.
  destruct (yearOfDays (t / nsPerDay)) as [y yd]. destruct Y as [Y1 Y2].
  pose proof (monthDay_spec (isLeap y) yd Y2) as MD.
  destruct (monthDay (isLeap y) yd) as [m d]. destruct MD as (Hm & Hd & E).
  split; [exact Hm|]. split; [exact Hd|].
  rewrite daysFromCivil_month by exact Hm. lia.
Qed.

(** The same month and day one year on: 365 or 366 days later. *)
Lemma daysFromCivil_next_year (y m d : Z) :
  1 <= m <= 12 ->
  365 <= daysFromCivil (y + 1) m d - daysFromCivil y m d <= 366.
Proof.
  intros Hm. rewrite !daysFromCivil_month by exact Hm.
  rewrite daysBeforeYear_succ.
  destruct (isLeap_cases y) as [(-> & L4 & L)|(-> & L)];
    destruct (isLeap_cases (y + 1)) as [(-> & M4 & M)|(-> & M)];
    destruct (3 <=? m); cbn [andb]; lia.
Qed.

(** A clock reading splits into hours, minutes, seconds and nanoseconds. *)
Lemma clock_recompose (tod : Z) :
  ((tod / Hour) * 60 + tod mod Hour / Minute) * 60 * Second
  + tod mod Minute / Second * Second + tod mod Second = tod.
Proof. unfold Hour, Minute, Second. Z.div_mod_to_equations. lia. Qed.

(** One calendar year later is 365 or 366 days later. *)
Lemma AddDate_one_year t :
  t + 365 * nsPerDay <= AddDate t 1 0 0 <= t + 366 * nsPerDay.
Proof.
  unfold AddDate.
  pose proof (civil_spec t) as C.
  destruct (civil t) as [[y m] d]. destruct C as (Hm & Hd & E).
  pose proof (daysFromCivil_next_year y m d Hm) as D.
  unfold Date. rewrite !Z.add_0_r.
  pose proof (clock_recompose (t mod nsPerDay)) as Hrec.
  pose proof (Z.div_mod t nsPerDay ltac:(discriminate)) as Ht.
  rewrite <- E in Ht.
  set (tod := t mod nsPerDay) in *.
  set (d1 := daysFromCivil (y + 1) m d) in *.
  set (d0 := daysFromCivil y m d) in *.
  set (h := tod / Hour) in *. set (mi := tod mod Hour / Minute) in *.
  set (s := tod mod Minute / Second) in *. set (ns := tod mod Second) in *.
  clearbody tod d1 d0 h mi s ns.
  change nsPerDay with (24 * 60 * 60 * Second) in *.
  set (S := Second) in *. assert (0 < S) by reflexivity. clearbody S.
  nia.
Qed.

(** *** More of package time *)

Definition Millisecond : Duration := 1000000.

(** [t.Add(d)]. *)
Definition Add (t : Time) (d : Duration) : Time := t + d.

(** [t.Truncate(d)]: [t] rounded down to a multiple of [d] since the zero
    time; [t] itself when [d <= 0]. *)
Definition Truncate (t : Time) (d : Duration) : Time :=
  if d <=? 0 then t else t - t mod d.

Definition monthDay_end_ok (leap : bool) (yd : nat) : bool :=
  let '(m, dd) := monthDay leap (Z.of_nat yd) in
  Z.of_nat yd <? daysBefore (m + 1) + (if leap && (3 <=? m + 1) then 1 else 0).

Lemma monthDay_end_ok_all (leap : bool) :
  forallb (monthDay_end_ok leap) (seq 0 (if leap then 366 else 365)) = true.
Proof. destruct leap; vm_compute; reflexivity. Qed.

(** A day of the year falls before the first day of the next month. *)
Lemma monthDay_end (leap : bool) (yd : Z) :
  0 <= yd < 365 + (if leap then 1 else 0) ->
  yd < daysBefore (fst (monthDay leap yd) + 1)
       + (if leap && (3 <=? fst (monthDay leap yd) + 1) then 1 else 0).
Proof.
  intros H. pose proof (monthDay_end_ok_all leap) as A.
  rewrite forallb_forall in A. specialize (A (Z.to_nat yd)).
  unfold monthDay_end_ok in A. rewrite Z2Nat.id in A by lia.
  destruct (monthDay leap yd) as [m dd]. cbn [fst].
  apply Z.ltb_lt, A, in_seq. destruct leap; lia.
Qed.

Lemma Date_clock y m d h mi s ns :
  Date y m d h mi s ns
  = daysFromCivil y m d * nsPerDay + h * Hour + mi * Minute + s * Second + ns.
Proof. unfold Date, nsPerDay, Hour, Minute, Second. lia. Qed.

(** The day count of the day before the first of the next month. *)
Lemma daysFromCivil_month_end y m :
  1 <= m <= 12 ->
  daysFromCivil y (m + 1) 0
  = daysBeforeYear y + daysBefore (m + 1)
    + (if isLeap y && (3 <=? m + 1) then 1 else 0) - 1.
Proof.
  intros Hm. destruct (Z.eq_dec m 12) as [->|Hne].
  - unfold daysFromCivil. change ((12 + 1 - 1) / 12) with 1.
    change ((12 + 1 - 1) mod 12 + 1) with 1. change (daysBefore 1) with 0.
    change (daysBefore (12 + 1)) with 365. change (3 <=? 12 + 1) with true.
    change (3 <=? 1) with false. rewrite andb_false_r, andb_true_r.
    rewrite daysBeforeYear_succ. destruct (isLeap y); lia.
  - rewrite daysFromCivil_month by lia. lia.
Qed.

(** A month has 28 to 31 days. *)
Lemma month_length (leap : bool) m :
  1 <= m <= 12 ->
  28 <= daysBefore (m + 1) + (if leap && (3 <=? m + 1) then 1 else 0)
        - (daysBefore m + (if leap && (3 <=? m) then 1 else 0)) <= 31.
Proof.
  intros Hm.
  assert (m = 1 \/ m = 2 \/ m = 3 \/ m = 4 \/ m = 5 \/ m = 6 \/ m = 7 \/
          m = 8 \/ m = 9 \/ m = 10 \/ m = 11 \/ m = 12) as Cs by lia.
  destruct leap;
    repeat (destruct Cs as [->|Cs]; [vm_compute; split; discriminate|]);
    subst; vm_compute; split; discriminate.
Qed.

(** The civil date of an instant, with the year and the month that hold
    its day. *)
Lemma civil_bounds t :
  let '(y, m, d) := civil t in
  1 <= m <= 12 /\ daysFromCivil y m d = t / nsPerDay /\
  daysBeforeYear y <= t / nsPerDay < daysBeforeYear (y + 1) /\
  daysFromCivil y m 1 <= t / nsPerDay <= daysFromCivil y (m + 1) 0.
Proof.
  unfold civil.
  pose proof (yearOfDays_spec (t / nsPerDay)) as Y.
  destruct (yearOfDays (t / nsPerDay)) as [y yd]. destruct Y as [Y1 Y2].
  pose proof (monthDay_spec (isLeap y) yd Y2) as MD.
  pose proof (monthDay_end (isLeap y) yd Y2) as ME.
  destruct (monthDay (isLeap y) yd) as [m d]. cbn [fst] in ME.
  destruct MD as (Hm & Hd & E).
  split; [exact Hm|].
  rewrite daysFromCivil_month_end, !daysFromCivil_month, daysBeforeYear_succ
    by exact Hm.
  repeat split; lia.
Qed.

Lemma Sub_small t u :
  0 <= t - u <= maxDuration -> Sub t u = t - u.
Proof.
  intros H. unfold Sub.
  destruct (Z.ltb_spec (t - u) minDuration) as [L|L];
    [unfold minDuration in L; lia|].
  now destruct (Z.ltb_spec maxDuration (t - u)); [lia|].
Qed.

End Time.

(** ** cash_flow.go *)

(** [type CashFlow struct]: a dated amount, positive for an inflow. *)
Record CashFlow := mkCashFlow { Value : float; Date : Time.Time }.

(** [daysInYear]: the number of days of year [y]; [%] is Go's remainder. *)
Definition daysInYear (y : Z) : Z :=
  if ((Z.rem y 4 =? 0) && negb (Z.rem y 100 =? 0)) || (Z.rem y 400 =? 0)
  then 366 else 365.

(** The whole-year loop of [yearsBetween]: while one more calendar year does
    not pass [b], count it and move [a].  [fuel] bounds the iterations;
    [None] is a run the bound cuts short. *)
Fixpoint wholeYears (fuel : nat) (a b : Time.Time) (fullYears : float)
  : option (Time.Time * float) :=
  match fuel with
  | O => None
  | S fuel =>
      let next := Time.AddDate a 1 0 0 in
      if negb (Time.After next b)
      then wholeYears fuel next b (fullYears + 1)%float
      else Some (a, fullYears)
  end.

(** [yearsBetween] with the loop bounded by [fuel]. *)
Definition yearsBetweenFuel (fuel : nat) (a b : Time.Time) : option float :=
  if Time.Equal a b then Some 0%float
  else
    let '(a, b, sign) :=
      if Time.Before b a then (b, a, (-1)%float) else (a, b, 1%float) in
    match wholeYears fuel a b 0%float with
    | None => None
    | Some (a, fullYears) =>
        if Time.Equal a b then Some (sign * fullYears)%float
        else
          let yearLen := daysInYear (Time.Year a) in
          let remDays := (Time.Hours (Time.Sub b a) / 24)%float in
          let frac := (remDays / Time.float64 yearLen)%float in
          Some (sign * (fullYears + frac))%float
    end.

(** Iterations that suffice for the loop: every step moves [a] by at least
    365 days. *)
Definition yearsFuel (a b : Time.Time) : nat :=
  Z.to_nat (Z.abs (b - a) / (365 * Time.nsPerDay)) + 1.

(** [yearsBetween]: full calendar years first, then the rest as a fraction of
    the length of the year [a] has reached. *)
Definition yearsBetween (a b : Time.Time) : float :=
  match yearsBetweenFuel (yearsFuel a b) a b with
  | Some years => years
  | None => nan
  end.

(** [CashFlow.YearsFrom]. *)
Definition YearsFrom (cf : CashFlow) (valuationDate : Time.Time) : float :=
  yearsBetween valuationDate (Date cf).

(** [CashFlow.PresentValue]. *)
Definition PresentValue {R} `{Rate R} (cf : CashFlow) (r : R)
    (valuationDate : Time.Time) : float :=
  let years := YearsFrom cf valuationDate in
  (Value cf * DiscountFactor r years)%float.

(** *** Slices and the store

    A [CashFlows] value is a slice: a reference to a backing array that the
    callee shares with its caller.  The store maps an array's address to its
    elements; a computation threads the store and may stop with a run-time
    panic ([None]).  No function of this package reslices, so a slice is
    identified with its whole array. *)

Abbreviation loc := positive.
Abbreviation CashFlows := loc.
Abbreviation heap := (gmap loc (list CashFlow)).
Definition Go (A : Type) : Type := heap -> option (A * heap).

Definition ret {A} (a : A) : Go A := fun h => Some (a, h).
Definition bind {A B} (m : Go A) (k : A -> Go B) : Go B :=
  fun h => match m h with Some (a, h') => k a h' | None => None end.
Definition panic {A} : Go A := fun _ => None.

Notation "'let*' x := m 'in' k" := (bind m (fun x => k))
  (at level 10, x pattern, m at level 100, k at level 200).

(** The elements of the array behind slice [p]. *)
Definition contents (p : loc) : Go (list CashFlow) :=
  fun h => match h !! p with Some l => Some (l, h) | None => None end.

Definition store (p : loc) (l : list CashFlow) : Go unit :=
  fun h => Some (tt, <[p := l]> h).

(** [len(p)]. *)
Definition len (p : loc) : Go nat :=
  let* l := contents p in ret (length l).

(** [p[i]]; an index out of range panics. *)
Definition index (p : loc) (i : nat) : Go CashFlow :=
  let* l := contents p in
  match l !! i with Some cf => ret cf | None => panic end.

(** The zero [CashFlow]: value [0] at the zero [time.Time]. *)
Definition zeroCashFlow : CashFlow := mkCashFlow 0%float 0.

(** [make(CashFlows, n)]: a fresh array of [n] zero values. *)
Definition make (n : nat) : Go loc :=
  fun h => let p := fresh (dom h) in
           Some (p, <[p := replicate n zeroCashFlow]> h).

(** [copy(dst, src)]: overwrites the first [min(len(dst), len(src))]
    elements of [dst]. *)
Definition copy (dst src : loc) : Go nat :=
  let* s := contents src in
  let* d := contents dst in
  let n := Nat.min (length d) (length s) in
  let* _ := store dst (take n s ++ drop n d) in
  ret n.

(** *** Package sort

    [sort.Slice] belongs to Go's standard library.  It sorts the array in
    place with the caller's [less]; the result, as a function of the
    elements, is a parameter of the development.  Its documentation promises
    a sorted rearrangement when [less] is a strict weak order, and says that
    the sort is not guaranteed to be stable. *)
Class SliceSorter :=
  sortSlice : (CashFlow -> CashFlow -> bool) -> list CashFlow -> list CashFlow.

(** What [less] must be: irreflexive, transitive, and with a transitive
    incomparability. *)
Definition StrictWeakOrder {A} (less : A -> A -> bool) : Prop :=
  (forall x, less x x = false) /\
  (forall x y z, less x y = true -> less y z = true -> less x z = true) /\
  (forall x y z, less x y = false -> less y z = false -> less x z = false).

(** Sorted for [less]: no element is less than an earlier one. *)
Definition Ascending {A} (less : A -> A -> bool) (l : list A) : Prop :=
  forall (i j : nat) (x y : A),
    (i < j)%nat -> l !! i = Some x -> l !! j = Some y -> less y x = false.

(** The documented contract of [sort.Slice]. *)
Class SliceSorterSpec (S : SliceSorter) : Prop := {
  sortSlice_Permutation : forall less l, sortSlice less l ≡ₚ l;
  sortSlice_Ascending : forall less l,
    StrictWeakOrder less -> Ascending less (sortSlice less l)
}.

(** *** The body of [sort.Slice]

    The pattern-defeating quicksort of package sort ([pdqsort_func] and its
    helpers), over the elements of the array and the caller's [less].  An
    index is a [nat]; a loop whose trip count is not fixed takes [fuel] and
    returns [None] when it runs out. *)

Module GoSort.
Section WithLess.
Context {A : Type} `{Inhabited A} (less : A -> A -> bool).
Local Open Scope nat_scope.

(** [data.Less(i, j)] and [data.Swap(i, j)]. *)
Definition Less (data : list A) (i j : nat) : bool :=
  less (data !!! i) (data !!! j).
Definition Swap (data : list A) (i j : nat) : list A :=
  <[i := data !!! j]> (<[j := data !!! i]> data).

(** [for j := i; j > a && data.Less(j, j-1); j-- { data.Swap(j, j-1) }] *)
Fixpoint insertDown (data : list A) (a j : nat) : list A :=
  match j with
  | O => data
  | S j' =>
      if (a <? j) && Less data j j' then insertDown (Swap data j j') a j'
      else data
  end.

(** [for i := ...; i < b; i++] running [n] times from [i]. *)
Fixpoint insertionSortFrom (n : nat) (data : list A) (a i : nat) : list A :=
  match n with
  | O => data
  | S n => insertionSortFrom n (insertDown data a i) a (S i)
  end.

(** [insertionSortLessFunc]: sorts [data[a:b]] by insertion. *)
Definition insertionSort (data : list A) (a b : nat) : list A :=
  insertionSortFrom (b - (a + 1)) data a (a + 1).

(** [siftDownLessFunc]. *)
Fixpoint siftDown (fuel : nat) (data : list A) (root hi first : nat)
  : option (list A) :=
  match fuel with
  | O => None
  | S fuel =>
      let child := 2 * root + 1 in
      if hi <=? child then Some data
      else
        let child :=
          if (child + 1 <? hi) && Less data (first + child) (first + child + 1)
          then child + 1 else child in
        if negb (Less data (first + root) (first + child)) then Some data
        else siftDown fuel (Swap data (first + root) (first + child))
                      child hi first
  end.

(** [for i := k; i >= 0; i--] building the heap. *)
Fixpoint heapify (k : nat) (data : list A) (hi first : nat) : option (list A) :=
  data ← siftDown (S hi) data k hi first;
  match k with
  | O => Some data
  | S k => heapify k data hi first
  end.

(** [for i := k; i >= 0; i--] popping the largest element to the end. *)
Fixpoint heapPop (k : nat) (data : list A) (first : nat) : option (list A) :=
  let data := Swap data first (first + k) in
  data ← siftDown (S k) data 0 k first;
  match k with
  | O => Some data
  | S k => heapPop k data first
  end.

(** [heapSortLessFunc]. *)
Definition heapSort (data : list A) (a b : nat) : option (list A) :=
  let first := a in
  let hi := b - a in
  match hi with
  | O => Some data
  | S hi' =>
      data ← heapify (hi' / 2) data hi first;
      heapPop hi' data first
  end.

Inductive sortedHint := unknownHint | increasingHint | decreasingHint.

(** [order2LessFunc]: the two indices in order, counting a swap. *)
Definition order2 (data : list A) (a b swaps : nat) : nat * nat * nat :=
  if Less data b a then (b, a, S swaps) else (a, b, swaps).

(** [medianLessFunc]. *)
Definition median (data : list A) (a b c swaps : nat) : nat * nat :=
  let '(a, b, swaps) := order2 data a b swaps in
  let '(b, c, swaps) := order2 data b c swaps in
  let '(a, b, swaps) := order2 data a b swaps in
  (b, swaps).

(** [medianAdjacentLessFunc]. *)
Definition medianAdjacent (data : list A) (a swaps : nat) : nat * nat :=
  median data (a - 1) a (a + 1) swaps.

(** [choosePivotLessFunc]. *)
Definition choosePivot (data : list A) (a b : nat) : nat * sortedHint :=
  let shortestNinther := 50 in
  let maxSwaps := 4 * 3 in
  let l := b - a in
  let swaps := 0 in
  let i := a + l / 4 * 1 in
  let j := a + l / 4 * 2 in
  let k := a + l / 4 * 3 in
  let '(j, swaps) :=
    if 8 <=? l then
      let '(i, j, k, swaps) :=
        if shortestNinther <=? l then
          let '(i, swaps) := medianAdjacent data i swaps in
          let '(j, swaps) := medianAdjacent data j swaps in
          let '(k, swaps) := medianAdjacent data k swaps in
          (i, j, k, swaps)
        else (i, j, k, swaps) in
      median data i j k swaps
    else (j, swaps) in
  if swaps =? 0 then (j, increasingHint)
  else if swaps =? maxSwaps then (j, decreasingHint)
  else (j, unknownHint).

(** [reverseRangeLessFunc]: [for i < j { Swap(i, j); i++; j-- }]. *)
Fixpoint reverseFrom (fuel : nat) (data : list A) (i j : nat) : list A :=
  match fuel with
  | O => data
  | S fuel =>
      if i <? j then reverseFrom fuel (Swap data i j) (S i) (j - 1) else data
  end.
Definition reverseRange (data : list A) (a b : nat) : list A :=
  reverseFrom (b - a) data a (b - 1).

(** [for i <= j && data.Less(i, a) { i++ }] and its three siblings; [test]
    is the loop's condition on the moving index. *)
Fixpoint scanUp (fuel : nat) (test : nat -> bool) (i j : nat) : nat :=
  match fuel with
  | O => i
  | S fuel => if (i <=? j) && test i then scanUp fuel test (S i) j else i
  end.
Fixpoint scanDown (fuel : nat) (test : nat -> bool) (i j : nat) : nat :=
  match fuel with
  | O => j
  | S fuel => if (i <=? j) && test j then scanDown fuel test i (j - 1) else j
  end.

(** The main loop of [partitionLessFunc]. *)
Fixpoint partitionLoop (fuel : nat) (data : list A) (a i j : nat)
  : option (list A * nat) :=
  match fuel with
  | O => None
  | S fuel =>
      let i := scanUp (S j) (fun i => Less data i a) i j in
      let j := scanDown (S j) (fun j => negb (Less data j a)) i j in
      if j <? i then Some (data, j)
      else partitionLoop fuel (Swap data i j) a (S i) (j - 1)
  end.

(** [partitionLessFunc]: splits [data[a:b]] around the element at [pivot];
    returns the pivot's final index and whether the range was already
    partitioned. *)
Definition partition (data : list A) (a b pivot : nat)
  : option (list A * nat * bool) :=
  let data := Swap data a pivot in
  let i := a + 1 in
  let j := b - 1 in
  let i := scanUp (S j) (fun i => Less data i a) i j in
  let j := scanDown (S j) (fun j => negb (Less data j a)) i j in
  if j <? i then Some (Swap data j a, j, true)
  else
    let data := Swap data i j in
    '(data, j) ← partitionLoop (S j) data a (S i) (j - 1);
    Some (Swap data j a, j, false).

(** The loop of [partitionEqualLessFunc]. *)
Fixpoint partitionEqualLoop (fuel : nat) (data : list A) (a i j : nat)
  : option (list A * nat) :=
  match fuel with
  | O => None
  | S fuel =>
      let i := scanUp (S j) (fun i => negb (Less data a i)) i j in
      let j := scanDown (S j) (fun j => Less data a j) i j in
      if j <? i then Some (data, i)
      else partitionEqualLoop fuel (Swap data i j) a (S i) (j - 1)
  end.

(** [partitionEqualLessFunc]: splits [data[a:b]] into the elements equal to
    the pivot and those greater. *)
Definition partitionEqual (data : list A) (a b pivot : nat)
  : option (list A * nat) :=
  let data := Swap data a pivot in
  partitionEqualLoop (S b) data a (a + 1) (b - 1).

(** [for j := i - 1; j >= 1; j--]: shifts the smaller element left. *)
Fixpoint shiftLeft (data : list A) (j : nat) : list A :=
  match j with
  | O => data
  | S j' => if negb (Less data j j') then data else shiftLeft (Swap data j j') j'
  end.

(** [for j := i + 1; j < b; j++]: shifts the greater element right. *)
Fixpoint shiftRight (n : nat) (data : list A) (j : nat) : list A :=
  match n with
  | O => data
  | S n =>
      if negb (Less data j (j - 1)) then data
      else shiftRight n (Swap data j (j - 1)) (S j)
  end.

(** [partialInsertionSortLessFunc]: [steps] is what remains of [maxSteps]. *)
Fixpoint partialInsertionSortFrom (steps : nat) (data : list A) (a b i : nat)
  : list A * bool :=
  let shortestShifting := 50 in
  match steps with
  | O => (data, false)
  | S steps =>
      let i := scanUp b (fun i => negb (Less data i (i - 1))) i (b - 1) in
      if i =? b then (data, true)
      else if b - a <? shortestShifting then (data, false)
      else
        let data := Swap data i (i - 1) in
        let data := if 2 <=? i - a then shiftLeft data (i - 1) else data in
        let data :=
          if 2 <=? b - i then shiftRight (b - (i + 1)) data (i + 1) else data in
        partialInsertionSortFrom steps data a b i
  end.
Definition partialInsertionSort (data : list A) (a b : nat) : list A * bool :=
  partialInsertionSortFrom 5 data a b (a + 1).

(** [bits.Len]. *)
Definition bitsLen (x : nat) : nat :=
  match x with O => 0 | _ => S (Nat.log2 x) end.

(** [xorshift.Next] on a 64-bit word. *)
Definition xorshiftNext (r : Z) : Z :=
  let w := (2 ^ 64)%Z in
  let r := Z.lxor r (Z.shiftl r 13 mod w) in
  let r := Z.lxor r (Z.shiftr r 7) in
  let r := Z.lxor r (Z.shiftl r 17 mod w) in
  r.

(** [breakPatternsLessFunc]: scatters three elements to defeat a pattern. *)
Definition breakPatterns (data : list A) (a b : nat) : list A :=
  let length := b - a in
  if 8 <=? length then
    let modulus := (2 ^ Z.of_nat (bitsLen length))%Z in
    let idx := a + (length / 4) * 2 - 1 in
    let step (st : list A * Z) (i : nat) : list A * Z :=
      let '(data, random) := st in
      let random := xorshiftNext random in
      let other := Z.to_nat (Z.land random (modulus - 1)) in
      let other := if length <=? other then other - length else other in
      (Swap data (idx - 1 + i) (a + other), random) in
    fst (foldl step (data, Z.of_nat length) [0; 1; 2])
  else data.

(** [pdqsortLessFunc]: sorts [data[a:b]]; [limit] is the number of bad
    pivots allowed before the fall back to heapsort. *)
Fixpoint pdqsort (fuel : nat) (data : list A) (a b limit : nat)
    (wasBalanced wasPartitioned : bool) : option (list A) :=
  match fuel with
  | O => None
  | S fuel =>
      let maxInsertion := 12 in
      let length := b - a in
      if length <=? maxInsertion then Some (insertionSort data a b)
      else if limit =? 0 then heapSort data a b
      else
        let '(data, limit) :=
          if negb wasBalanced then (breakPatterns data a b, limit - 1)
          else (data, limit) in
        let '(pivot, hint) := choosePivot data a b in
        let '(data, pivot, hint) :=
          match hint with
          | decreasingHint =>
              (reverseRange data a b, (b - 1) - (pivot - a), increasingHint)
          | _ => (data, pivot, hint)
          end in
        let '(data, done) :=
          match hint with
          | increasingHint =>
              if wasBalanced && wasPartitioned
              then partialInsertionSort data a b
              else (data, false)
          | _ => (data, false)
          end in
        if done then Some data
        else if (0 <? a) && negb (Less data (a - 1) pivot) then
          '(data, mid) ← partitionEqual data a b pivot;
          pdqsort fuel data mid b limit wasBalanced wasPartitioned
        else
          '(data, mid, alreadyPartitioned) ← partition data a b pivot;
          let wasPartitioned := alreadyPartitioned in
          let leftLen := mid - a in
          let rightLen := b - mid in
          let balanceThreshold := length / 8 in
          if leftLen <? rightLen then
            let wasBalanced := balanceThreshold <=? leftLen in
            data ← pdqsort fuel data a mid limit true true;
            pdqsort fuel data (mid + 1) b limit wasBalanced wasPartitioned
          else
            let wasBalanced := balanceThreshold <=? rightLen in
            data ← pdqsort fuel data (mid + 1) b limit true true;
            pdqsort fuel data a mid limit wasBalanced wasPartitioned
  end.

(** [sort.Slice(x, less)]. *)
Definition Slice (x : list A) : option (list A) :=
  let length := List.length x in
  let limit := bitsLen length in
  pdqsort (S length) x 0 length limit true true.

End WithLess.
End GoSort.


#[export] Instance CashFlow_inhabited : Inhabited CashFlow :=
  populate zeroCashFlow.

(** [sort.Slice] as the Go distribution implements it. *)
Definition pdqSorter : SliceSorter :=
  fun less l => default l (GoSort.Slice less l).

(** The order of [CashFlows.Sort]: [cfs[i].Date.Before(cfs[j].Date)]. *)
Definition lessDate (x y : CashFlow) : bool := Time.Before (Date x) (Date y).

(** [CashFlows.Sort]: orders the cash-flows in place by ascending date. *)
Definition Sort {S : SliceSorter} (cfs : CashFlows) : Go unit :=
  let* l := contents cfs in
  store cfs (sortSlice lessDate l).

(** The loop of [NPV] over the elements of the slice. *)
Fixpoint NPV_loop {R} `{Rate R} (r : R) (valuationDate : Time.Time)
  (cfs : list CashFlow) (npv : float) : float :=
  match cfs with
  | [] => npv
  | cf :: cfs =>
      NPV_loop r valuationDate cfs (npv + PresentValue cf r valuationDate)%float
  end.

(** [CashFlows.NPV]. *)
Definition NPV {R} `{Rate R} (cfs : CashFlows) (r : R)
    (valuationDate : Time.Time) : Go float :=
  let* l := contents cfs in
  ret (NPV_loop r valuationDate l 0%float).

(** Go's [error] values that [IRR] builds: [errors.New(msg)] and
    [fmt.Errorf(prefix + "%w", err)]. *)
Inductive error : Type :=
  | errors_New (msg : string)
  | fmt_Errorf_w (prefix : string) (err : error).

(** [rootfinding.Brent] of github.com/khezen/rootfinding: called with the
    function, a bracket and a precision, it returns a root or an error. *)
Class RootFinder :=
  Brent : (float -> float) -> float -> float -> Z -> float * option error.

(** Modelled from the spec: [cash_flow.go] names the continuous variant
    [RateAnnualContinuous], whose declaration is not among the sources; it
    is the spec's [Continuous{value}] with discount factor [e^(-v*t)], that
    is [rate.go]'s [RateContinuous]. *)
Module RateAnnualContinuous.
Definition t := RateContinuous.t.
Definition mk (Value : float) : t := RateContinuous.mk Value.
Definition Value (r : t) : float := RateContinuous.Value r.
End RateAnnualContinuous.

#[export] Instance RateAnnualContinuous_Rate {M : MathLib} : Rate RateAnnualContinuous.t :=
  RateContinuous_Rate.

(** The bracket expansion of [IRR]: while the two values have the same sign
    and the upper rate is below 1000, double the upper rate.  [fuel] bounds
    the iterations. *)
Fixpoint expandBracket (fuel : nat) (npv : float -> float)
    (npvLowerBound upperBoundRate npvUpperBound : float)
  : option (float * float) :=
  match fuel with
  | O => None
  | S fuel =>
      if ((0 <? npvLowerBound * npvUpperBound) && (upperBoundRate <? 1000))%float
      then
        let upperBoundRate := (upperBoundRate * 2)%float in
        expandBracket fuel npv npvLowerBound upperBoundRate (npv upperBoundRate)
      else Some (upperBoundRate, npvUpperBound)
  end.

(** Doublings after which [0.10] has passed 1000, and one more test. *)
Definition bracketFuel : nat := 15.

Definition errEmpty : error := errors_New "IRR requires at least one cash-flow".
Definition errBracket : error := errors_New "IRR: could not bracket a root".

(** The search of [IRR] once the sorted copy is made: bracket a root of
    the NPV at [anchor], then refine it with Brent's method. *)
Definition IRR_search {M : MathLib} {B : RootFinder}
    (anchor : Time.Time) (ordered : list CashFlow)
  : option (RateAnnualContinuous.t * option error) :=
  let npv := fun r : float =>
    NPV_loop (RateAnnualContinuous.mk r) anchor ordered 0%float in
  let lowerBoundRate := (-0.999999)%float in
  let upperBoundRate := 0.10%float in
  let npvLowerBound := npv lowerBoundRate in
  let npvUpperBound := npv upperBoundRate in
  match expandBracket bracketFuel npv npvLowerBound upperBoundRate
          npvUpperBound with
  | None => None
  | Some (upperBoundRate, npvUpperBound) =>
      if (0 <? npvLowerBound * npvUpperBound)%float
      then Some (RateAnnualContinuous.mk 0, Some errBracket)
      else
        match Brent npv lowerBoundRate upperBoundRate 12 with
        | (_, Some err) =>
            Some (RateAnnualContinuous.mk 0, Some (fmt_Errorf_w "IRR: " err))
        | (root, None) => Some (RateAnnualContinuous.mk root, None)
        end
  end.

(** [CashFlows.IRR]: works on a sorted copy so that the caller's slice
    remains untouched; the first cash-flow of the copy is the anchor. *)
Definition IRR {M : MathLib} {S : SliceSorter} {B : RootFinder}
    (cashFlows : CashFlows) : Go (RateAnnualContinuous.t * option error) :=
  let* n := len cashFlows in
  if (n =? 0)%nat then ret (RateAnnualContinuous.mk 0, Some errEmpty)
  else
    let* ordered := make n in
    let* _ := copy ordered cashFlows in
    let* _ := Sort ordered in
    let* first := index ordered 0 in
    let anchor := Date first in
    let* sorted := contents ordered in
    match IRR_search anchor sorted with
    | Some result => ret result
    | None => panic
    end.

(** ** time.go *)

(** [type resolution int]: the granularity of the parsed input. *)
Inductive resolution :=
  yearRes | monthRes | dayRes | hourRes | minuteRes | secondRes | milliRes.

(** [type resolutionToLayouts struct]. *)
Record resolutionToLayouts := mkResolutionToLayouts {
  resolutionOf : resolution;
  layouts : list string
}.

(** [var sliceResolutionToLayouts]: the supported layouts, finest first. *)
Definition sliceResolutionToLayouts : list resolutionToLayouts :=
  [ mkResolutionToLayouts milliRes
      [ "2006-01-02 15:04:05.000"; "2006/01/02 15:04:05.000";
        "2006.01.02 15:04:05.000" ];
    mkResolutionToLayouts secondRes
      [ "2006-01-02 15:04:05"; "2006/01/02 15:04:05"; "2006.01.02 15:04:05" ];
    mkResolutionToLayouts minuteRes
      [ "2006-01-02 15:04"; "2006/01/02 15:04"; "2006.01.02 15:04" ];
    mkResolutionToLayouts hourRes
      [ "2006-01-02 15"; "2006/01/02 15"; "2006.01.02 15" ];
    mkResolutionToLayouts dayRes
      [ "2006-01-02"; "2006/01/02"; "2006.01.02" ];
    mkResolutionToLayouts monthRes
      [ "2006-01"; "2006/01"; "2006.01" ];
    mkResolutionToLayouts yearRes [ "2006" ] ]%string.

(** [midOfStartEnd]: [start.Add(end.Sub(start) / 2)]; the division is Go's,
    towards zero. *)
Definition midOfStartEnd (start end_ : Time.Time) : Time.Time :=
  Time.Add start (Z.quot (Time.Sub end_ start) 2).

(** [time.ParseInLocation(layout, value, time.UTC)] of Go's standard
    library: the instant read, or [None] for an error. *)
Class TimeParser := ParseInLocation : string -> string -> option Time.Time.

(** The bounds of the period of [timeParsed] at a resolution: the [start]
    and [end] of the [switch] of [parseStringToMidTime]. *)
Definition periodOf (res : resolution) (timeParsed : Time.Time)
  : Time.Time * Time.Time :=
  match res with
  | yearRes =>
      let y := Time.Year timeParsed in
      (Time.Date y 1 1 0 0 0 0, Time.Date y 12 31 23 59 59 999999999)
  | monthRes =>
      let '(y, m, _) := Time.civil timeParsed in
      (Time.Date y m 1 0 0 0 0, Time.Date y (m + 1) 0 23 59 59 999999999)
  | dayRes =>
      let '(y, m, d) := Time.civil timeParsed in
      let start := Time.Date y m d 0 0 0 0 in
      (start, Time.Add start (24 * Time.Hour - Time.Nanosecond))
  | hourRes =>
      let start := Time.Truncate timeParsed Time.Hour in
      (start, Time.Add start (Time.Hour - Time.Nanosecond))
  | minuteRes =>
      let start := Time.Truncate timeParsed Time.Minute in
      (start, Time.Add start (Time.Minute - Time.Nanosecond))
  | secondRes =>
      let start := Time.Truncate timeParsed Time.Second in
      (start, Time.Add start (Time.Second - Time.Nanosecond))
  | milliRes =>
      let start := Time.Truncate timeParsed Time.Millisecond in
      (start, Time.Add start (Time.Millisecond - Time.Nanosecond))
  end.

Section Parse.
Context {P : TimeParser}.

(** The inner loop of [parseStringToMidTime]: the first layout of the
    resolution that reads the input gives the middle of its period. *)
Fixpoint parseLayouts (res : resolution) (ls : list string) (input : string)
  : option Time.Time :=
  match ls with
  | [] => None
  | layout :: ls =>
      match ParseInLocation layout input with
      | Some timeParsed =>
          let '(start, end_) := periodOf res timeParsed in
          Some (midOfStartEnd start end_)
      | None => parseLayouts res ls input
      end
  end.

(** The outer loop, over the resolutions. *)
Fixpoint parseResolutions (rs : list resolutionToLayouts) (input : string)
  : option Time.Time :=
  match rs with
  | [] => None
  | r :: rs =>
      match parseLayouts (resolutionOf r) (layouts r) input with
      | Some mid => Some mid
      | None => parseResolutions rs input
      end
  end.

(** [parseStringToMidTime]: the middle of the period that [input] names. *)
Definition parseStringToMidTime (input : string) : Time.Time * option error :=
  match parseResolutions sliceResolutionToLayouts input with
  | Some mid => (mid, None)
  | None => (0, Some (errors_New ("unsupported time format: " ++ input)))
  end.

(** [StringToTime]: the middle of one period, or the middle between the
    middles of two. *)
Definition StringToTime (periods : list string) : Time.Time * option error :=
  match periods with
  | [p] =>
      match parseStringToMidTime p with
      | (_, Some err) => (0, Some err)
      | (mid, None) => (mid, None)
      end
  | [p1; p2] =>
      match parseStringToMidTime p1 with
      | (_, Some err1) => (0, Some err1)
      | (mid1, None) =>
          match parseStringToMidTime p2 with
          | (_, Some err2) => (0, Some err2)
          | (mid2, None) =>
              if Time.Before mid1 mid2 then (midOfStartEnd mid1 mid2, None)
              else (midOfStartEnd mid2 mid1, None)
          end
      end
  | _ => (0, Some (errors_New "StringToTime requires 1 or 2 period strings"))
  end.

(** [NewCashFlow]: a cash-flow of [value] at the instant [timeStr] names. *)
Definition NewCashFlow (value : float) (timeStr : list string)
  : CashFlow * option error :=
  match StringToTime timeStr with
  | (_, Some err) => (zeroCashFlow, Some err)
  | (date, None) => (mkCashFlow value date, None)
  end.

End Parse.

(** ** Year fractions *)

Section YearsBetween.
Import Time.

Lemma float64_nonneg n : 0 <= n -> F64.nonneg (float64 n).
Proof.
  intros H. destruct n as [|p|p]; [exact I| |lia].
  apply F64.nonneg_of_uint63.
Qed.

Lemma Hours_nonneg d : 0 <= d -> F64.nonneg (Hours d).
Proof.
  intros H. unfold Hours. apply F64.nonneg_add.
  - apply float64_nonneg, Z.quot_pos; [exact H | reflexivity].
  - eapply F64.nonneg_div; [vm_compute; reflexivity|].
    apply float64_nonneg, Z.rem_nonneg; [now intros [=] | exact H].
Qed.

Lemma float64_daysInYear_finite y :
  exists m e, Prim2SF (float64 (daysInYear y)) = S754_finite false m e.
Proof.
  unfold daysInYear. destruct (_ || _); vm_compute; eauto.
Qed.

(** The loop of [yearsBetween] stops: with enough fuel it returns the last
    instant [a'] at whole years from [a] and not after [b], and the count. *)
Lemma wholeYears_enough fuel : forall a b fy,
  a <= b -> (b - a) / (365 * nsPerDay) < Z.of_nat fuel -> F64.nonneg fy ->
  exists a' fy',
    wholeYears fuel a b fy = Some (a', fy') /\
    a <= a' <= b /\ b < AddDate a' 1 0 0 /\ F64.nonneg fy'.
Proof.
  induction fuel as [|fuel IH]; intros a b fy Hab Hf Hfy.
  - exfalso. assert (0 <= (b - a) / (365 * nsPerDay))
      by (apply Z.div_pos; [lia | reflexivity]). lia.
  - cbn [wholeYears]. pose proof (AddDate_one_year a) as Y.
    unfold After. destruct (Z.ltb_spec b (AddDate a 1 0 0)) as [L|L]; cbn [negb].
    + exists a, fy. repeat split; auto; lia.
    + destruct (IH (AddDate a 1 0 0) b (fy + 1)%float) as (a' & fy' & E & R & N & P).
      * exact L.
      * assert ((b - AddDate a 1 0 0) / (365 * nsPerDay)
                <= (b - a - 365 * nsPerDay) / (365 * nsPerDay))
          by (apply Z.div_le_mono; [reflexivity | lia]).
        replace (b - a - 365 * nsPerDay) with (b - a + (-1) * (365 * nsPerDay)) in H by ring.
        rewrite Z.div_add in H by discriminate. lia.
      * apply F64.nonneg_add; [exact Hfy | exact I].
      * exists a', fy'. repeat split; auto; lia.
Qed.

Lemma yearsFuel_enough a b :
  a <= b -> (b - a) / (365 * nsPerDay) < Z.of_nat (yearsFuel a b).
Proof.
  intros H. unfold yearsFuel. rewrite Z.abs_eq by lia.
  assert (0 <= (b - a) / (365 * nsPerDay)) by (apply Z.div_pos; [lia | reflexivity]).
  lia.
Qed.

Lemma yearsFuel_sym a b : yearsFuel a b = yearsFuel b a.
Proof. unfold yearsFuel. f_equal. f_equal. f_equal. lia. Qed.


(** The years from [a] forward to a later [b]: the value [yearsBetween]
    multiplies by its sign. *)
Definition yearsForward (a b : Time) : float :=
  match wholeYears (yearsFuel a b) a b 0%float with
  | None => nan
  | Some (a, fullYears) =>
      if Equal a b then fullYears
      else (fullYears +
            Hours (Sub b a) / 24 / float64 (daysInYear (Year a)))%float
  end.

Lemma yearsBetweenFuel_lt a b :
  a < b -> yearsBetweenFuel (yearsFuel a b) a b = Some (1 * yearsForward a b)%float.
Proof.
  intros H. unfold yearsBetweenFuel, yearsForward, Equal, Before.
  destruct (Z.eqb_spec a b); [lia|]. destruct (Z.ltb_spec b a); [lia|].
  destruct (wholeYears_enough (yearsFuel a b) a b 0%float) as (a' & fy & -> & _);
    [lia | apply yearsFuel_enough; lia | exact I |].
  destruct (a' =? b); reflexivity.
Qed.

Lemma yearsBetweenFuel_gt a b :
  a < b -> yearsBetweenFuel (yearsFuel b a) b a = Some (-1 * yearsForward a b)%float.
Proof.
  intros H. unfold yearsBetweenFuel, yearsForward, Equal, Before.
  rewrite (yearsFuel_sym b a).
  destruct (Z.eqb_spec b a); [lia|]. destruct (Z.ltb_spec a b); [|lia].
  destruct (wholeYears_enough (yearsFuel a b) a b 0%float) as (a' & fy & -> & _);
    [lia | apply yearsFuel_enough; lia | exact I |].
  destruct (a' =? b); reflexivity.
Qed.

Lemma yearsForward_nonneg a b : a < b -> F64.nonneg (yearsForward a b).
Proof.
  intros H. unfold yearsForward.
  destruct (wholeYears_enough (yearsFuel a b) a b 0%float)
    as (a' & fy & -> & R & N & P);
    [lia | apply yearsFuel_enough; lia | exact I |].
  unfold Equal. destruct (Z.eqb_spec a' b); [exact P|].
  apply F64.nonneg_add; [exact P|].
  destruct (float64_daysInYear_finite (Year a')) as (m & e & E).
  eapply F64.nonneg_div; [exact E|].
  eapply F64.nonneg_div; [vm_compute; reflexivity|].
  apply Hours_nonneg. unfold Sub.
  destruct (Z.ltb_spec (b - a') minDuration) as [L1|L1];
    [unfold minDuration in L1; lia|].
  destruct (Z.ltb_spec maxDuration (b - a')); [unfold maxDuration; lia | lia].
Qed.

Lemma yearsBetween_eq a : yearsBetween a a = 0%float.
Proof.
  unfold yearsBetween, yearsBetweenFuel, Equal. now rewrite Z.eqb_refl.
Qed.

Lemma yearsBetween_lt a b :
  a < b -> yearsBetween a b = (1 * yearsForward a b)%float.
Proof. intros H. unfold yearsBetween. now rewrite yearsBetweenFuel_lt. Qed.

Lemma yearsBetween_gt a b :
  a < b -> yearsBetween b a = (-1 * yearsForward a b)%float.
Proof. intros H. unfold yearsBetween. now rewrite yearsBetweenFuel_gt. Qed.


End YearsBetween.

(** ** The sign of a year fraction *)

Section YearsSign.
Import Time F64.

Lemma float64_atLeast n : 0 < n < 2 ^ 63 -> atLeast false 1 (float64 n).
Proof.
  intros H. destruct n as [|p|p]; try lia. cbn [float64].
  apply atLeast_of_uint63. rewrite Uint63.of_Z_spec.
  rewrite Z.mod_small; [lia|]. change Uint63.wB with (2 ^ 63). lia.
Qed.

Lemma float64_daysInYear_mag y :
  exists m e, Prim2SF (float64 (daysInYear y)) = S754_finite false m e /\
              Z.pos (digits2_pos m) + e = 9.
Proof.
  unfold daysInYear. destruct (_ || _); vm_compute; eauto.
Qed.

Lemma Hours_atLeast d :
  0 < d <= maxDuration -> atLeast false (-41) (Hours d).
Proof.
  intros H. unfold Hours.
  assert (HH : 0 < Hour) by reflexivity.
  pose proof (Z.quot_pos d Hour ltac:(lia) HH) as Q.
  pose proof (Z.rem_bound_pos d Hour ltac:(lia) HH) as R.
  pose proof (Z.quot_rem' d Hour) as E.
  assert (HB : Hour < 2 ^ 63) by reflexivity.
  assert (MB : maxDuration < 2 ^ 63) by reflexivity.
  destruct (Z.eq_dec (Z.rem d Hour) 0) as [Z0|NZ].
  - apply atLeast_add_l; [lia| |].
    + apply (atLeast_weaken _ 1); [lia|]. apply float64_atLeast.
      assert (Z.quot d Hour <= d) by (apply Z.quot_le_upper_bound; nia).
      nia.
    + eapply F64.nonneg_div; [vm_compute; reflexivity|].
      apply float64_nonneg. lia.
  - apply atLeast_add_r; [lia|apply float64_nonneg, Q|].
    eapply (atLeast_div 1); [vm_compute; reflexivity|vm_compute; reflexivity|lia|].
    apply float64_atLeast. lia.
Qed.

(** The count of whole years is at least one once the loop has moved. *)
Lemma wholeYears_count fuel : forall a b fy a' fy',
  F64.nonneg fy ->
  wholeYears fuel a b fy = Some (a', fy') ->
  (a' = a /\ fy' = fy) \/ (a < a' /\ atLeast false 1 fy').
Proof.
  induction fuel as [|fuel IH]; intros a b fy a' fy' Hfy E; [discriminate|].
  cbn [wholeYears] in E. pose proof (AddDate_one_year a) as Y.
  assert (0 < nsPerDay) by reflexivity.
  destruct (negb (After (AddDate a 1 0 0) b)).
  - right.
    assert (P : atLeast false 1 (fy + 1)%float)
      by (apply atLeast_add_r; [lia | exact Hfy | vm_compute; split; [reflexivity | discriminate]]).
    destruct (IH _ _ _ _ _ (atLeast_nonneg _ _ P) E) as [[-> ->]|[L Q]].
    + split; [lia | exact P].
    + split; [lia | exact Q].
  - left. now injection E as <- <-.
Qed.

(** The years forward to a later instant are positive: the fraction of a
    year is [2^-56] at least. *)
Lemma yearsForward_atLeast a b : a < b -> atLeast false (-55) (yearsForward a b).
Proof.
  intros H. unfold yearsForward.
  destruct (wholeYears_enough (yearsFuel a b) a b 0%float)
    as (a' & fy & E & R & N & P);
    [lia | apply yearsFuel_enough; lia | exact I |].
  rewrite E. unfold Equal. destruct (Z.eqb_spec a' b) as [->|Hne].
  - destruct (wholeYears_count _ a b 0%float b fy I E) as [[-> _]|[_ Q]]; [lia|].
    apply (atLeast_weaken _ 1); [lia | exact Q].
  - apply atLeast_add_r; [lia | exact P |].
    destruct (float64_daysInYear_mag (Year a')) as (m & e & Em & Dm).
    eapply (atLeast_div (-46)); [exact Em | rewrite Dm; reflexivity | lia |].
    eapply (atLeast_div (-41)); [vm_compute; reflexivity | vm_compute; reflexivity | lia |].
    apply Hours_atLeast. unfold Sub.
    destruct (Z.ltb_spec (b - a') minDuration) as [L1|L1];
      [unfold minDuration in L1; lia|].
    destruct (Z.ltb_spec maxDuration (b - a'));
      [unfold maxDuration; lia | lia].
Qed.

(** [yearsBetween] is positive towards a later instant and negative towards
    an earlier one. *)
Lemma yearsBetween_pos a b : a < b -> (0 <? yearsBetween a b)%float = true.
Proof.
  intros H. rewrite (yearsBetween_lt a b H).
  apply (atLeast_pos (-55)).
  eapply (atLeast_mul false (-55) (-55) false);
    [vm_compute; reflexivity | vm_compute; reflexivity | lia |].
  apply yearsForward_atLeast, H.
Qed.

Lemma yearsBetween_neg a b : b < a -> (yearsBetween a b <? 0)%float = true.
Proof.
  intros H. rewrite (yearsBetween_gt b a H).
  apply (atLeast_neg (-55)).
  eapply (atLeast_mul false (-55) (-55) true);
    [vm_compute; reflexivity | vm_compute; reflexivity | lia |].
  apply yearsForward_atLeast, H.
Qed.

End YearsSign.

(** ** A rate of zero *)

Section ZeroRate.
Context {M : MathLib}.
Local Open Scope float_scope.

Lemma RateEffective_zero_rate (n : float) :
  (forall years, DiscountFactor (RateEffective.mk 0 n) years = 1) /\
  RateAnnualEffective (RateEffective.mk 0 n) = 0 /\
  RateContinuous (RateEffective.mk 0 n) = 0.
Proof.
  cbn. unfold RateEffective.RateContinuous, RateEffective.RateAnnualEffective,
    RateEffective.DiscountFactor. cbn.
  change (1 + 0) with 1. rewrite !Pow_one_y. change (1 + (1 - 1)) with 1.
  repeat split; [intros; apply Pow_one_y | apply Log_one].
Qed.

Lemma RateAnnualPercentage_zero_rate (n : float) :
  (n =? 0) = false -> F64.IsNaN n = false ->
  (forall years, DiscountFactor (RateAnnualPercentage.mk 0 n) years = 1) /\
  RateAnnualEffective (RateAnnualPercentage.mk 0 n) = 0 /\
  RateContinuous (RateAnnualPercentage.mk 0 n) = 0.
Proof.
  intros Hz Hn. cbn.
  unfold RateAnnualPercentage.RateContinuous,
    RateAnnualPercentage.RateAnnualEffective,
    RateAnnualPercentage.DiscountFactor. cbn.
  rewrite (F64.one_add_zero _ (F64.zero_div n Hz Hn)), !Pow_one_y.
  change (1 + (1 - 1)) with 1.
  repeat split; [intros; apply Pow_one_y | apply Log_one].
Qed.

Lemma RateContinuous_zero_rate :
  (forall years, F64.IsFinite years = true ->
     DiscountFactor (RateContinuous.mk 0) years = 1) /\
  RateAnnualEffective (RateContinuous.mk 0) = 0 /\
  RateContinuous (RateContinuous.mk 0) = 0.
Proof.
  cbn. unfold RateContinuous.RateAnnualEffective, RateContinuous.DiscountFactor.
  cbn. rewrite (Exp_zero 0 eq_refl). repeat split.
  intros years Hy. apply Exp_zero, F64.mul_zero_finite; [reflexivity|].
  now rewrite F64.IsFinite_opp.
Qed.

(** An annual percentage rate compounded once a year and an effective annual
    rate of the same value are one rate. *)
Lemma annual_rates_agree (v : float) :
  (forall years,
     DiscountFactor (RateAnnualPercentage.mk v 1) years
     = DiscountFactor (RateEffective.mk v 1) years) /\
  RateAnnualEffective (RateAnnualPercentage.mk v 1)
  = RateAnnualEffective (RateEffective.mk v 1) /\
  RateContinuous (RateAnnualPercentage.mk v 1)
  = RateContinuous (RateEffective.mk v 1) /\
  RateAnnualEffective (RateEffective.mk v 1) = 1 + v - 1.
Proof.
  cbn. unfold RateAnnualPercentage.RateContinuous,
    RateAnnualPercentage.RateAnnualEffective,
    RateAnnualPercentage.DiscountFactor, RateEffective.RateContinuous,
    RateEffective.RateAnnualEffective, RateEffective.DiscountFactor. cbn.
  rewrite F64.div_one, Pow_x_one. repeat split.
Qed.

End ZeroRate.

(** ** Flows at the valuation date *)

Section AtValuationDate.
Context {R : Type} `{Rate R}.

Lemma PresentValue_at_date (cf : CashFlow) (r : R) :
  DiscountFactor r 0 = 1%float -> PresentValue cf r (Date cf) = Value cf.
Proof.
  intros D. unfold PresentValue, YearsFrom. rewrite yearsBetween_eq, D.
  apply F64.mul_one_r.
Qed.

Lemma NPV_loop_at_date (r : R) (t : Time.Time) (l : list CashFlow) :
  DiscountFactor r 0 = 1%float ->
  Forall (fun cf => Date cf = t) l ->
  forall npv, NPV_loop r t l npv
              = fold_left (fun npv cf => (npv + Value cf)%float) l npv.
Proof.
  intros D F. induction F as [|cf l E F IH]; intros npv; [reflexivity|].
  cbn [NPV_loop fold_left].
  assert (P : PresentValue cf r t = Value cf)
    by (rewrite <- E; apply PresentValue_at_date, D).
  rewrite P. apply IH.
Qed.

End AtValuationDate.

(** ** More on year fractions *)

Section YearsExtra.
Import Time.

Lemma yearsBetween_atLeast_lt a b :
  a < b -> F64.atLeast false (-55) (yearsBetween a b).
Proof.
  intros H. rewrite (yearsBetween_lt a b H).
  eapply (F64.atLeast_mul false (-55) (-55) false);
    [vm_compute; reflexivity | vm_compute; reflexivity | lia |].
  apply yearsForward_atLeast, H.
Qed.

Lemma yearsBetween_atLeast_gt a b :
  b < a -> F64.atLeast true (-55) (yearsBetween a b).
Proof.
  intros H. rewrite (yearsBetween_gt b a H).
  eapply (F64.atLeast_mul false (-55) (-55) true);
    [vm_compute; reflexivity | vm_compute; reflexivity | lia |].
  apply yearsForward_atLeast, H.
Qed.

(** [daysInYear] agrees with the leap-year rule of the calendar. *)
Lemma daysInYear_isLeap y : daysInYear y = 365 + (if isLeap y then 1 else 0).
Proof.
  unfold daysInYear.
  assert (R : forall k, k <> 0 -> (Z.rem y k =? 0) = (y mod k =? 0)).
  { intros k Hk. apply eq_true_iff_eq. rewrite !Z.eqb_eq.
    rewrite Z.rem_divide, Z.mod_divide by exact Hk. reflexivity. }
  rewrite !R by discriminate.
  destruct (isLeap_cases y) as [(-> & H4 & H)|(-> & H)];
    destruct (Z.eqb_spec (y mod 4) 0), (Z.eqb_spec (y mod 100) 0),
      (Z.eqb_spec (y mod 400) 0); cbn; try reflexivity;
    exfalso; Z.div_mod_to_equations; lia.
Qed.

Lemma Date_first_of_January y :
  Date y 1 1 0 0 0 0 = daysBeforeYear y * nsPerDay.
Proof.
  unfold Date. rewrite daysFromCivil_month by lia.
  change (daysBefore 1) with 0. rewrite andb_false_r.
  unfold nsPerDay, Hour, Minute, Second. lia.
Qed.

End YearsExtra.

Section WholeYears.
Import Time.






End WholeYears.

(** ** Periods and their middles *)

(** The middle lies between the two ends, whatever their distance. *)
Lemma midOfStartEnd_between (start end_ : Time.Time) :
  start <= end_ -> start <= midOfStartEnd start end_ <= end_.
Proof.
  intros H. unfold midOfStartEnd, Time.Add, Time.Sub.
  assert (M : 0 <= Time.maxDuration) by (unfold Time.maxDuration; lia).
  destruct (Z.ltb_spec (end_ - start) Time.minDuration) as [L|L];
    [unfold Time.minDuration in L; lia|].
  destruct (Z.ltb_spec Time.maxDuration (end_ - start)) as [G|G].
  - pose proof (Z.quot_pos Time.maxDuration 2 M ltac:(lia)).
    assert (Z.quot Time.maxDuration 2 <= Time.maxDuration)
      by (apply Z.quot_le_upper_bound; lia).
    lia.
  - pose proof (Z.quot_pos (end_ - start) 2 ltac:(lia) ltac:(lia)).
    assert (Z.quot (end_ - start) 2 <= end_ - start)
      by (apply Z.quot_le_upper_bound; lia).
    lia.
Qed.

(** The period of an instant holds the instant; its length is that of the
    calendar year (as [daysInYear] counts it), of the calendar month, of the
    day, hour, minute, second or millisecond; and [midOfStartEnd] is its
    middle, rounded down to the nanosecond. *)
Lemma periodOf_bounds (res : resolution) (t : Time.Time) :
  let '(start, end_) := periodOf res t in
  start <= t <= end_ /\
  midOfStartEnd start end_ = start + (end_ - start) / 2 /\
  match res with
  | yearRes => end_ - start + 1 = daysInYear (Time.Year t) * Time.nsPerDay
  | monthRes =>
      exists days, 28 <= days <= 31 /\ end_ - start + 1 = days * Time.nsPerDay
  | dayRes => end_ - start + 1 = Time.nsPerDay
  | hourRes => end_ - start + 1 = Time.Hour
  | minuteRes => end_ - start + 1 = Time.Minute
  | secondRes => end_ - start + 1 = Time.Second
  | milliRes => end_ - start + 1 = Time.Millisecond
  end.
Proof.
  assert (Mid : forall s e, 0 <= e - s <= 366 * Time.nsPerDay ->
                  midOfStartEnd s e = s + (e - s) / 2).
  { intros s e H. unfold midOfStartEnd, Time.Add.
    rewrite Time.Sub_small
      by (unfold Time.maxDuration, Time.nsPerDay, Time.Hour, Time.Minute,
            Time.Second in *; lia).
    rewrite Z.quot_div_nonneg by lia. reflexivity. }
  assert (Hd : 0 < Time.nsPerDay) by reflexivity.
  pose proof (Z.div_mod t Time.nsPerDay ltac:(lia)) as DM.
  pose proof (Z.mod_pos_bound t Time.nsPerDay Hd) as MB.
  assert (Trunc : forall d, 0 < d -> d <= Time.nsPerDay ->
            let s := Time.Truncate t d in
            let e := Time.Add s (d - Time.Nanosecond) in
            s <= t <= e /\ midOfStartEnd s e = s + (e - s) / 2 /\
            e - s + 1 = d).
  { intros d D0 D1 s e. subst s e. unfold Time.Truncate, Time.Add, Time.Nanosecond.
    destruct (Z.leb_spec d 0); [lia|].
    pose proof (Z.mod_pos_bound t d D0).
    split; [lia|]. split; [apply Mid; lia | lia]. }
  destruct res; cbn [periodOf].
  - (* year *)
    unfold Time.Year. pose proof (Time.civil_bounds t) as C.
    destruct (Time.civil t) as [[y m] d]. cbn [fst].
    destruct C as (Hm & E & [B1 B2] & _).
    rewrite !Time.Date_clock. rewrite !Time.daysFromCivil_month by lia.
    change (Time.daysBefore 1) with 0. change (Time.daysBefore 12) with 334.
    change (3 <=? 1) with false. change (3 <=? 12) with true.
    rewrite andb_false_r, andb_true_r.
    rewrite Time.daysBeforeYear_succ in B2.
    rewrite daysInYear_isLeap.
    unfold Time.nsPerDay, Time.Hour, Time.Minute, Time.Second in *.
    split; [destruct (Time.isLeap y); lia|].
    split; [apply Mid; unfold Time.nsPerDay, Time.Hour, Time.Minute, Time.Second;
            destruct (Time.isLeap y); lia|].
    destruct (Time.isLeap y); lia.
  - (* month *)
    pose proof (Time.civil_bounds t) as C.
    destruct (Time.civil t) as [[y m] d].
    destruct C as (Hm & E & _ & [B1 B2]).
    rewrite !Time.Date_clock.
    assert (L : 28 <= Time.daysFromCivil y (m + 1) 0 + 1
                      - Time.daysFromCivil y m 1 <= 31).
    { rewrite Time.daysFromCivil_month_end, Time.daysFromCivil_month by lia.
      pose proof (Time.month_length (Time.isLeap y) m Hm). lia. }
    unfold Time.nsPerDay, Time.Hour, Time.Minute, Time.Second in *.
    split; [lia|].
    split; [apply Mid; unfold Time.nsPerDay, Time.Hour, Time.Minute, Time.Second;
            lia|].
    exists (Time.daysFromCivil y (m + 1) 0 + 1 - Time.daysFromCivil y m 1).
    split; [exact L | lia].
  - (* day *)
    pose proof (Time.civil_bounds t) as C.
    destruct (Time.civil t) as [[y m] d].
    destruct C as (Hm & E & _ & _).
    rewrite !Time.Date_clock, E. unfold Time.Add, Time.Nanosecond.
    unfold Time.nsPerDay, Time.Hour, Time.Minute, Time.Second in *.
    split; [lia|].
    split; [apply Mid; unfold Time.nsPerDay, Time.Hour, Time.Minute, Time.Second;
            lia | lia].
  - apply Trunc; [reflexivity | now vm_compute].
  - apply Trunc; [reflexivity | now vm_compute].
  - apply Trunc; [reflexivity | now vm_compute].
  - apply Trunc; [reflexivity | now vm_compute].
Qed.

(** ** Sorting by swaps *)

Module SortProofs.
Import GoSort.
Section WithLess.
Context {A : Type} `{Inhabited A} (less : A -> A -> bool).
Local Open Scope nat_scope.

Lemma Swap_length (data : list A) i j : length (Swap data i j) = length data.
Proof. unfold Swap. now rewrite !length_insert. Qed.

(** After a swap the two positions have exchanged their elements. *)
Lemma Swap_lookup (data : list A) i j k :
  i < length data -> j < length data ->
  Swap data i j !!! k =
  if decide (k = i) then data !!! j
  else if decide (k = j) then data !!! i else data !!! k.
Proof.
  intros Hi Hj. unfold Swap.
  destruct (decide (k = i)) as [->|Hki].
  - now rewrite list_lookup_total_insert_eq by (rewrite length_insert; lia).
  - rewrite list_lookup_total_insert_ne by congruence.
    destruct (decide (k = j)) as [->|Hkj].
    + now rewrite list_lookup_total_insert_eq by lia.
    + now rewrite list_lookup_total_insert_ne by congruence.
Qed.

Lemma insert_Permutation (l : list A) i x y :
  l !! i = Some y -> <[i:=x]> l ≡ₚ x :: delete i l.
Proof.
  intros E.
  assert (Hi : i < length l) by (apply lookup_lt_is_Some; eauto).
  rewrite (delete_Permutation (<[i:=x]> l) i x)
    by now apply list_lookup_insert_eq.
  rewrite !delete_take_drop, take_insert_ge, drop_insert_lt by lia.
  reflexivity.
Qed.

Lemma Swap_comm (data : list A) i j : Swap data i j = Swap data j i.
Proof.
  unfold Swap. destruct (decide (i = j)) as [->|Hij]; [reflexivity|].
  now rewrite list_insert_insert_ne by congruence.
Qed.

Lemma Swap_Permutation_lt : forall (data : list A) i j,
  i < j -> j < length data -> Swap data i j ≡ₚ data.
Proof.
  unfold Swap. induction data as [|x0 rest IH]; intros i j Hij Hj;
    [cbn in Hj; lia|].
  destruct j as [|j]; [lia|]. cbn in Hj.
  destruct i as [|i]; cbn.
  - pose proof (list_lookup_lookup_total_lt rest j ltac:(lia)) as Ej.
    etransitivity; [apply perm_skip, (insert_Permutation rest j x0 _ Ej)|].
    etransitivity; [apply perm_swap|].
    apply perm_skip. symmetry. apply delete_Permutation, Ej.
  - constructor. apply IH; lia.
Qed.

(** A swap rearranges the array. *)
Lemma Swap_Permutation (data : list A) i j :
  i < length data -> j < length data -> Swap data i j ≡ₚ data.
Proof.
  intros Hi Hj. destruct (Nat.lt_total i j) as [L|[->|L]].
  - now apply Swap_Permutation_lt.
  - unfold Swap. rewrite list_insert_insert_eq, list_insert_id; [reflexivity|].
    now apply list_lookup_lookup_total_lt.
  - rewrite Swap_comm. now apply Swap_Permutation_lt.
Qed.

(** [data'] rearranges [data] within [[a, b)] only. *)
Definition RangePerm (a b : nat) (data data' : list A) : Prop :=
  length data' = length data /\ data' ≡ₚ data /\
  forall k, k < a \/ b <= k -> data' !!! k = data !!! k.

(** [data[a:b]] is sorted: no element is less than an earlier one. *)
Definition SortedRange (data : list A) (a b : nat) : Prop :=
  forall i j, a <= i -> i < j -> j < b ->
    less (data !!! j) (data !!! i) = false.

Lemma RangePerm_refl a b data : RangePerm a b data data.
Proof. repeat split; auto. Qed.

Lemma RangePerm_trans a b d1 d2 d3 :
  RangePerm a b d1 d2 -> RangePerm a b d2 d3 -> RangePerm a b d1 d3.
Proof.
  intros (L1 & P1 & O1) (L2 & P2 & O2). repeat split.
  - congruence.
  - now rewrite P2.
  - intros k Hk. now rewrite O2, O1.
Qed.

Lemma RangePerm_weaken a b a' b' d1 d2 :
  a' <= a -> b <= b' -> RangePerm a b d1 d2 -> RangePerm a' b' d1 d2.
Proof.
  intros Ha Hb (L & P & O). repeat split; auto. intros k Hk. apply O. lia.
Qed.

Lemma RangePerm_Swap a b data i j :
  a <= i < b -> a <= j < b -> b <= length data ->
  RangePerm a b data (Swap data i j).
Proof.
  intros Hi Hj Hb. repeat split.
  - apply Swap_length.
  - apply Swap_Permutation; lia.
  - intros k Hk. rewrite Swap_lookup by lia. repeat case_decide; auto; lia.
Qed.

(** The insertion sort only swaps within the range. *)
Lemma insertDown_RangePerm : forall j data a,
  j < length data -> RangePerm a (S j) data (insertDown less data a j).
Proof.
  induction j as [|j IH]; intros data a Hj; cbn [insertDown].
  - apply RangePerm_refl.
  - destruct ((a <? S j) && Less less data (S j) j) eqn:C;
      [|apply RangePerm_refl].
    apply andb_true_iff in C as [Ca _]. apply Nat.ltb_lt in Ca.
    eapply RangePerm_trans;
      [apply (RangePerm_Swap a (S (S j)) data (S j) j); lia|].
    eapply RangePerm_weaken; [| |apply IH]; rewrite ?Swap_length; lia.
Qed.

Lemma insertionSortFrom_RangePerm n : forall data a i,
  i + n <= length data ->
  RangePerm a (i + n) data (insertionSortFrom less n data a i).
Proof.
  induction n as [|n IH]; intros data a i Hn; cbn [insertionSortFrom].
  - apply RangePerm_refl.
  - pose proof (insertDown_RangePerm i data a ltac:(lia)) as P.
    replace (i + S n) with (S i + n) by lia.
    eapply RangePerm_trans; [eapply RangePerm_weaken; [| |exact P]; lia|].
    apply IH. destruct P as (L & _). rewrite L. lia.
Qed.

Lemma insertionSort_RangePerm data a b :
  b <= length data -> RangePerm a b data (insertionSort less data a b).
Proof.
  intros Hb. unfold insertionSort.
  destruct (decide (a + 1 <= b)) as [L|L].
  - eapply RangePerm_weaken;
      [| |apply (insertionSortFrom_RangePerm (b - (a + 1)) data a (a + 1))]; lia.
  - replace (b - (a + 1)) with 0 by lia. apply RangePerm_refl.
Qed.

Section Ordered.
Hypothesis less_order : StrictWeakOrder less.

Lemma less_irrefl x : less x x = false.
Proof. apply less_order. Qed.

Lemma less_trans x y z : less x y = true -> less y z = true -> less x z = true.
Proof. apply less_order. Qed.

Lemma less_negtrans x y z :
  less x y = false -> less y z = false -> less x z = false.
Proof. apply less_order. Qed.

Lemma less_asym x y : less x y = true -> less y x = false.
Proof.
  intros L. destruct (less y x) eqn:E; [|reflexivity].
  pose proof (less_trans _ _ _ L E) as T. now rewrite less_irrefl in T.
Qed.

(** The inner loop of the insertion sort puts [data[j]] in its place below
    the sorted block it has passed. *)
Lemma insertDown_SortedRange hi : forall j data a,
  a <= j -> j <= hi -> hi < length data ->
  SortedRange data a j ->
  SortedRange data (S j) (S hi) ->
  (forall x y, a <= x < j -> j < y <= hi ->
     less (data !!! y) (data !!! x) = false) ->
  (forall y, j < y <= hi -> less (data !!! j) (data !!! y) = true) ->
  SortedRange (insertDown less data a j) a (S hi).
Proof.
  induction j as [|j IH]; intros data a Ha Hj Hhi S1 S2 S3 S4.
  - cbn [insertDown].
    intros i y Hi Hiy Hy. destruct i as [|i].
    + apply less_asym, S4. lia.
    + apply S2; lia.
  - cbn [insertDown]. unfold Less.
    destruct ((a <? S j) && less (data !!! S j) (data !!! j)) eqn:C.
    + apply andb_true_iff in C as [Ca C]. apply Nat.ltb_lt in Ca.
      assert (Hsw : forall k, Swap data (S j) j !!! k =
                 if decide (k = S j) then data !!! j
                 else if decide (k = j) then data !!! S j else data !!! k)
        by (intros k; apply Swap_lookup; lia).
      apply IH.
      * lia.
      * lia.
      * rewrite Swap_length. lia.
      * intros i y Hi Hiy Hy. rewrite !Hsw.
        repeat case_decide; try lia. apply S1; lia.
      * intros i y Hi Hiy Hy. rewrite !Hsw.
        repeat case_decide; try lia; subst.
        -- apply S3; lia.
        -- apply S2; lia.
      * intros x y Hx Hy. rewrite !Hsw.
        repeat case_decide; try lia; subst.
        -- apply S1; lia.
        -- apply S3; lia.
      * intros y Hy. rewrite !Hsw.
        repeat case_decide; try lia; subst.
        -- exact C.
        -- apply S4. lia.
    + intros i y Hi Hiy Hy.
      destruct (Nat.lt_total y (S j)) as [L|[->|L]].
      * apply S1; lia.
      * apply andb_false_iff in C as [C|C]; [apply Nat.ltb_ge in C; lia|].
        destruct (decide (i = j)) as [->|]; [exact C|].
        eapply less_negtrans; [exact C|]. apply S1; lia.
      * destruct (Nat.lt_total i (S j)) as [L'|[->|L']].
        -- apply S3; lia.
        -- apply less_asym, S4. lia.
        -- apply S2; lia.
Qed.

(** The outer loop extends the sorted prefix by one element at a time. *)
Lemma insertionSortFrom_SortedRange n : forall data a i,
  a <= i -> i + n <= length data ->
  SortedRange data a i ->
  SortedRange (insertionSortFrom less n data a i) a (i + n).
Proof.
  induction n as [|n IH]; intros data a i Ha Hn S1; cbn [insertionSortFrom].
  - now rewrite Nat.add_0_r.
  - assert (E1 : SortedRange data (S i) (S i)) by (intros x y ? ? ?; lia).
    assert (E2 : forall x y, a <= x < i -> i < y <= i ->
              less (data !!! y) (data !!! x) = false) by (intros; lia).
    assert (E3 : forall y, i < y <= i -> less (data !!! i) (data !!! y) = true)
      by (intros; lia).
    pose proof (insertDown_SortedRange i i data a Ha (le_n i) ltac:(lia)
                  S1 E1 E2 E3) as Q.
    destruct (insertDown_RangePerm i data a ltac:(lia)) as (L & _).
    replace (i + S n) with (S i + n) by lia.
    apply IH; [lia | rewrite L; lia | exact Q].
Qed.

(** [insertionSortLessFunc] sorts [data[a:b]]. *)
Lemma insertionSort_SortedRange data a b :
  b <= length data -> SortedRange (insertionSort less data a b) a b.
Proof.
  intros Hb. unfold insertionSort.
  destruct (decide (a + 1 <= b)) as [L|L].
  - replace b with (a + 1 + (b - (a + 1))) at 2 by lia.
    apply insertionSortFrom_SortedRange; [lia | lia |].
    intros i j Hi Hij Hj. lia.
  - intros i j Hi Hij Hj. lia.
Qed.

(** A sorted range of the whole array, in terms of lookups. *)
Lemma SortedRange_Ascending data :
  SortedRange data 0 (length data) -> Ascending less data.
Proof.
  intros S i j x y Hij Hi Hj.
  assert (j < length data) by (apply lookup_lt_is_Some; eauto).
  rewrite <- (list_lookup_total_correct _ _ _ Hi).
  rewrite <- (list_lookup_total_correct _ _ _ Hj).
  apply S; lia.
Qed.

End Ordered.
End WithLess.
End SortProofs.

(** [insertionSortLessFunc] over the whole array: what [pdqsortLessFunc]
    runs on a slice of at most 12 elements. *)
Definition insertionSorter : SliceSorter :=
  fun less l => GoSort.insertionSort less l 0 (length l).

(** The insertion sort keeps the contract of [sort.Slice]. *)
#[export] Instance insertionSorter_spec : SliceSorterSpec insertionSorter.
Proof.
  split; unfold sortSlice, insertionSorter.
  - intros less l.
    now destruct (SortProofs.insertionSort_RangePerm less l 0 (length l))
      as (_ & P & _).
  - intros less l O. apply SortProofs.SortedRange_Ascending.
    destruct (SortProofs.insertionSort_RangePerm less l 0 (length l) (le_n _))
      as (L & _).
    rewrite L. now apply SortProofs.insertionSort_SortedRange.
Qed.

(** ** Small and sorted slices *)

Module SortMore.
Import GoSort SortProofs.
Section WithLess.
Context {A : Type} `{Inhabited A} (less : A -> A -> bool).
Local Open Scope nat_scope.

(** *** Slices of at most twelve elements *)



Section Stable.
Context (P : A -> Prop) `{!forall x, Decision (P x)}.
Hypothesis less_apart : forall x y, less x y = true -> ~ (P y /\ P x).




End Stable.

(** *** Sorted input *)

Lemma scanUp_all (test : nat -> bool) j : forall fuel i,
  i <= S j -> S j - i < fuel ->
  (forall x, i <= x <= j -> test x = true) ->
  scanUp fuel test i j = S j.
Proof.
  induction fuel as [|fuel IH]; intros i Hi Hf T; [lia|].
  cbn [scanUp]. destruct (Nat.leb_spec i j) as [L|L]; cbn [andb].
  - rewrite T by lia. apply IH; [lia | lia |]. intros x Hx. apply T. lia.
  - lia.
Qed.

(** A scan that reaches the end lets [partialInsertionSortLessFunc] answer
    that the range is sorted. *)
Lemma partialInsertionSortFrom_stop steps (data : list A) a b i :
  scanUp b (fun i => negb (Less less data i (i - 1))) i (b - 1) = b ->
  partialInsertionSortFrom less (S steps) data a b i = (data, true).
Proof.
  intros E. cbn [partialInsertionSortFrom]. cbv zeta. rewrite E.
  now rewrite Nat.eqb_refl.
Qed.

Section Sorted.
Context (data : list A).
Hypothesis data_sorted : SortedRange less data 0 (length data).

Lemma Less_sorted i j : i < j -> j < length data -> Less less data j i = false.
Proof. intros Hij Hj. apply data_sorted; lia. Qed.

Lemma order2_sorted a b swaps :
  a < b -> b < length data -> order2 less data a b swaps = (a, b, swaps).
Proof. intros Hab Hb. unfold order2. now rewrite Less_sorted. Qed.

Lemma median_sorted a b c swaps :
  a < b -> b < c -> c < length data -> median less data a b c swaps = (b, swaps).
Proof.
  intros Hab Hbc Hc. unfold median.
  now rewrite !order2_sorted by lia.
Qed.

Lemma choosePivot_sorted :
  13 <= length data ->
  snd (choosePivot less data 0 (length data)) = increasingHint.
Proof.
  intros L. unfold choosePivot. cbv zeta. rewrite Nat.sub_0_r.
  assert (Q : 3 <= length data / 4) by (apply Nat.div_le_lower_bound; lia).
  pose proof (Nat.Div0.mul_div_le (length data) 4) as D.
  destruct (Nat.leb_spec 8 (length data)); [|lia].
  unfold medianAdjacent.
  destruct (Nat.leb_spec 50 (length data)).
  - now repeat (rewrite median_sorted by lia; cbv beta iota).
  - now rewrite median_sorted by lia.
Qed.

Lemma partialInsertionSort_sorted :
  1 <= length data ->
  partialInsertionSort less data 0 (length data) = (data, true).
Proof.
  intros L. unfold partialInsertionSort.
  rewrite (partialInsertionSortFrom_stop 4 data 0 (length data) (0 + 1));
    [reflexivity|].
  rewrite scanUp_all; [lia | lia | lia |].
  intros x Hx. apply negb_true_iff. apply Less_sorted; lia.
Qed.

Lemma insertDown_sorted : forall j a,
  j < length data -> insertDown less data a j = data.
Proof.
  intros [|j] a Hj; cbn [insertDown]; [reflexivity|].
  now rewrite Less_sorted, andb_false_r by lia.
Qed.

Lemma insertionSortFrom_sorted n : forall a i,
  i + n <= length data -> insertionSortFrom less n data a i = data.
Proof.
  induction n as [|n IH]; intros a i Hn; cbn [insertionSortFrom]; [reflexivity|].
  rewrite insertDown_sorted by lia. apply IH. lia.
Qed.

(** [sort.Slice] leaves a sorted slice as it is. *)
Lemma Slice_sorted : Slice less data = Some data.
Proof.
  unfold Slice. cbn [pdqsort]. rewrite Nat.sub_0_r.
  destruct (Nat.leb_spec (length data) 12) as [L|L].
  - f_equal. unfold insertionSort.
    destruct (decide (0 + 1 <= length data)).
    + apply insertionSortFrom_sorted. lia.
    + now replace (length data - (0 + 1)) with 0 by lia.
  - assert (B : (bitsLen (length data) =? 0) = false).
    { apply Nat.eqb_neq. unfold bitsLen. destruct (length data); lia. }
    rewrite B. cbn [negb].
    pose proof (choosePivot_sorted ltac:(lia)) as CP.
    destruct (choosePivot less data 0 (length data)) as [pivot hint].
    cbn [snd] in CP. subst hint. cbn [andb].
    now rewrite partialInsertionSort_sorted by lia.
Qed.

End Sorted.
End WithLess.
End SortMore.

(** The upper rate after [k] doublings of [0.10]. *)
Definition doubled (k : nat) : float := Nat.iter k (fun u => (u * 2)%float) 0.10%float.

(** The condition of the expansion loop at the [j]-th upper rate. *)
Definition expanding (f : float -> float) (low : float) (j : nat) : bool :=
  ((0 <? f low * f (doubled j)) && (doubled j <? 1000))%float.

(** ** The store *)

Section Store.
Context {M : MathLib} {S : SliceSorter} {B : RootFinder}.

Lemma fresh_lookup (h : heap) : h !! fresh (dom h) = None.
Proof. apply not_elem_of_dom, is_fresh. Qed.

Lemma contents_run (h : heap) p l :
  h !! p = Some l -> contents p h = Some (l, h).
Proof. intros E. unfold contents. now rewrite E. Qed.

(** [NPV] reads the slice and leaves the store as it was. *)
Lemma NPV_run {R} `{Rate R} (h : heap) p l (r : R) t :
  h !! p = Some l ->
  NPV p r t h = Some (NPV_loop r t l 0%float, h).
Proof. intros E. unfold NPV, bind. now rewrite (contents_run h p l E). Qed.

(** [Sort] replaces the elements of the array by their sorted rearrangement
    and touches no other array. *)
Lemma Sort_run (h : heap) p l :
  h !! p = Some l ->
  Sort p h = Some (tt, <[p := sortSlice lessDate l]> h).
Proof. intros E. unfold Sort, bind. now rewrite (contents_run h p l E). Qed.

(** The steps of [IRR] up to the search, on a non-empty slice. *)
Lemma IRR_run (h : heap) p l first :
  h !! p = Some l -> l <> [] ->
  sortSlice lessDate l !! 0%nat = Some first ->
  IRR p h =
  match IRR_search (Date first) (sortSlice lessDate l) with
  | Some result =>
      Some (result, <[fresh (dom h) := sortSlice lessDate l]> h)
  | None => None
  end.
Proof.
  intros E Hne Hfirst. unfold IRR, len, bind at 1 2.
  rewrite (contents_run h p l E). cbn [ret].
  destruct (Nat.eqb_spec (length l) 0) as [L|L];
    [apply length_zero_iff_nil in L; contradiction|].
  set (q := fresh (dom h)).
  assert (Hq : h !! q = None) by apply fresh_lookup.
  assert (Hpq : q <> p) by (intros Heq; rewrite Heq in Hq; congruence).
  unfold bind at 1, make. fold q.
  set (h1 := <[q := replicate (length l) zeroCashFlow]> h).
  assert (E1 : h1 !! p = Some l) by (subst h1; now rewrite lookup_insert_ne).
  assert (Q1 : h1 !! q = Some (replicate (length l) zeroCashFlow))
    by (subst h1; now rewrite lookup_insert_eq).
  unfold bind at 1, copy, bind at 1.
  rewrite (contents_run h1 p l E1). unfold bind at 1.
  rewrite (contents_run h1 q _ Q1). unfold bind at 1, store, ret.
  rewrite length_replicate, Nat.min_id, firstn_all, drop_ge, app_nil_r
    by (rewrite length_replicate; lia).
  set (h2 := <[q := l]> h1).
  assert (Q2 : h2 !! q = Some l) by (subst h2; now rewrite lookup_insert_eq).
  unfold bind at 1. rewrite (Sort_run h2 q l Q2).
  set (h3 := <[q := sortSlice lessDate l]> h2).
  assert (Q3 : h3 !! q = Some (sortSlice lessDate l))
    by (subst h3; now rewrite lookup_insert_eq).
  unfold bind at 1, index, bind at 1. rewrite (contents_run h3 q _ Q3).
  rewrite Hfirst. unfold ret at 1. unfold bind at 1.
  rewrite (contents_run h3 q _ Q3).
  assert (H3 : h3 = <[q := sortSlice lessDate l]> h)
    by (subst h3 h2 h1; now rewrite !insert_insert_eq).
  rewrite H3. destruct (IRR_search _ _); reflexivity.
Qed.

(** On an empty slice [IRR] stops at its first test. *)
Lemma IRR_run_empty (h : heap) p :
  h !! p = Some [] ->
  IRR p h = Some ((RateAnnualContinuous.mk 0, Some errEmpty), h).
Proof.
  intros E. unfold IRR, len, bind. now rewrite (contents_run h p [] E).
Qed.

Lemma lessDate_StrictWeakOrder : StrictWeakOrder lessDate.
Proof.
  unfold StrictWeakOrder, lessDate, Time.Before. repeat split; intros *.
  - apply Z.ltb_irrefl.
  - rewrite !Z.ltb_lt. lia.
  - rewrite !Z.ltb_ge. lia.
Qed.

Section Sorted.
Context {HS : SliceSorterSpec S}.

(** The sorted copy of a non-empty slice starts with an earliest flow. *)
Lemma sortSlice_first l :
  l <> [] ->
  exists first, sortSlice lessDate l !! 0%nat = Some first /\
    forall cf, cf ∈ l -> Date first <= Date cf.
Proof.
  intros Hne.
  pose proof (sortSlice_Permutation lessDate l) as P.
  pose proof (sortSlice_Ascending lessDate l lessDate_StrictWeakOrder) as A.
  destruct (sortSlice lessDate l) as [|first rest] eqn:E.
  - apply Permutation_nil_l in P. congruence.
  - exists first. split; [reflexivity|]. intros cf Hcf.
    rewrite <- P in Hcf. apply list_elem_of_lookup in Hcf as [j Hj].
    destruct j as [|j]; [cbn in Hj; injection Hj as ->; lia|].
    specialize (A 0%nat (Datatypes.S j) first cf ltac:(lia) eq_refl Hj).
    unfold lessDate, Time.Before in A. apply Z.ltb_ge in A. exact A.
Qed.

End Sorted.

(** The expansion loop stops within 14 doublings, at the first upper rate
    where its condition fails. *)
Lemma expandBracket_spec (f : float -> float) (low : float) :
  forall fuel i, (i <= 14)%nat -> (15 <= i + fuel)%nat ->
  exists k, (i <= k <= 14)%nat /\
    expandBracket fuel f (f low) (doubled i) (f (doubled i))
    = Some (doubled k, f (doubled k)) /\
    (forall j, (i <= j < k)%nat -> expanding f low j = true) /\
    expanding f low k = false.
Proof.
  induction fuel as [|fuel IH]; intros i Hi Hf; [lia|].
  cbn [expandBracket]. fold (expanding f low i).
  destruct (expanding f low i) eqn:C.
  - assert (i <> 14)%nat.
    { intros ->. unfold expanding in C. apply andb_true_iff in C as [_ C].
      vm_compute in C. discriminate. }
    destruct (IH (Datatypes.S i)) as (k & Hk & E & Hlt & Hstop); [lia|lia|].
    exists k. split; [lia|]. split; [exact E|]. split; [|exact Hstop].
    intros j Hj. destruct (decide (j = i)) as [->|]; [exact C|].
    apply Hlt. lia.
  - exists i. split; [lia|]. split; [reflexivity|]. split; [|exact C].
    intros j Hj. lia.
Qed.

End Store.

(** ** IRR *)

Section IRRProofs.
Context {M : MathLib} {S : SliceSorter} {B : RootFinder}.

(** What [IRR] returns once the bracket is settled at upper rate [high]. *)
Definition IRR_result (npv : float -> float) (high : float)
  : RateAnnualContinuous.t * option error :=
  if (0 <? npv (-0.999999) * npv high)%float
  then (RateAnnualContinuous.mk 0, Some errBracket)
  else
    match Brent npv (-0.999999)%float high 12 with
    | (_, Some err) =>
        (RateAnnualContinuous.mk 0, Some (fmt_Errorf_w "IRR: " err))
    | (root, None) => (RateAnnualContinuous.mk root, None)
    end.

(** The search returns: the expansion stops within 14 doublings, at the
    first upper rate where the loop's condition fails. *)
Lemma IRR_search_spec anchor ordered :
  exists k, (k <= 14)%nat /\
    (forall j, (j < k)%nat ->
       expanding (fun r => NPV_loop (RateAnnualContinuous.mk r) anchor ordered 0%float)
         (-0.999999)%float j = true) /\
    expanding (fun r => NPV_loop (RateAnnualContinuous.mk r) anchor ordered 0%float)
      (-0.999999)%float k = false /\
    IRR_search anchor ordered =
    Some (IRR_result
            (fun r => NPV_loop (RateAnnualContinuous.mk r) anchor ordered 0%float)
            (doubled k)).
Proof.
  set (f := fun r => NPV_loop (RateAnnualContinuous.mk r) anchor ordered 0%float).
  destruct (expandBracket_spec f (-0.999999)%float bracketFuel 0)
    as (k & Hk & E & Hlt & Hstop); [lia | unfold bracketFuel; lia |].
  exists k. split; [lia|]. split; [intros j Hj; apply Hlt; lia|].
  split; [exact Hstop|].
  change (doubled 0) with 0.10%float in E.
  unfold IRR_search, IRR_result. cbv zeta. subst f. cbv beta in E |- *.
  rewrite E.
  destruct (0 <? _ * _)%float; [reflexivity|].
  destruct (Brent _ _ _ _) as [root [err|]]; reflexivity.
Qed.

Lemma IRR_result_errBracket npv high :
  snd (IRR_result npv high) = Some errBracket <->
  (0 <? npv (-0.999999) * npv high)%float = true.
Proof.
  unfold IRR_result.
  destruct (0 <? npv (-0.999999) * npv high)%float; [now split|].
  destruct (Brent npv (-0.999999)%float high 12) as [root [err|]]; cbn;
    split; intros; discriminate.
Qed.

Lemma IRR_result_not_errEmpty npv high :
  snd (IRR_result npv high) <> Some errEmpty.
Proof.
  unfold IRR_result.
  destruct (0 <? npv (-0.999999) * npv high)%float; [cbn; discriminate|].
  destruct (Brent npv (-0.999999)%float high 12) as [root [err|]]; cbn;
    discriminate.
Qed.

Context {HS : SliceSorterSpec S}.

(** [IRR] on a non-empty slice: the store gains the sorted copy, and the
    result is that of the search anchored at the earliest date. *)
Lemma IRR_run_nonempty (h : heap) cashFlows l :
  h !! cashFlows = Some l -> l <> [] ->
  exists first k,
    sortSlice lessDate l !! 0%nat = Some first /\
    (forall cf, cf ∈ l -> Date first <= Date cf) /\
    (k <= 14)%nat /\
    (forall j, (j < k)%nat ->
       expanding (fun r => NPV_loop (RateAnnualContinuous.mk r) (Date first)
                             (sortSlice lessDate l) 0%float)
         (-0.999999)%float j = true) /\
    expanding (fun r => NPV_loop (RateAnnualContinuous.mk r) (Date first)
                          (sortSlice lessDate l) 0%float)
      (-0.999999)%float k = false /\
    IRR cashFlows h =
    Some (IRR_result
            (fun r => NPV_loop (RateAnnualContinuous.mk r) (Date first)
                        (sortSlice lessDate l) 0%float)
            (doubled k),
          <[fresh (dom h) := sortSlice lessDate l]> h).
Proof.
  intros E Hne.
  destruct (sortSlice_first l Hne) as (first & Hfirst & Hmin).
  destruct (IRR_search_spec (Date first) (sortSlice lessDate l))
    as (k & Hk & Hlt & Hstop & Es).
  exists first, k. repeat (split; [assumption|]).
  rewrite (IRR_run h cashFlows l first E Hne Hfirst), Es. reflexivity.
Qed.

End IRRProofs.

(** The upper rates the expansion visits lie between 0.10 and 1638.4, and
    only the last of them is at or above the ceiling. *)
Lemma doubled_bounds k :
  (k <= 14)%nat ->
  (0.10 <=? doubled k)%float = true /\ (doubled k <=? 1638.4)%float = true /\
  (doubled k <? 1000)%float = (k <? 14)%nat.
Proof.
  intros H.
  do 15 (destruct k as [|k]; [vm_compute; repeat split; reflexivity|]).
  lia.
Qed.

(** ** Examples *)

(** A root finder to run [IRR] on examples: it answers with the lower end
    of the bracket and never fails.  What [IRR] does around the call does
    not depend on the finder. *)
Definition lowerEndFinder : RootFinder := fun _ a _ _ => (a, None).

(** An outflow followed by two inflows, out of order. *)
Definition exampleFlows : list CashFlow :=
  [ mkCashFlow 60 (Time.Date 2022 1 1 0 0 0 0);
    mkCashFlow (-100) (Time.Date 2020 1 1 0 0 0 0);
    mkCashFlow 60 (Time.Date 2021 1 1 0 0 0 0) ].

Definition exampleHeap : heap := {[ 1%positive := exampleFlows ]}.

(** Twelve flows on one day, then a flow of the day before. *)
Definition sameDayFlows : list CashFlow :=
  map (fun v => mkCashFlow v (Time.Date 2024 6 2 0 0 0 0))
      [0; 1; 2; 3; 4; 5; 6; 7; 8; 9; 10; 11]%float
  ++ [mkCashFlow 12 (Time.Date 2024 6 1 0 0 0 0)].



Lemma NPV_loop_fold {R} `{Rate R} (r : R) t l : forall npv,
  NPV_loop r t l npv =
  fold_left (fun npv cf =>
               (npv + Value cf * DiscountFactor r (yearsBetween t (Date cf)))%float)
            l npv.
Proof. induction l as [|cf l IH]; intros npv; [reflexivity | apply IH]. Qed.

Lemma Ascending_lessDate l i j x y :
  Ascending lessDate l -> (i < j)%nat ->
  l !! i = Some x -> l !! j = Some y -> Date x <= Date y.
Proof.
  intros A Hij Hi Hj. specialize (A i j x y Hij Hi Hj).
  unfold lessDate, Time.Before in A. now apply Z.ltb_ge in A.
Qed.

(** Flows that are in ascending order of date. *)
Definition sortedFlows : list CashFlow :=
  [ mkCashFlow (-100) (Time.Date 2020 1 1 0 0 0 0);
    mkCashFlow 60 (Time.Date 2021 1 1 0 0 0 0);
    mkCashFlow 60 (Time.Date 2022 1 1 0 0 0 0) ].

(** Two flows of one day. *)
Definition todayFlows : list CashFlow :=
  [ mkCashFlow 40 (Time.Date 2024 6 2 0 0 0 0);
    mkCashFlow 2.5 (Time.Date 2024 6 2 0 0 0 0) ].

(** A reader of the layout ["2006"] for the years 2020 and 2021, to run
    [StringToTime] on examples. *)
Definition yearParser : TimeParser :=
  fun layout value =>
    if String.eqb layout "2006" then
      if String.eqb value "2020" then Some (Time.Date 2020 1 1 0 0 0 0)
      else if String.eqb value "2021" then Some (Time.Date 2021 1 1 0 0 0 0)
      else None
    else None.

(** ** The sorted copy *)

Lemma Ascending_StronglySorted (l : list CashFlow) :
  Ascending lessDate l ->
  StronglySorted (fun x y => Date x <= Date y) l.
Proof.
  induction l as [|x l IH]; intros A; constructor.
  - apply IH. intros i j a b Hij Hi Hj.
    apply (A (S i) (S j) a b); [lia | exact Hi | exact Hj].
  - apply Forall_lookup. intros j y Hj.
    apply (Ascending_lessDate (x :: l) 0 (S j) x y A); [lia | reflexivity | exact Hj].
Qed.

Section SortedCopy.
Context {S : SliceSorter} {HS : SliceSorterSpec S}.

(** Flows of distinct dates have one sorted order: the sort gives the same
    result on every arrangement of them. *)
Lemma sortSlice_order_independent (l1 l2 : list CashFlow) :
  l1 ≡ₚ l2 -> NoDup (map Date l1) ->
  sortSlice lessDate l1 = sortSlice lessDate l2.
Proof.
  intros P N.
  pose proof (sortSlice_Permutation lessDate l1) as P1.
  pose proof (sortSlice_Permutation lessDate l2) as P2.
  apply (StronglySorted_unique_strong (fun x y => Date x <= Date y)).
  - intros x1 x2 H1 H2 L1 L2. rewrite P1 in H1. rewrite P2, <- P in H2.
    assert (E : Date x1 = Date x2) by lia.
    apply list_elem_of_lookup in H1 as [i Hi], H2 as [j Hj].
    assert (i = j).
    { apply (NoDup_lookup (map Date l1) i j (Date x1)); [exact N| |].
      - now rewrite list_lookup_fmap, Hi.
      - now rewrite list_lookup_fmap, Hj, E. }
    subst j. congruence.
  - apply Ascending_StronglySorted, sortSlice_Ascending, lessDate_StrictWeakOrder.
  - apply Ascending_StronglySorted, sortSlice_Ascending, lessDate_StrictWeakOrder.
  - now rewrite P1, P2.
Qed.

End SortedCopy.

(** * The claims *)

(** C6: [yearsBetween] is antisymmetric: [yearsBetween(a, b) ==
    -yearsBetween(b, a)] for all instants [a] and [b], with Go's [==] on
    [float64], and [yearsBetween(a, a)] is [0]. *)
Theorem yearsBetween_antisymmetric (a b : Time.Time) :
  (yearsBetween a b =? - yearsBetween b a)%float = true /\
  yearsBetween a a = 0%float.
Proof.
  split; [|apply yearsBetween_eq].
  destruct (Z.lt_total a b) as [H|[->|H]].
  - rewrite (yearsBetween_lt a b H), (yearsBetween_gt a b H), F64.opp_mul_neg_one.
    apply F64.nonneg_eqb_refl, F64.nonneg_one_mul, yearsForward_nonneg, H.
  - rewrite yearsBetween_eq. reflexivity.
  - rewrite (yearsBetween_lt b a H), (yearsBetween_gt b a H).
    assert (E : (-1 * yearsForward b a)%float = (- (1 * yearsForward b a))%float)
      by now rewrite <- F64.opp_mul_neg_one, F64.opp_involutive.
    rewrite E. apply F64.eqb_refl_opp.
    apply F64.nonneg_eqb_refl, F64.nonneg_one_mul, yearsForward_nonneg, H.
Qed.


(** C1: [CashFlows.Sort] reorders the elements of the slice in place into
    ascending order by date, and every flow present before the sort is
    present after it: the new contents are a permutation of the old.  This
    holds for every [sort.Slice] that keeps its documented contract; the
    relative order of flows of equal dates is no part of it. *)
Theorem Sort_ascending_permutation {S : SliceSorter} {HS : SliceSorterSpec S}
    (h : heap) (cfs : CashFlows) (l : list CashFlow) :
  h !! cfs = Some l ->
  exists sorted,
    Sort cfs h = Some (tt, <[cfs := sorted]> h) /\
    sorted ≡ₚ l /\
    forall (i j : nat) (x y : CashFlow),
      (i < j)%nat -> sorted !! i = Some x -> sorted !! j = Some y ->
      Date x <= Date y.
Proof.
  intros E. exists (sortSlice lessDate l). split; [now apply Sort_run|].
  split; [apply sortSlice_Permutation|].
  intros i j x y. apply Ascending_lessDate, sortSlice_Ascending.
  apply lessDate_StrictWeakOrder.
Qed.

Lemma Sort_ascending_permutation_witness :
  exampleHeap !! 1%positive = Some exampleFlows /\
  exists sorted,
    Sort (S := insertionSorter) 1%positive exampleHeap
    = Some (tt, <[1%positive := sorted]> exampleHeap) /\
    sorted ≡ₚ exampleFlows /\
    forall (i j : nat) (x y : CashFlow),
      (i < j)%nat -> sorted !! i = Some x -> sorted !! j = Some y ->
      Date x <= Date y.
Proof.
  split; [reflexivity|].
  apply (Sort_ascending_permutation (S := insertionSorter)
           exampleHeap 1%positive exampleFlows).
  reflexivity.
Defined.

(** C1, the stability it claims: [sort.Slice] as Go ships it moves flows of
    one date past each other.  Of thirteen flows, the twelve of 2 June in the
    order 0..11 and then one of 1 June, the sort puts flow 6 before flow 2. *)
Lemma Sort_stable_counterexample :
  sameDayFlows !! 2%nat = Some (mkCashFlow 2 (Time.Date 2024 6 2 0 0 0 0)) /\
  sameDayFlows !! 6%nat = Some (mkCashFlow 6 (Time.Date 2024 6 2 0 0 0 0)) /\
  exists h' sorted,
    Sort (S := pdqSorter) 1%positive {[ 1%positive := sameDayFlows ]}
    = Some (tt, h') /\
    h' !! 1%positive = Some sorted /\
    sorted !! 1%nat = Some (mkCashFlow 6 (Time.Date 2024 6 2 0 0 0 0)) /\
    sorted !! 2%nat = Some (mkCashFlow 2 (Time.Date 2024 6 2 0 0 0 0)).
Proof.
  split; [reflexivity|]. split; [reflexivity|].
  eexists _, _. split; [vm_compute; reflexivity|].
  split; [vm_compute; reflexivity|]. split; reflexivity.
Qed.

(** C2: on a non-empty collection [IRR] searches a root of
    [f(r) = NPV] of the sorted copy at the continuous rate [r], anchored at
    the earliest date.  It starts from the rates [-0.999999] and [0.10] and
    doubles the upper rate while [f(low) * f(high) > 0] and [high < 1000];
    the loop stops after [k <= 14] doublings, and [IRR] fails with the
    could-not-bracket error exactly when [f(low) * f(high) > 0] still holds
    at the last upper rate. *)
Theorem IRR_brackets_root {M : MathLib} {S : SliceSorter} {B : RootFinder}
    {HS : SliceSorterSpec S}
    (h : heap) (cashFlows : CashFlows) (l : list CashFlow) :
  h !! cashFlows = Some l -> l <> [] ->
  exists (ordered : list CashFlow) (first : CashFlow) (k : nat) result h',
    let f := fun r : float =>
      NPV_loop (RateAnnualContinuous.mk r) (Date first) ordered 0%float in
    IRR cashFlows h = Some (result, h') /\
    ordered ≡ₚ l /\ Ascending lessDate ordered /\
    ordered !! 0%nat = Some first /\
    (forall cf, cf ∈ l -> Date first <= Date cf) /\
    (k <= 14)%nat /\
    (forall j, (j < k)%nat -> expanding f (-0.999999)%float j = true) /\
    expanding f (-0.999999)%float k = false /\
    result = IRR_result f (doubled k) /\
    (snd result = Some errBracket <->
     (0 <? f (-0.999999) * f (doubled k))%float = true).
Proof.
  intros E Hne.
  destruct (IRR_run_nonempty h cashFlows l E Hne)
    as (first & k & Hfirst & Hmin & Hk & Hlt & Hstop & Hrun).
  exists (sortSlice lessDate l), first, k. eexists _, _. cbv zeta.
  split; [exact Hrun|].
  split; [apply sortSlice_Permutation|].
  split; [apply sortSlice_Ascending, lessDate_StrictWeakOrder|].
  repeat (split; [assumption|]).
  split; [reflexivity | exact (IRR_result_errBracket _ _)].
Qed.

Lemma IRR_brackets_root_witness :
  exampleHeap !! 1%positive = Some exampleFlows /\ exampleFlows <> [] /\
  exists (ordered : list CashFlow) (first : CashFlow) (k : nat) result h',
    let f := fun r : float =>
      NPV_loop (R := RateAnnualContinuous.t) (RateAnnualContinuous.mk r)
        (Date first) ordered 0%float in
    IRR (M := GoMathLib) (S := insertionSorter) (B := lowerEndFinder)
      1%positive exampleHeap = Some (result, h') /\
    ordered ≡ₚ exampleFlows /\ Ascending lessDate ordered /\
    ordered !! 0%nat = Some first /\
    (forall cf, cf ∈ exampleFlows -> Date first <= Date cf) /\
    (k <= 14)%nat /\
    (forall j, (j < k)%nat -> expanding f (-0.999999)%float j = true) /\
    expanding f (-0.999999)%float k = false /\
    result = IRR_result (B := lowerEndFinder) f (doubled k) /\
    (snd result = Some errBracket <->
     (0 <? f (-0.999999) * f (doubled k))%float = true).
Proof.
  split; [reflexivity|]. split; [discriminate|].
  apply (IRR_brackets_root (M := GoMathLib) (S := insertionSorter)
           (B := lowerEndFinder) exampleHeap 1%positive exampleFlows);
    [reflexivity | discriminate].
Defined.

(** C3: [IRR] called on an empty collection fails with the error that asks
    for at least one cash-flow, and it fails with that error only then: on a
    non-empty collection it goes on to the search. *)
Theorem IRR_empty_error {M : MathLib} {S : SliceSorter} {B : RootFinder}
    {HS : SliceSorterSpec S}
    (h : heap) (cashFlows : CashFlows) (l : list CashFlow) :
  h !! cashFlows = Some l ->
  exists result h',
    IRR cashFlows h = Some (result, h') /\
    (snd result = Some errEmpty <-> l = []).
Proof.
  intros E. destruct l as [|cf l].
  - eexists _, _. split; [now apply IRR_run_empty|]. now split.
  - destruct (IRR_run_nonempty h cashFlows (cf :: l) E ltac:(discriminate))
      as (first & k & _ & _ & _ & _ & _ & Hrun).
    eexists _, _. split; [exact Hrun|]. cbn [snd fst].
    split; [|discriminate]. intros R.
    now apply IRR_result_not_errEmpty in R.
Qed.

Lemma IRR_empty_error_witness :
  ({[ 1%positive := [] ]} : heap) !! 1%positive = Some [] /\
  exists result h',
    IRR (M := GoMathLib) (S := insertionSorter) (B := lowerEndFinder)
      1%positive {[ 1%positive := [] ]} = Some (result, h') /\
    (snd result = Some errEmpty <-> @nil CashFlow = []).
Proof.
  split; [reflexivity|].
  apply (IRR_empty_error (M := GoMathLib) (S := insertionSorter)
           (B := lowerEndFinder) {[ 1%positive := [] ]} 1%positive []).
  reflexivity.
Defined.

(** C4: [NPV] returns the sum, taken in the order of the slice from [0], of
    [Value * DiscountFactor(years)] over the flows, where [years] is
    [yearsBetween(valuationDate, Date)]: positive for a flow after the
    valuation date and negative for a flow before it.  The store, and with
    it the collection and its order, is left as it was. *)
Theorem NPV_sum {R} `{Rate R} (h : heap) (cfs : CashFlows)
    (l : list CashFlow) (r : R) (t : Time.Time) :
  h !! cfs = Some l ->
  NPV cfs r t h =
  Some (fold_left
          (fun npv cf =>
             (npv + Value cf * DiscountFactor r (yearsBetween t (Date cf)))%float)
          l 0%float, h) /\
  (forall cf, t < Date cf -> (0 <? yearsBetween t (Date cf))%float = true) /\
  (forall cf, Date cf < t -> (yearsBetween t (Date cf) <? 0)%float = true).
Proof.
  intros E. split; [|split].
  - rewrite (NPV_run h cfs l r t E). now rewrite NPV_loop_fold.
  - intros cf. apply yearsBetween_pos.
  - intros cf. apply yearsBetween_neg.
Qed.

Lemma NPV_sum_witness :
  exampleHeap !! 1%positive = Some exampleFlows /\
  NPV 1%positive (RateContinuous.mk 0.05) (Time.Date 2021 1 1 0 0 0 0)
    exampleHeap =
  Some (fold_left
          (fun npv cf =>
             (npv + Value cf *
                    DiscountFactor (RateContinuous.mk 0.05)
                      (yearsBetween (Time.Date 2021 1 1 0 0 0 0) (Date cf)))%float)
          exampleFlows 0%float, exampleHeap) /\
  (forall cf, Time.Date 2021 1 1 0 0 0 0 < Date cf ->
     (0 <? yearsBetween (Time.Date 2021 1 1 0 0 0 0) (Date cf))%float = true) /\
  (forall cf, Date cf < Time.Date 2021 1 1 0 0 0 0 ->
     (yearsBetween (Time.Date 2021 1 1 0 0 0 0) (Date cf) <? 0)%float = true).
Proof.
  split; [reflexivity|].
  apply (NPV_sum exampleHeap 1%positive exampleFlows). reflexivity.
Defined.

(** C9: [IRR] never changes the caller's collection: whatever it returns, a
    rate or an error, the caller's slice holds the same flows in the same
    order afterwards, and so does every other array of the store; the sort
    works on a copy. *)
Theorem IRR_preserves_caller {M : MathLib} {S : SliceSorter} {B : RootFinder}
    {HS : SliceSorterSpec S}
    (h : heap) (cashFlows : CashFlows) (l : list CashFlow) :
  h !! cashFlows = Some l ->
  exists result h',
    IRR cashFlows h = Some (result, h') /\
    h' !! cashFlows = Some l /\
    forall p, is_Some (h !! p) -> h' !! p = h !! p.
Proof.
  intros E. destruct l as [|cf l].
  - eexists _, _. split; [now apply IRR_run_empty|]. now split.
  - destruct (IRR_run_nonempty h cashFlows (cf :: l) E ltac:(discriminate))
      as (first & k & _ & _ & _ & _ & _ & Hrun).
    eexists _, _. split; [exact Hrun|].
    assert (F : forall p, is_Some (h !! p) ->
              <[fresh (dom h) := sortSlice lessDate (cf :: l)]> h !! p = h !! p).
    { intros p [x Hp]. apply lookup_insert_ne. intros <-.
      rewrite fresh_lookup in Hp. discriminate. }
    split; [|exact F]. rewrite F; [exact E | eauto].
Qed.

Lemma IRR_preserves_caller_witness :
  exampleHeap !! 1%positive = Some exampleFlows /\
  exists result h',
    IRR (M := GoMathLib) (S := insertionSorter) (B := lowerEndFinder)
      1%positive exampleHeap = Some (result, h') /\
    h' !! 1%positive = Some exampleFlows /\
    forall p, is_Some (exampleHeap !! p) -> h' !! p = exampleHeap !! p.
Proof.
  split; [reflexivity|].
  apply (IRR_preserves_caller (M := GoMathLib) (S := insertionSorter)
           (B := lowerEndFinder) exampleHeap 1%positive exampleFlows).
  reflexivity.
Defined.




(** C8: at zero years the discount factor is exactly [1] for an annual
    percentage rate and an effective rate whose [PeriodsPerYear] is finite,
    whatever the [Value], and for a continuous rate whose [Value] is
    finite. *)
Theorem DiscountFactor_zero_years {M : MathLib} :
  (forall r : RateAnnualPercentage.t,
     F64.IsFinite (RateAnnualPercentage.PeriodsPerYear r) = true ->
     DiscountFactor r 0 = 1%float) /\
  (forall r : RateEffective.t,
     F64.IsFinite (RateEffective.PeriodsPerYear r) = true ->
     DiscountFactor r 0 = 1%float) /\
  (forall r : RateContinuous.t,
     F64.IsFinite (RateContinuous.Value r) = true ->
     DiscountFactor r 0 = 1%float).
Proof.
  split; [|split].
  - apply RateAnnualPercentage_DiscountFactor_zero.
  - apply RateEffective_DiscountFactor_zero.
  - apply RateContinuous_DiscountFactor_zero.
Qed.

Lemma DiscountFactor_zero_years_witness :
  DiscountFactor (RateAnnualPercentage.mk 0.05 12) 0 = 1%float /\
  DiscountFactor (RateEffective.mk 0.02 4) 0 = 1%float /\
  DiscountFactor (RateContinuous.mk 0.05) 0 = 1%float.
Proof.
  destruct (DiscountFactor_zero_years (M := GoMathLib)) as (A & E & C).
  split; [|split]; [apply A | apply E | apply C]; reflexivity.
Defined.

(** C8, for every parameter value: with an infinite or NaN parameter the
    exponent at zero years is a NaN, and so is the discount factor. *)
Lemma DiscountFactor_zero_years_counterexample :
  (DiscountFactor (RateAnnualPercentage.mk 0.05 nan) 0 =? 1)%float = false /\
  (DiscountFactor (RateEffective.mk 0.02 infinity) 0 =? 1)%float = false /\
  (DiscountFactor (RateContinuous.mk infinity) 0 =? 1)%float = false.
Proof.
  repeat split; vm_compute; reflexivity.
Qed.

(** C10: a [RateEffective] with [PeriodsPerYear = 0] has, for every [Value],
    the discount factor [1] at every finite number of years, the annual
    effective rate [0] and the continuous rate [0]. *)
Theorem RateEffective_zero_periods_identity {M : MathLib} (v : float) :
  (forall years, F64.IsFinite years = true ->
     DiscountFactor (RateEffective.mk v 0) years = 1%float) /\
  RateAnnualEffective (RateEffective.mk v 0) = 0%float /\
  RateContinuous (RateEffective.mk v 0) = 0%float.
Proof. apply RateEffective_zero_periods. Qed.

Lemma RateEffective_zero_periods_identity_witness :
  DiscountFactor (RateEffective.mk 0.02 0) 2.5 = 1%float /\
  RateAnnualEffective (RateEffective.mk 0.02 0) = 0%float /\
  RateContinuous (RateEffective.mk 0.02 0) = 0%float.
Proof.
  destruct (RateEffective_zero_periods_identity (M := GoMathLib) 0.02)
    as (D & A & C).
  split; [apply D; reflexivity | split; [exact A | exact C]].
Defined.

(** C10, for every number of years: at an infinite number of years the
    exponent [-0 * years] is a NaN, and so is the discount factor. *)
Lemma RateEffective_zero_periods_counterexample :
  (DiscountFactor (RateEffective.mk 0.02 0) infinity =? 1)%float = false.
Proof.
  vm_compute. reflexivity.
Qed.

(** * Further properties *)

(** The year fraction compares with zero as the second instant compares
    with the first: positive towards a later instant, negative towards an
    earlier one, and zero only between equal instants. *)
Theorem yearsBetween_sign (a b : Time.Time) :
  (0 <? yearsBetween a b)%float = (a <? b) /\
  (yearsBetween a b <? 0)%float = (b <? a) /\
  (yearsBetween a b =? 0)%float = (a =? b).
Proof.
  destruct (Z.lt_total a b) as [H|[->|H]].
  - destruct (F64.atLeast_false_compare _ _ (yearsBetween_atLeast_lt a b H)) as [L E].
    rewrite (F64.atLeast_pos _ _ (yearsBetween_atLeast_lt a b H)), L, E.
    repeat split; symmetry; [apply Z.ltb_lt | apply Z.ltb_ge | apply Z.eqb_neq]; lia.
  - rewrite yearsBetween_eq, Z.ltb_irrefl, Z.eqb_refl. repeat split.
  - destruct (F64.atLeast_true_compare _ _ (yearsBetween_atLeast_gt a b H)) as [L E].
    rewrite (F64.atLeast_neg _ _ (yearsBetween_atLeast_gt a b H)), L, E.
    repeat split; symmetry; [apply Z.ltb_ge | apply Z.ltb_lt | apply Z.eqb_neq]; lia.
Qed.


(** [daysInYear] is the length of the calendar year: 366 in a leap year and
    365 otherwise, and the first of January of the next year comes that many
    days after the first of January. *)
Theorem daysInYear_calendar (y : Z) :
  daysInYear y = (if Time.isLeap y then 366 else 365) /\
  Time.Date (y + 1) 1 1 0 0 0 0 - Time.Date y 1 1 0 0 0 0
  = daysInYear y * Time.nsPerDay.
Proof.
  rewrite !Date_first_of_January, Time.daysBeforeYear_succ, daysInYear_isLeap.
  split; [destruct (Time.isLeap y); reflexivity | ring].
Qed.

(** Between an instant and a later one less than a calendar year on, the
    year fraction is the elapsed days over the length of the calendar year
    of the first instant. *)
Theorem yearsBetween_within_year (a b : Time.Time) :
  a < b -> b < Time.AddDate a 1 0 0 ->
  yearsBetween a b
  = (Time.Hours (b - a)%Z / 24 / Time.float64 (daysInYear (Time.Year a)))%float.
Proof.
  intros H N. pose proof (Time.AddDate_one_year a) as Y.
  assert (Hd : 0 < Time.nsPerDay) by reflexivity.
  rewrite (yearsBetween_lt a b H), F64.mul_one_l.
  pose proof (yearsForward_atLeast a b H) as P. unfold yearsForward in *.
  assert (F : exists n, yearsFuel a b = S n)
    by (exists (Z.to_nat (Z.abs (b - a) / (365 * Time.nsPerDay))); unfold yearsFuel; lia).
  destruct F as [n F]. rewrite F in *. cbn [wholeYears] in *.
  unfold Time.After, Time.Equal in *.
  destruct (Z.ltb_spec b (Time.AddDate a 1 0 0)); [|lia]. cbn [negb] in *.
  destruct (Z.eqb_spec a b); [lia|].
  assert (S : Time.Sub b a = b - a).
  { unfold Time.Sub.
    destruct (Z.ltb_spec (b - a) Time.minDuration) as [L1|L1];
      [unfold Time.minDuration in L1; lia|].
    destruct (Z.ltb_spec Time.maxDuration (b - a)) as [L2|L2]; [|reflexivity].
    unfold Time.maxDuration in L2.
    assert (366 * Time.nsPerDay < 2 ^ 63 - 1) by reflexivity. lia. }
  rewrite S in *.
  set (frac := (Time.Hours (b - a)%Z / 24 / Time.float64 (daysInYear (Time.Year a)))%float) in *.
  assert (Q : F64.atLeast false (-55) frac).
  { subst frac.
    destruct (float64_daysInYear_mag (Time.Year a)) as (m & ex & Em & Dm).
    eapply (F64.atLeast_div (-46)); [exact Em | rewrite Dm; reflexivity | lia |].
    eapply (F64.atLeast_div (-41));
      [vm_compute; reflexivity | vm_compute; reflexivity | lia |].
    apply Hours_atLeast. unfold Time.maxDuration.
    assert (366 * Time.nsPerDay < 2 ^ 63 - 1) by reflexivity. lia. }
  apply (F64.zero_add_atLeast _ _ Q).
Qed.

Lemma yearsBetween_within_year_witness :
  Time.Date 2023 3 15 0 0 0 0 < Time.Date 2024 3 14 12 0 0 0 /\
  Time.Date 2024 3 14 12 0 0 0 < Time.AddDate (Time.Date 2023 3 15 0 0 0 0) 1 0 0 /\
  yearsBetween (Time.Date 2023 3 15 0 0 0 0) (Time.Date 2024 3 14 12 0 0 0)
  = (Time.Hours (Time.Date 2024 3 14 12 0 0 0 - Time.Date 2023 3 15 0 0 0 0)%Z
     / 24 / Time.float64 (daysInYear (Time.Year (Time.Date 2023 3 15 0 0 0 0))))%float.
Proof.
  split; [reflexivity|]. split; [reflexivity|].
  apply (yearsBetween_within_year (Time.Date 2023 3 15 0 0 0 0)
           (Time.Date 2024 3 14 12 0 0 0)); reflexivity.
Defined.



(** A flow valued at its own date is worth its value: the discount factor at
    zero years is [1] and the product with [1] is exact, for every value of
    the flow (an infinity and NaN included) and every rate with a finite
    [PeriodsPerYear], or a finite [Value] for a continuous rate. *)
Theorem PresentValue_at_own_date {M : MathLib} (cf : CashFlow) :
  (forall r : RateAnnualPercentage.t,
     F64.IsFinite (RateAnnualPercentage.PeriodsPerYear r) = true ->
     PresentValue cf r (Date cf) = Value cf) /\
  (forall r : RateEffective.t,
     F64.IsFinite (RateEffective.PeriodsPerYear r) = true ->
     PresentValue cf r (Date cf) = Value cf) /\
  (forall r : RateContinuous.t,
     F64.IsFinite (RateContinuous.Value r) = true ->
     PresentValue cf r (Date cf) = Value cf).
Proof.
  split; [|split]; intros r Hr; apply PresentValue_at_date.
  - now apply RateAnnualPercentage_DiscountFactor_zero.
  - now apply RateEffective_DiscountFactor_zero.
  - now apply RateContinuous_DiscountFactor_zero.
Qed.

Lemma PresentValue_at_own_date_witness :
  PresentValue (mkCashFlow 40 (Time.Date 2024 6 2 0 0 0 0))
    (RateAnnualPercentage.mk 0.05 12) (Time.Date 2024 6 2 0 0 0 0)
  = 40%float.
Proof.
  destruct (PresentValue_at_own_date (M := GoMathLib)
              (mkCashFlow 40 (Time.Date 2024 6 2 0 0 0 0))) as (A & _ & _).
  apply (A (RateAnnualPercentage.mk 0.05 12)). reflexivity.
Defined.

(** The net present value of flows that all fall on the valuation date is
    the plain sum of their values, taken in the order of the slice, under
    every rate whose discount factor at zero years is [1]. *)
Theorem NPV_at_valuation_date {R} `{Rate R} (h : heap) (cfs : CashFlows)
    (l : list CashFlow) (r : R) (t : Time.Time) :
  h !! cfs = Some l ->
  DiscountFactor r 0 = 1%float ->
  Forall (fun cf => Date cf = t) l ->
  NPV cfs r t h
  = Some (fold_left (fun npv cf => (npv + Value cf)%float) l 0%float, h).
Proof.
  intros E D F. rewrite (NPV_run h cfs l r t E).
  now rewrite (NPV_loop_at_date r t l D F).
Qed.

Lemma NPV_at_valuation_date_witness :
  NPV 1%positive (RateContinuous.mk 0.05) (Time.Date 2024 6 2 0 0 0 0)
    {[ 1%positive := todayFlows ]}
  = Some (42.5%float, {[ 1%positive := todayFlows ]}).
Proof.
  apply (NPV_at_valuation_date {[ 1%positive := todayFlows ]} 1%positive
           todayFlows (RateContinuous.mk 0.05) (Time.Date 2024 6 2 0 0 0 0)).
  - reflexivity.
  - vm_compute. reflexivity.
  - repeat constructor.
Defined.

(** A rate of zero discounts nothing: the discount factor is [1] and the
    annual effective and continuous rates are [0].  For an effective rate
    this holds for every number of periods and of years, NaN included; for
    an annual percentage rate when the number of periods is neither zero
    nor NaN; for a continuous rate at every finite number of years. *)
Theorem zero_rate {M : MathLib} :
  (forall n years : float,
     DiscountFactor (RateEffective.mk 0 n) years = 1%float /\
     RateAnnualEffective (RateEffective.mk 0 n) = 0%float /\
     RateContinuous (RateEffective.mk 0 n) = 0%float) /\
  (forall n years : float,
     (n =? 0)%float = false -> F64.IsNaN n = false ->
     DiscountFactor (RateAnnualPercentage.mk 0 n) years = 1%float /\
     RateAnnualEffective (RateAnnualPercentage.mk 0 n) = 0%float /\
     RateContinuous (RateAnnualPercentage.mk 0 n) = 0%float) /\
  (forall years : float,
     F64.IsFinite years = true ->
     DiscountFactor (RateContinuous.mk 0) years = 1%float /\
     RateAnnualEffective (RateContinuous.mk 0) = 0%float /\
     RateContinuous.RateContinuous (RateContinuous.mk 0) = 0%float).
Proof.
  split; [|split].
  - intros n years. destruct (RateEffective_zero_rate n) as (D & A & C).
    split; [apply D | now split].
  - intros n years Hz Hn.
    destruct (RateAnnualPercentage_zero_rate n Hz Hn) as (D & A & C).
    split; [apply D | now split].
  - intros years Hy. destruct RateContinuous_zero_rate as (D & A & C).
    split; [now apply D | now split].
Qed.

Lemma zero_rate_witness :
  DiscountFactor (RateAnnualPercentage.mk 0 12) 7.5 = 1%float /\
  RateAnnualEffective (RateAnnualPercentage.mk 0 12) = 0%float /\
  RateContinuous (RateAnnualPercentage.mk 0 12) = 0%float.
Proof.
  destruct (zero_rate (M := GoMathLib)) as (_ & A & _).
  apply (A 12%float 7.5%float); reflexivity.
Defined.

(** An annual percentage rate compounded once a year is the effective
    annual rate of the same value: the two agree, as [float64], on the
    discount factor at every number of years and on both conversions, for
    every value; and the annual effective rate is [1 + v - 1]. *)
Theorem annual_percentage_is_effective {M : MathLib} (v : float) :
  (forall years,
     DiscountFactor (RateAnnualPercentage.mk v 1) years
     = DiscountFactor (RateEffective.mk v 1) years) /\
  RateAnnualEffective (RateAnnualPercentage.mk v 1)
  = RateAnnualEffective (RateEffective.mk v 1) /\
  RateContinuous (RateAnnualPercentage.mk v 1)
  = RateContinuous (RateEffective.mk v 1) /\
  RateAnnualEffective (RateEffective.mk v 1) = (1 + v - 1)%float.
Proof. apply annual_rates_agree. Qed.

(** An annual percentage rate with [PeriodsPerYear = 0] divides by zero,
    and the quotient is an infinity or a NaN; yet its discount factor is [1]
    at every finite number of years and its annual effective and continuous
    rates are [0], for every value: the exponent is a zero. *)
Theorem RateAnnualPercentage_zero_periods_identity {M : MathLib} (v : float) :
  F64.IsFinite (v / 0) = false /\
  (forall years, F64.IsFinite years = true ->
     DiscountFactor (RateAnnualPercentage.mk v 0) years = 1%float) /\
  RateAnnualEffective (RateAnnualPercentage.mk v 0) = 0%float /\
  RateContinuous (RateAnnualPercentage.mk v 0) = 0%float.
Proof.
  split; [apply div_zero_not_finite | apply RateAnnualPercentage_zero_periods].
Qed.

Lemma RateAnnualPercentage_zero_periods_identity_witness :
  DiscountFactor (RateAnnualPercentage.mk 0.05 0) 2.5 = 1%float.
Proof.
  destruct (RateAnnualPercentage_zero_periods_identity (M := GoMathLib) 0.05)
    as (_ & D & _).
  apply D. reflexivity.
Defined.

Section IRRExtra.
Context {M : MathLib} {S : SliceSorter} {B : RootFinder}.
Context {HS : SliceSorterSpec S}.

(** [IRR] gives up on the bracket only after the fifteen upper rates
    0.1, 0.2, ..., 1638.4 all left the sign unchanged; otherwise it hands
    Brent's method a bracket whose upper end is between 0.10 and 1638.4,
    and returns the root or the wrapped error that comes back. *)
Theorem IRR_bracket_or_root (h : heap) (cashFlows : CashFlows)
    (l : list CashFlow) :
  h !! cashFlows = Some l -> l <> [] ->
  exists (ordered : list CashFlow) (first : CashFlow) result h',
    let f := fun r : float =>
      NPV_loop (RateAnnualContinuous.mk r) (Date first) ordered 0%float in
    IRR cashFlows h = Some (result, h') /\
    h' !! fresh (dom h) = Some ordered /\
    ordered !! 0%nat = Some first /\
    (result = (RateAnnualContinuous.mk 0, Some errBracket) <->
     forall j, (j <= 14)%nat ->
       (0 <? f (-0.999999) * f (doubled j))%float = true) /\
    (snd result <> Some errBracket ->
     exists high,
       (0.10 <=? high)%float = true /\ (high <=? 1638.4)%float = true /\
       (0 <? f (-0.999999) * f high)%float = false /\
       match Brent f (-0.999999)%float high 12 with
       | (_, Some err) =>
           result = (RateAnnualContinuous.mk 0, Some (fmt_Errorf_w "IRR: " err))
       | (root, None) => result = (RateAnnualContinuous.mk root, None)
       end).
Proof.
  intros E Hne.
  destruct (IRR_run_nonempty h cashFlows l E Hne)
    as (first & k & Hfirst & Hmin & Hk & Hlt & Hstop & Hrun).
  exists (sortSlice lessDate l), first. eexists _, _. cbv zeta.
  set (f := fun r : float =>
         NPV_loop (RateAnnualContinuous.mk r) (Date first)
           (sortSlice lessDate l) 0%float) in *.
  split; [exact Hrun|]. split; [apply lookup_insert_eq|]. split; [exact Hfirst|].
  destruct (doubled_bounds k Hk) as (B1 & B2 & B3).
  pose proof (IRR_result_errBracket f (doubled k)) as EB.
  assert (Shape : snd (IRR_result f (doubled k)) = Some errBracket ->
                  IRR_result f (doubled k)
                  = (RateAnnualContinuous.mk 0, Some errBracket)).
  { unfold IRR_result. destruct (0 <? _ * _)%float; [reflexivity|].
    destruct (Brent _ _ _ _) as [root [err|]]; cbn; discriminate. }
  split; [split|].
  - intros R. apply (f_equal snd) in R. cbn [snd] in R. apply EB in R.
    assert (K : k = 14%nat).
    { unfold expanding in Hstop. rewrite R, B3, andb_true_l in Hstop.
      apply Nat.ltb_ge in Hstop. lia. }
    subst k. intros j Hj. destruct (decide (j = 14%nat)) as [->|]; [exact R|].
    specialize (Hlt j ltac:(lia)). unfold expanding in Hlt.
    now apply andb_true_iff in Hlt as [Hlt _].
  - intros A. apply Shape, EB. exact (A k Hk).
  - intros NE. exists (doubled k). split; [exact B1|]. split; [exact B2|].
    assert (NB : (0 <? f (-0.999999) * f (doubled k))%float = false).
    { apply not_true_is_false. intros C. apply NE, EB, C. }
    split; [exact NB|]. subst f. unfold IRR_result. cbv beta in NB |- *.
    rewrite NB. destruct (Brent _ _ _ _) as [root [err|]]; reflexivity.
Qed.

(** [IRR] returns the zero rate with every error, and an error of [IRR] is
    one of three: the empty input, the bracket that was not found, or the
    error of Brent's method behind the prefix ["IRR: "].  An empty
    collection leaves the store as it was; a non-empty one adds one array,
    the sorted copy. *)
Theorem IRR_errors (h : heap) (cashFlows : CashFlows) (l : list CashFlow) :
  h !! cashFlows = Some l ->
  exists result h',
    IRR cashFlows h = Some (result, h') /\
    (snd result = None \/
     fst result = RateAnnualContinuous.mk 0 /\
     (snd result = Some errEmpty \/ snd result = Some errBracket \/
      exists err, snd result = Some (fmt_Errorf_w "IRR: " err))) /\
    (l = [] -> h' = h) /\
    (l <> [] -> exists ordered,
       h' = <[fresh (dom h) := ordered]> h /\ h !! fresh (dom h) = None /\
       ordered ≡ₚ l /\ Ascending lessDate ordered).
Proof.
  intros E. destruct l as [|cf l].
  - eexists _, _. split; [now apply IRR_run_empty|]. cbn.
    split; [right; split; [reflexivity | now left]|]. split; [reflexivity|].
    now intros [].
  - destruct (IRR_run_nonempty h cashFlows (cf :: l) E ltac:(discriminate))
      as (first & k & _ & _ & _ & _ & _ & Hrun).
    eexists _, _. split; [exact Hrun|]. split; [|split; [discriminate|]].
    + unfold IRR_result. destruct (0 <? _ * _)%float.
      * right. split; [reflexivity|]. right. now left.
      * destruct (Brent _ _ _ _) as [root [err|]]; cbn; [|now left].
        right. split; [reflexivity|]. right. right. now exists err.
    + intros _. exists (sortSlice lessDate (cf :: l)).
      split; [reflexivity|]. split; [apply fresh_lookup|].
      split; [apply sortSlice_Permutation|].
      apply sortSlice_Ascending, lessDate_StrictWeakOrder.
Qed.

End IRRExtra.

Lemma IRR_bracket_or_root_witness :
  exists result h',
    IRR (M := GoMathLib) (S := insertionSorter) (B := lowerEndFinder)
      1%positive exampleHeap = Some (result, h') /\
    snd result <> Some errBracket.
Proof.
  destruct (IRR_bracket_or_root (M := GoMathLib) (S := insertionSorter)
              (B := lowerEndFinder) exampleHeap 1%positive exampleFlows
              eq_refl ltac:(discriminate))
    as (ordered & first & result & h' & Hrun & _).
  exists result, h'. split; [exact Hrun|].
  vm_compute in Hrun. injection Hrun as <- _. discriminate.
Defined.

Lemma IRR_errors_witness :
  exists result h',
    IRR (M := GoMathLib) (S := insertionSorter) (B := lowerEndFinder)
      1%positive exampleHeap = Some (result, h') /\
    h' !! 1%positive = Some exampleFlows.
Proof.
  destruct (IRR_errors (M := GoMathLib) (S := insertionSorter)
              (B := lowerEndFinder) exampleHeap 1%positive exampleFlows eq_refl)
    as (result & h' & Hrun & _ & _ & Hne).
  exists result, h'. split; [exact Hrun|].
  destruct (Hne ltac:(discriminate)) as (ordered & -> & Hf & _).
  rewrite lookup_insert_ne; [reflexivity|]. intros Heq.
  rewrite Heq in Hf. discriminate.
Defined.



(** [CashFlows.Sort], as Go's [sort.Slice] runs it, leaves a collection that
    is already in ascending order of date exactly as it is, whatever its
    length. *)
Theorem Sort_sorted_unchanged (h : heap) (cfs : CashFlows)
    (l : list CashFlow) :
  h !! cfs = Some l ->
  (forall (i j : nat) (x y : CashFlow),
     (i < j)%nat -> l !! i = Some x -> l !! j = Some y -> Date x <= Date y) ->
  Sort (S := pdqSorter) cfs h = Some (tt, h).
Proof.
  intros E A. rewrite (Sort_run h cfs l E).
  assert (Es : sortSlice (SliceSorter := pdqSorter) lessDate l = l).
  { unfold sortSlice, pdqSorter. rewrite SortMore.Slice_sorted; [reflexivity|].
    intros i j Hi Hij Hj.
    pose proof (list_lookup_lookup_total_lt l i ltac:(lia)) as Li.
    pose proof (list_lookup_lookup_total_lt l j Hj) as Lj.
    specialize (A i j _ _ Hij Li Lj). unfold lessDate, Time.Before.
    apply Z.ltb_ge. exact A. }
  rewrite Es. now rewrite insert_id.
Qed.

Lemma Sort_sorted_unchanged_witness :
  ({[ 1%positive := sortedFlows ]} : heap) !! 1%positive = Some sortedFlows /\
  Sort (S := pdqSorter) 1%positive {[ 1%positive := sortedFlows ]}
  = Some (tt, {[ 1%positive := sortedFlows ]}).
Proof.
  split; [reflexivity|].
  apply (Sort_sorted_unchanged _ 1%positive sortedFlows); [reflexivity|].
  intros [|[|[|i]]] [|[|[|j]]] x y Hij Hi Hj; try lia; cbn in Hi, Hj;
    try discriminate; injection Hi as <-; injection Hj as <-;
    vm_compute; discriminate.
Defined.

Section ParseProofs.
Context {P : TimeParser}.

Lemma parseLayouts_spec res input : forall ls,
  match parseLayouts res ls input with
  | Some mid =>
      exists layout t,
        layout ∈ ls /\ ParseInLocation layout input = Some t /\
        mid = midOfStartEnd (fst (periodOf res t)) (snd (periodOf res t))
  | None => forall layout, layout ∈ ls -> ParseInLocation layout input = None
  end.
Proof.
  induction ls as [|layout ls IH]; cbn [parseLayouts].
  - intros layout Hin. inversion Hin.
  - destruct (ParseInLocation layout input) as [t|] eqn:E.
    + destruct (periodOf res t) as [s e] eqn:Ep.
      exists layout, t. rewrite Ep. split; [left|]. now split.
    + destruct (parseLayouts res ls input) as [mid|].
      * destruct IH as (l' & t & Hin & Ht & Hm). exists l', t.
        split; [now right|]. now split.
      * intros l' Hin. apply elem_of_cons in Hin as [->|Hin]; auto.
Qed.

Lemma parseResolutions_spec input : forall rs,
  match parseResolutions rs input with
  | Some mid =>
      exists r layout t,
        r ∈ rs /\ layout ∈ layouts r /\
        ParseInLocation layout input = Some t /\
        mid = midOfStartEnd (fst (periodOf (resolutionOf r) t))
                            (snd (periodOf (resolutionOf r) t))
  | None =>
      forall r layout, r ∈ rs -> layout ∈ layouts r ->
        ParseInLocation layout input = None
  end.
Proof.
  induction rs as [|r rs IH]; cbn [parseResolutions].
  - intros r layout Hin. inversion Hin.
  - pose proof (parseLayouts_spec (resolutionOf r) input (layouts r)) as L.
    destruct (parseLayouts (resolutionOf r) (layouts r) input) as [mid|].
    + destruct L as (layout & t & Hin & Ht & Hm). exists r, layout, t.
      split; [left|]. now repeat split.
    + destruct (parseResolutions rs input) as [mid|].
      * destruct IH as (r' & layout & t & Hin & Hl & Ht & Hm).
        exists r', layout, t. split; [now right|]. now repeat split.
      * intros r' layout Hin Hl. apply elem_of_cons in Hin as [->|Hin]; eauto.
Qed.

(** The period of an instant holds the instant; its length is that of the
    calendar year, as [daysInYear] counts it, of the calendar month, or of
    the day, hour, minute, second or millisecond; and the value that
    [parseStringToMidTime] returns for it is its middle, rounded down to the
    nanosecond. *)
Theorem periodOf_spec (res : resolution) (t : Time.Time) :
  let '(start, end_) := periodOf res t in
  start <= t <= end_ /\
  midOfStartEnd start end_ = start + (end_ - start) / 2 /\
  match res with
  | yearRes => end_ - start + 1 = daysInYear (Time.Year t) * Time.nsPerDay
  | monthRes =>
      exists days, 28 <= days <= 31 /\ end_ - start + 1 = days * Time.nsPerDay
  | dayRes => end_ - start + 1 = Time.nsPerDay
  | hourRes => end_ - start + 1 = Time.Hour
  | minuteRes => end_ - start + 1 = Time.Minute
  | secondRes => end_ - start + 1 = Time.Second
  | milliRes => end_ - start + 1 = Time.Millisecond
  end.
Proof. exact (periodOf_bounds res t). Qed.

(** [NewCashFlow] with one period string: when a supported layout reads the
    string, the flow has the value given and is dated at the middle of the
    period of the instant read, between the start and the end of that
    period; when none does, the result is the zero cash-flow and the error
    names the string. *)
Theorem NewCashFlow_one_period (value : float) (p : string) :
  match NewCashFlow value [p] with
  | (cf, None) =>
      Value cf = value /\
      exists r layout t,
        r ∈ sliceResolutionToLayouts /\ layout ∈ layouts r /\
        ParseInLocation layout p = Some t /\
        let '(start, end_) := periodOf (resolutionOf r) t in
        start <= t <= end_ /\ start <= Date cf <= end_ /\
        Date cf = start + (end_ - start) / 2
  | (cf, Some err) =>
      cf = zeroCashFlow /\
      err = errors_New ("unsupported time format: " ++ p) /\
      forall r layout,
        r ∈ sliceResolutionToLayouts -> layout ∈ layouts r ->
        ParseInLocation layout p = None
  end.
Proof.
  unfold NewCashFlow, StringToTime, parseStringToMidTime.
  pose proof (parseResolutions_spec p sliceResolutionToLayouts) as R.
  destruct (parseResolutions sliceResolutionToLayouts p) as [mid|].
  - destruct R as (r & layout & t & Hin & Hl & Ht & Hm).
    split; [reflexivity|]. exists r, layout, t. repeat (split; [assumption|]).
    pose proof (periodOf_bounds (resolutionOf r) t) as S.
    destruct (periodOf (resolutionOf r) t) as [s e]. cbn [fst snd Date] in *.
    destruct S as (B & M & _). subst mid.
    split; [exact B|]. split; [apply midOfStartEnd_between; lia | exact M].
  - repeat split. exact R.
Qed.

(** [StringToTime] asks for one or two period strings; an error comes with
    the zero time; with two strings that are read it returns an instant
    between their two middles, the same in either order of the strings. *)
Theorem StringToTime_two_periods (p1 p2 : string) :
  StringToTime [] =
    (0, Some (errors_New "StringToTime requires 1 or 2 period strings")) /\
  (forall p3 rest,
     StringToTime (p1 :: p2 :: p3 :: rest) =
       (0, Some (errors_New "StringToTime requires 1 or 2 period strings"))) /\
  (forall err, snd (StringToTime [p1; p2]) = Some err ->
     fst (StringToTime [p1; p2]) = 0) /\
  (snd (parseStringToMidTime p1) = None \/ snd (parseStringToMidTime p2) = None ->
   StringToTime [p1; p2] = StringToTime [p2; p1]) /\
  (snd (StringToTime [p1; p2]) = None ->
   snd (StringToTime [p1]) = None /\ snd (StringToTime [p2]) = None /\
   Z.min (fst (StringToTime [p1])) (fst (StringToTime [p2]))
   <= fst (StringToTime [p1; p2])
   <= Z.max (fst (StringToTime [p1])) (fst (StringToTime [p2]))).
Proof.
  split; [reflexivity|]. split; [reflexivity|].
  unfold StringToTime.
  destruct (parseStringToMidTime p1) as [m1 [e1|]],
           (parseStringToMidTime p2) as [m2 [e2|]]; cbn [fst snd].
  - repeat split; try discriminate. intros [|]; discriminate.
  - repeat split; try discriminate.
  - repeat split; try discriminate.
  - unfold Time.Before.
    destruct (Z.ltb_spec m1 m2) as [L|L], (Z.ltb_spec m2 m1) as [L'|L'];
      try lia; cbn [fst snd]; repeat split; try discriminate;
      try (replace m2 with m1 by lia; reflexivity);
      try (pose proof (midOfStartEnd_between m1 m2 ltac:(lia)); lia);
      try (pose proof (midOfStartEnd_between m2 m1 ltac:(lia)); lia).
Qed.

End ParseProofs.

Lemma StringToTime_two_periods_witness :
  StringToTime (P := yearParser) ["2020"; "2021"]%string
  = StringToTime (P := yearParser) ["2021"; "2020"]%string /\
  snd (StringToTime (P := yearParser) ["2020"; "2021"]%string) = None.
Proof.
  destruct (StringToTime_two_periods (P := yearParser) "2020" "2021")
    as (_ & _ & _ & S & _).
  split; [apply S; left; reflexivity | reflexivity].
Defined.

Section IRROrder.
Context {M : MathLib} {S : SliceSorter} {B : RootFinder}.
Context {HS : SliceSorterSpec S}.

(** [IRR] does not depend on the order in which the flows are given: two
    collections that hold the same flows, no two of them on one instant,
    get the same rate and the same error. *)
Theorem IRR_order_independent (h1 h2 : heap) (cfs1 cfs2 : CashFlows)
    (l1 l2 : list CashFlow) :
  h1 !! cfs1 = Some l1 -> h2 !! cfs2 = Some l2 ->
  l1 ≡ₚ l2 -> NoDup (map Date l1) ->
  exists result h1' h2',
    IRR cfs1 h1 = Some (result, h1') /\ IRR cfs2 h2 = Some (result, h2').
Proof.
  intros E1 E2 P N.
  destruct l1 as [|cf l1].
  - apply Permutation_nil_l in P. subst l2.
    eexists _, _, _. split; now apply IRR_run_empty.
  - assert (N2 : l2 <> []) by (intros ->; now apply Permutation_nil_r in P).
    destruct (sortSlice_first (cf :: l1) ltac:(discriminate)) as (first & F1 & _).
    pose proof (sortSlice_order_independent _ _ P N) as Es.
    pose proof F1 as F2. rewrite Es in F2.
    rewrite (IRR_run h1 cfs1 (cf :: l1) first E1 ltac:(discriminate) F1).
    rewrite (IRR_run h2 cfs2 l2 first E2 N2 F2). rewrite <- Es.
    destruct (IRR_search_spec (Date first) (sortSlice lessDate (cf :: l1)))
      as (k & _ & _ & _ & ->).
    eexists _, _, _. split; reflexivity.
Qed.

End IRROrder.

Lemma IRR_order_independent_witness :
  exists result h1' h2',
    IRR (M := GoMathLib) (S := insertionSorter) (B := lowerEndFinder)
      1%positive exampleHeap = Some (result, h1') /\
    IRR (M := GoMathLib) (S := insertionSorter) (B := lowerEndFinder)
      1%positive {[ 1%positive := sortedFlows ]} = Some (result, h2').
Proof.
  apply (IRR_order_independent (M := GoMathLib) (S := insertionSorter)
           (B := lowerEndFinder) exampleHeap {[ 1%positive := sortedFlows ]}
           1%positive 1%positive exampleFlows sortedFlows);
    [reflexivity | reflexivity | |].
  - unfold exampleFlows, sortedFlows.
    etransitivity; [apply perm_swap|]. apply perm_skip, perm_swap.
  - apply (bool_decide_unpack _). vm_compute. exact I.
Defined.

Section Drafts.
Context {M : MathLib}.
Local Open Scope float_scope.

(** The two drafts of the continuous rate are one function: [Exp(-R * t)]
    of the earlier and [Exp(R * -t)] of the later are the same [float64]
    for every rate and every number of years, and so are the conversions. *)
Theorem RateContinuous_drafts_agree (r t : float) :
  RateDraft.RateContinuous_DiscountFactor (RateDraft.mkRateContinuous r) t
  = RateContinuous.DiscountFactor (RateContinuous.mk r) t /\
  RateDraft.RateContinuous_RateAnnualEffective (RateDraft.mkRateContinuous r)
  = RateContinuous.RateAnnualEffective (RateContinuous.mk r) /\
  RateDraft.RateContinuous_RateAnnualNominal (RateDraft.mkRateContinuous r)
  = RateContinuous.RateAnnualEffective (RateContinuous.mk r) /\
  RateDraft.RateContinuous_RateContinuous (RateDraft.mkRateContinuous r)
  = RateContinuous.RateContinuous (RateContinuous.mk r).
Proof.
  unfold RateDraft.RateContinuous_DiscountFactor, RateContinuous.DiscountFactor,
    RateDraft.RateContinuous_RateAnnualNominal,
    RateDraft.RateContinuous_RateAnnualEffective,
    RateContinuous.RateAnnualEffective. cbn.
  now rewrite F64.mul_opp_comm.
Qed.

(** The simple rate of the earlier draft: its discount factor [1 / (1 + R*t)]
    is [1] at zero years for every finite rate, and at every finite number
    of years for the rate zero; its continuous form at the rate zero is
    [0]. *)
Theorem RateSimple_identity :
  (forall r, F64.IsFinite r = true ->
     RateDraft.RateSimple_DiscountFactor (RateDraft.mkRateSimple r) 0 = 1) /\
  (forall t, F64.IsFinite t = true ->
     RateDraft.RateSimple_DiscountFactor (RateDraft.mkRateSimple 0) t = 1) /\
  RateDraft.RateSimple_RateContinuous (RateDraft.mkRateSimple 0) = 0.
Proof.
  unfold RateDraft.RateSimple_DiscountFactor, RateDraft.RateSimple_RateContinuous.
  cbn. split; [|split].
  - intros r Hr. now rewrite F64.one_add_mul_zero.
  - intros t Ht.
    rewrite (F64.one_add_zero _ (F64.mul_zero_finite 0 t eq_refl Ht)).
    reflexivity.
  - change (1 + 0) with 1. apply Log_one.
Qed.

End Drafts.

Lemma RateSimple_identity_witness :
  RateDraft.RateSimple_DiscountFactor (RateDraft.mkRateSimple 0.05) 0 = 1%float.
Proof.
  destruct (RateSimple_identity (M := GoMathLib)) as (A & _ & _).
  apply A. reflexivity.
Defined.
